(** * ratecounter: a sliding-window rate counter

    Shallow embedding of [counter.go] and [ratecounter.go].

    - Go's [uint32], [uint64], [int32] and [int64] are [Z] with the
      wrap-around of each conversion written out.
    - Go's [float32] is IEEE 754 binary32, taken from the Standard Library's
      executable specification [SpecFloat] at precision 24 and [emax] 128
      (round to nearest, ties to even).
    - [[]Counter] is a [list] read with stdpp's lookup and written with
      stdpp's insert behind the bounds check that Go performs.
    - The wall clock read by [UnixMilli()] is an input of every operation:
      the argument [now] is the value that call returns.
    - A run-time panic is the [Panic] result.
    - Concurrent callers are goroutines stepped one access to what they
      share at a time: [Gate] for the mutex and the flag of the rotation
      step alone, [Overlap] for whole calls of [Incr] and [Rate]. *)

From Stdlib Require Import ZArith Lia Bool String.
From Stdlib Require Import Floats.SpecFloat.
From stdpp Require Import base list.
From Stdlib Require DecimalString DecimalZ.

Local Open Scope Z_scope.

(** ** Results of fallible calls *)

Inductive result (A : Type) : Type :=
| Ok (a : A)
| Panic (msg : string)
| OutOfFuel.

Arguments Ok {A} a.
Arguments Panic {A} msg.
Arguments OutOfFuel {A}.

Definition bind {A B : Type} (m : result A) (k : A -> result B) : result B :=
  match m with
  | Ok a => k a
  | Panic msg => Panic msg
  | OutOfFuel => OutOfFuel
  end.

Notation "'let*' x ':=' m 'in' k" := (bind m (fun x => k))
  (at level 10, x name, m at level 100, k at level 200).

(** ** Machine integers *)

Definition uint32 (z : Z) : Z := z mod 2 ^ 32.
Definition uint64 (z : Z) : Z := z mod 2 ^ 64.
Definition int32 (z : Z) : Z := (z + 2 ^ 31) mod 2 ^ 32 - 2 ^ 31.

Definition is_int64 (z : Z) : Prop := - 2 ^ 63 <= z < 2 ^ 63.

(** ** float32 *)

Module F32.
Definition prec : Z := 24.
Definition emax : Z := 128.

Abbreviation t := spec_float (only parsing).

(** [float32(n)] for an integer [n]: the nearest binary32, ties to even. *)
Definition of_Z (n : Z) : t := binary_normalize prec emax n 0 false.

Definition div (x y : t) : t := SFdiv prec emax x y.
Definition sub (x y : t) : t := SFsub prec emax x y.
(** [x > y]; false as soon as one side is a NaN. *)
Definition gtb (x y : t) : bool := SFltb y x.
End F32.

(** ** counter.go *)

Module Counter.
(** [type Counter uint32] *)
Abbreviation t := Z (only parsing).

(** Modelled from the spec: [NewCounter] is called by the test but is not
    defined in the sources; a Counter is "created zeroed". *)
Definition NewCounter : t := 0.

(** [atomic.AddUint32] of [uint32(val)] to the word *)
Definition Incr (c : t) (val : Z) : t := uint32 (c + uint32 val).

(** [atomic.StoreUint32] of 0 to the word *)
Definition Reset (c : t) : t := 0.

(** [int64] of the [atomic.LoadUint32] of the word *)
Definition Value (c : t) : Z := c.
End Counter.

(** ** ratecounter.go *)

Module RateCounter.

Record t : Type := mk {
  counter : Counter.t;
  partials : list Counter.t;
  resetTime : Z;   (* uint64: the last time a partial was reset *)
  current : Z;     (* int32 *)
  resetting : bool;
  interval : Z     (* uint32 *)
}.

(** [NewRateCounter(intrvl)]; [intrvl] is a [time.Duration], a number of
    nanoseconds in an int64, and [/] on int64 truncates toward zero. *)
Definition NewRateCounter (intrvl : Z) (now : Z) : t :=
  {| counter := 0;
     partials := replicate 20 0;
     resetTime := now;
     current := 0;
     resetting := false;
     interval := uint32 (Z.quot intrvl 1000000) |}.

(** The variables of the rotation loop of [updatePartials]. *)
Record loop_state : Type := mkLoop {
  ii : Z;
  timeDiff : F32.t;
  cur : Z;                     (* the local [current], an int32 *)
  total : Counter.t;           (* [r.counter] *)
  buckets : list Counter.t     (* [r.partials] *)
}.

Definition loop_guard (partialInterval : F32.t) (resolution : Z)
    (st : loop_state) : bool :=
  F32.gtb (timeDiff st) partialInterval && (ii st <? resolution).

(** One execution of the body, followed by [ii++]. *)
Definition loop_body (partialInterval : F32.t) (resolution : Z)
    (st : loop_state) : result loop_state :=
  let timeDiff' := F32.sub (timeDiff st) partialInterval in
  let next := Z.rem (cur st + 1) resolution in
  if (0 <=? next) && (next <? Z.of_nat (length (buckets st))) then
    match buckets st !! Z.to_nat next with
    | Some p =>
        Ok {| ii := ii st + 1;
              timeDiff := timeDiff';
              cur := int32 next;
              total := Counter.Incr (total st) (-1 * Counter.Value p);
              buckets := <[Z.to_nat next := Counter.Reset p]> (buckets st) |}
    | None => Panic "index out of range"
    end
  else Panic "index out of range".

(** [for ii := 0; timeDiff > partialInterval && ii < resolution; ii++].
    [fuel] bounds the number of guard evaluations of the model only. *)
Fixpoint rotation_loop (fuel : nat) (partialInterval : F32.t)
    (resolution : Z) (st : loop_state) : result loop_state :=
  match fuel with
  | O => OutOfFuel
  | S fuel' =>
      if loop_guard partialInterval resolution st then
        let* st' := loop_body partialInterval resolution st in
        rotation_loop fuel' partialInterval resolution st'
      else Ok st
  end.

Definition partialInterval_of (interval resolution : Z) : F32.t :=
  F32.div (F32.of_Z interval) (F32.of_Z resolution).

Definition timeDiff_of (now resetTime : Z) : F32.t :=
  F32.of_Z (uint64 (now - resetTime)).

(** [updatePartials(interval, val)] run on its own: the mutex is free on
    entry and on exit, and the deferred function has cleared [resetting]
    when the call returns. *)
Definition updatePartials (r : t) (interval : Z) (val : Z) (now : Z)
    : result t :=
  let resolution := Z.of_nat (length (partials r)) in
  let timeDiff0 := timeDiff_of now (resetTime r) in
  let partialInterval := partialInterval_of interval resolution in
  if F32.gtb timeDiff0 partialInterval then
    if negb (resetting r) then
      let* st := rotation_loop (S (length (partials r))) partialInterval resolution
              {| ii := 0; timeDiff := timeDiff0; cur := current r;
                 total := counter r; buckets := partials r |} in
      Ok {| counter := total st;
            partials := buckets st;
            resetTime := now;
            current := cur st;   (* [int32(current)] of an int32 *)
            resetting := false;
            interval := RateCounter.interval r |}
    else Ok r
  else Ok r.

(** The most the run-time allocates at once, in bytes: its [maxAlloc],
    2^48 on the 64-bit platforms, where [int] has 64 bits. *)
Definition maxAlloc : Z := 2 ^ 48.

(** [make([]Counter, n)], a [Counter] being four bytes.  The run-time
    panics when [n] is negative or the bytes asked for exceed [maxAlloc];
    below that the allocation is taken to succeed (to run out of memory is
    a fatal error of the process, not a panic). *)
Definition make (n : Z) : result (list Counter.t) :=
  if (n <? 0) || (maxAlloc <? 4 * n) then
    Panic "runtime error: makeslice: len out of range"
  else Ok (replicate (Z.to_nat n) 0).

(** [WithResolution(resolution)] *)
Definition WithResolution (r : t) (resolution : Z) : result t :=
  if resolution <? 1 then
    Panic "RateCounter resolution cannot be less than 1"
  else
    let* bs := make resolution in
    Ok {| counter := counter r;
          partials := bs;
          resetTime := resetTime r;
          current := 0;
          resetting := resetting r;
          interval := interval r |}.

(** [Incr(val)] *)
Definition Incr (r : t) (val : Z) (now : Z) : result t :=
  let r1 := {| counter := Counter.Incr (counter r) val;
               partials := partials r;
               resetTime := resetTime r;
               current := current r;
               resetting := resetting r;
               interval := interval r |} in
  let* r2 := updatePartials r1 (interval r1) val now in
  let c := current r2 in
  if (0 <=? c) && (c <? Z.of_nat (length (partials r2))) then
    match partials r2 !! Z.to_nat c with
    | Some p =>
        Ok {| counter := counter r2;
              partials := <[Z.to_nat c := Counter.Incr p val]> (partials r2);
              resetTime := resetTime r2;
              current := current r2;
              resetting := resetting r2;
              interval := interval r2 |}
    | None => Panic "index out of range"
    end
  else Panic "index out of range".

(** [Rate()]: the state after the call and the value returned. *)
Definition Rate (r : t) (now : Z) : result (t * Z) :=
  let* r' := updatePartials r (interval r) 0 now in
  Ok (r', Counter.Value (counter r')).

End RateCounter.

(** ** Sequential executions *)

Definition sumZ (l : list Z) : Z := foldr Z.add 0 l.

(** The sum of [partials[i].Value()] over all buckets. *)
Definition sum_partials (r : RateCounter.t) : Z :=
  sumZ (map Counter.Value (RateCounter.partials r)).

Inductive op : Type :=
| OpIncr (val : Z) (now : Z)
| OpRate (now : Z).

Definition step (r : RateCounter.t) (o : op) : result RateCounter.t :=
  match o with
  | OpIncr val now => RateCounter.Incr r val now
  | OpRate now => let* p := RateCounter.Rate r now in Ok (fst p)
  end.

Fixpoint run (r : RateCounter.t) (ops : list op) : result RateCounter.t :=
  match ops with
  | [] => Ok r
  | o :: ops' => let* r' := step r o in run r' ops'
  end.

(** The value the next [Rate()] returns when called at time [now]. *)
Definition rate_at (r : RateCounter.t) (now : Z) : result Z :=
  let* p := RateCounter.Rate r now in Ok (snd p).

(** A counter that has not seen an [Incr] yet. *)
Inductive configured : RateCounter.t -> Prop :=
| configured_new intrvl now :
    configured (RateCounter.NewRateCounter intrvl now)
| configured_resolution r n r' :
    configured r -> RateCounter.WithResolution r n = Ok r' -> configured r'
| configured_rate r now r' v :
    configured r -> RateCounter.Rate r now = Ok (r', v) -> configured r'.

(** The states of a sequential execution in which [WithResolution], if it is
    called at all, is called before the first [Incr]. *)
Inductive reachable : RateCounter.t -> Prop :=
| reachable_configured r : configured r -> reachable r
| reachable_step r o r' : reachable r -> step r o = Ok r' -> reachable r'.

(** [apply_incrs c ds]: [c.Incr(d)] for each [d] of [ds] in turn. *)
Definition apply_incrs (c : Counter.t) (ds : list Z) : Counter.t :=
  fold_left Counter.Incr ds c.

(** ** Invariants and scenarios *)

(** The part of the total that no bucket accounts for, as a 32-bit word. *)
Definition drift (tot : Counter.t) (bs : list Counter.t) : Z :=
  uint32 (tot - sumZ bs).

(** The number of times the body of the loop is entered. *)
Fixpoint rotation_steps (fuel : nat) (pI : F32.t) (res : Z)
    (st : RateCounter.loop_state) : nat :=
  match fuel with
  | O => O
  | S fuel' =>
      if RateCounter.loop_guard pI res st then
        match RateCounter.loop_body pI res st with
        | Ok st' => S (rotation_steps fuel' pI res st')
        | _ => 1%nat
        end
      else O
  end.

Definition word (p : Z) : Prop := 0 <= p < 2 ^ 32.

(** The sum invariant, modulo the width of the word. *)
Record sum_inv (r : RateCounter.t) : Prop := {
  sum_inv_drift : drift (RateCounter.counter r) (RateCounter.partials r) = 0;
  sum_inv_counter : word (RateCounter.counter r);
  sum_inv_partials : Forall word (RateCounter.partials r)
}.

Definition all_zero (tot : Counter.t) (bs : list Counter.t) : Prop :=
  tot = 0 /\ Forall (fun p => p = 0) bs.

Definition second := 1000000000.

(** Two decrements that land in different buckets. *)
Definition two_decrements : list op := [OpIncr (-1) 0; OpIncr (-1) 60].

(** Two increments of 2^31 that land in different buckets. *)
Definition two_large_increments : list op :=
  [OpIncr (2 ^ 31) 0; OpIncr (2 ^ 31) 60].

Definition after_two_decrements : RateCounter.t :=
  {| RateCounter.counter := 4294967294;
     RateCounter.partials := 4294967295 :: 4294967295 :: replicate 18 0;
     RateCounter.resetTime := 60;
     RateCounter.current := 1;
     RateCounter.resetting := false;
     RateCounter.interval := 1000 |}.

Definition after_two_large_increments : RateCounter.t :=
  {| RateCounter.counter := 0;
     RateCounter.partials := 2147483648 :: 2147483648 :: replicate 18 0;
     RateCounter.resetTime := 60;
     RateCounter.current := 1;
     RateCounter.resetting := false;
     RateCounter.interval := 1000 |}.


(** [elapsed <= subInterval], as the rotation step computes it. *)
Definition within_sub_interval (r : RateCounter.t) (now : Z) : bool :=
  negb (F32.gtb
          (RateCounter.timeDiff_of now (RateCounter.resetTime r))
          (RateCounter.partialInterval_of (RateCounter.interval r)
             (Z.of_nat (length (RateCounter.partials r))))).

(** The deltas of the [Incr] calls of a run. *)
Definition delta (o : op) : Z :=
  match o with
  | OpIncr val _ => val
  | OpRate _ => 0
  end.

Definition deltas (ops : list op) : Z := sumZ (map delta ops).

(** Moving a counter, or a call, [d] milliseconds along the time axis. *)
Definition shift (d : Z) (r : RateCounter.t) : RateCounter.t :=
  {| RateCounter.counter := RateCounter.counter r;
     RateCounter.partials := RateCounter.partials r;
     RateCounter.resetTime := RateCounter.resetTime r + d;
     RateCounter.current := RateCounter.current r;
     RateCounter.resetting := RateCounter.resetting r;
     RateCounter.interval := RateCounter.interval r |}.

Definition shift_op (d : Z) (o : op) : op :=
  match o with
  | OpIncr val now => OpIncr val (now + d)
  | OpRate now => OpRate (now + d)
  end.

Definition rmap {A B : Type} (f : A -> B) (m : result A) : result B :=
  let* a := m in Ok (f a).

(** The scenario of the specification: window 1000 ms, resolution 10, one
    event at 0 ms and one at 500 ms, the clock starting at [t0]. *)
Definition scenario_counter (t0 : Z) : result RateCounter.t :=
  let* r := RateCounter.WithResolution (RateCounter.NewRateCounter second t0) 10 in
  run r [OpIncr 1 (t0 + 0); OpIncr 1 (t0 + 500)].

Definition after_scenario : RateCounter.t :=
  {| RateCounter.counter := 2;
     RateCounter.partials := [1; 0; 0; 0; 1; 0; 0; 0; 0; 0];
     RateCounter.resetTime := 500;
     RateCounter.current := 4;
     RateCounter.resetting := false;
     RateCounter.interval := 1000 |}.

(** After a late [WithResolution]: the total is a floor [t0] plus what the
    buckets hold, as integers. *)
Definition floor_inv (t0 : Z) (tot : Counter.t) (bs : list Counter.t) : Prop :=
  Forall (fun p => 0 <= p) bs /\ tot = t0 + sumZ bs.

Definition after_three_events : RateCounter.t :=
  {| RateCounter.counter := 3;
     RateCounter.partials := 3 :: replicate 19 0;
     RateCounter.resetTime := 0;
     RateCounter.current := 0;
     RateCounter.resetting := false;
     RateCounter.interval := 1000 |}.

Definition late_resolution : RateCounter.t :=
  {| RateCounter.counter := 3;
     RateCounter.partials := replicate 10 0;
     RateCounter.resetTime := 0;
     RateCounter.current := 0;
     RateCounter.resetting := false;
     RateCounter.interval := 1000 |}.

(** Through the calls [ops] made from [r], every delta is non-negative and
    no [Incr] carries the total to 2^32. *)
Fixpoint counts_up (r : RateCounter.t) (ops : list op) : bool :=
  match ops with
  | [] => true
  | o :: ops' =>
      (0 <=? delta o)
      && (Counter.Value (RateCounter.counter r) + delta o <? 2 ^ 32)
      && match step r o with
         | Ok r' => counts_up r' ops'
         | _ => true
         end
  end.

(** ** binary32 arithmetic on integers *)

(** [m] shifted left by [n] bits. *)
Definition shl (m : positive) (n : nat) : positive := Nat.iter n xO m.

(** The number of binary digits of [m]. *)
Definition digits (m : positive) : Z := Zpos (digits2_pos m).

Definition exact_record (m : positive) : shr_record :=
  {| shr_m := Zpos m; shr_r := false; shr_s := false |}.

(** The first alignment of [binary_round]: the mantissa brought to the
    exponent of its binade, with what was shifted out. *)
Definition round_first (mx : positive) (ex : Z) : shr_record * Z :=
  let '(mz, ez) := shl_align mx ex (fexp F32.prec F32.emax (digits mx + ex)) in
  shr_fexp F32.prec F32.emax (Zpos mz) ez loc_Exact.

(** The rest of [binary_round_aux]: rounding to nearest even, the second
    alignment, and the choice of the result. *)
Definition round_rest (sx : bool) (first : shr_record * Z) : spec_float :=
  let '(mrs', e') := first in
  let '(mrs'', e'') :=
    shr_fexp F32.prec F32.emax
      (round_nearest_even (shr_m mrs') (loc_of_shr_record mrs')) e' loc_Exact in
  match shr_m mrs'' with
  | Z0 => S754_zero sx
  | Zpos m => if e'' <=? F32.emax - F32.prec then S754_finite sx m e''
              else S754_infinity sx
  | _ => S754_nan
  end.

(** A positive normal binary32 whose value is the integer [z]. *)
Definition normal (x : spec_float) (z : Z) : Prop :=
  exists m e, x = S754_finite false m e /\ digits m = 24 /\
              -149 <= e <= 104 /\ z * 2 ^ 149 = Zpos m * 2 ^ (e + 149).

(** ** The rotation step, taken apart *)

(** How many times the loop runs: it depends on the clock only. *)
Fixpoint iterations (fuel : nat) (pI : F32.t) (R : Z) (i : Z) (td : F32.t)
    : nat :=
  match fuel with
  | O => O
  | S fuel' =>
      if F32.gtb td pI && (i <? R)
      then S (iterations fuel' pI R (i + 1) (F32.sub td pI))
      else O
  end.

(** [k] rotations from the bucket [c]: the current index, the total and the
    buckets they leave. *)
Fixpoint rotate (k : nat) (R : Z) (c : Z) (tot : Counter.t)
    (bs : list Counter.t) : Z * Counter.t * list Counter.t :=
  match k with
  | O => (c, tot, bs)
  | S k' =>
      let next := (c + 1) mod R in
      let p : Counter.t :=
        match bs !! Z.to_nat next with Some p => p | None => 0 end in
      rotate k' R next (uint32 (tot - p)) (<[Z.to_nat next := 0]> bs)
  end.

(** The rotations a call at time [now] performs. *)
Definition rotations (r : RateCounter.t) (now : Z) : nat :=
  let R := Z.of_nat (length (RateCounter.partials r)) in
  iterations (S (length (RateCounter.partials r)))
    (RateCounter.partialInterval_of (RateCounter.interval r) R) R 0
    (RateCounter.timeDiff_of now (RateCounter.resetTime r)).

(** The counter after [k] rotations performed at time [now]. *)
Definition rotated (k : nat) (now : Z) (r : RateCounter.t) : RateCounter.t :=
  match k with
  | O => r
  | S _ =>
      let '(c, tot, bs) :=
        rotate k (Z.of_nat (length (RateCounter.partials r)))
          (RateCounter.current r) (RateCounter.counter r)
          (RateCounter.partials r) in
      {| RateCounter.counter := tot;
         RateCounter.partials := bs;
         RateCounter.resetTime := now;
         RateCounter.current := c;
         RateCounter.resetting := false;
         RateCounter.interval := RateCounter.interval r |}
  end.

(** The current index is a bucket, the ring fits an int32 index, and no
    rotation is in progress. *)
Record wf (r : RateCounter.t) : Prop := {
  wf_current :
    0 <= RateCounter.current r < Z.of_nat (length (RateCounter.partials r));
  wf_length : Z.of_nat (length (RateCounter.partials r)) <= 2 ^ 31;
  wf_idle : RateCounter.resetting r = false
}.

(** The window is [p] milliseconds per bucket, an integer, and fits the
    24 bits of a binary32 mantissa. *)
Record regime (r : RateCounter.t) (p : Z) : Prop := {
  regime_p : 0 < p;
  regime_window :
    RateCounter.interval r = Z.of_nat (length (RateCounter.partials r)) * p;
  regime_small : RateCounter.interval r < 2 ^ 24
}.


(** What the loop holds for an elapsed time worth [X]. *)
Definition holds (x : F32.t) (X : Z) : Prop :=
  (0 <= X < 2 ^ 24 /\ x = F32.of_Z X) \/
  (2 ^ 24 <= X <= 2 ^ 64 /\ normal x X).

(** A day-long window at the default resolution, one event at 0 ms. *)
Definition day : Z := 86400 * second.

Definition after_event_in_day : RateCounter.t :=
  {| RateCounter.counter := 1;
     RateCounter.partials := 1 :: replicate 19 0;
     RateCounter.resetTime := 0;
     RateCounter.current := 0;
     RateCounter.resetting := false;
     RateCounter.interval := 86400000 |}.

(** A window of 2^31 + 128 ms in five buckets, last rotated at 0 ms. *)
Definition wide_window : RateCounter.t :=
  {| RateCounter.counter := 0;
     RateCounter.partials := replicate 5 0;
     RateCounter.resetTime := 0;
     RateCounter.current := 0;
     RateCounter.resetting := false;
     RateCounter.interval := 2147483776 |}.



(** ** One event followed through a run *)

(** [r.counter.Incr(val)], the first statement of [Incr]. *)
Definition credit (val : Z) (r : RateCounter.t) : RateCounter.t :=
  {| RateCounter.counter := Counter.Incr (RateCounter.counter r) val;
     RateCounter.partials := RateCounter.partials r;
     RateCounter.resetTime := RateCounter.resetTime r;
     RateCounter.current := RateCounter.current r;
     RateCounter.resetting := RateCounter.resetting r;
     RateCounter.interval := RateCounter.interval r |}.

(** [r.partials[current].Incr(val)], the last statement of [Incr]. *)
Definition bump (val : Z) (r : RateCounter.t) : RateCounter.t :=
  {| RateCounter.counter := RateCounter.counter r;
     RateCounter.partials :=
       alter (fun p => Counter.Incr p val)
         (Z.to_nat (RateCounter.current r)) (RateCounter.partials r);
     RateCounter.resetTime := RateCounter.resetTime r;
     RateCounter.current := RateCounter.current r;
     RateCounter.resetting := RateCounter.resetting r;
     RateCounter.interval := RateCounter.interval r |}.

(** The counter [r] with one more event of delta [v] held by bucket [e]:
    the event is reflected in the total and in that bucket. *)
Definition add_event (e : nat) (v : Z) (r : RateCounter.t) : RateCounter.t :=
  {| RateCounter.counter := Counter.Incr (RateCounter.counter r) v;
     RateCounter.partials :=
       alter (fun p => Counter.Incr p v) e (RateCounter.partials r);
     RateCounter.resetTime := RateCounter.resetTime r;
     RateCounter.current := RateCounter.current r;
     RateCounter.resetting := RateCounter.resetting r;
     RateCounter.interval := RateCounter.interval r |}.

Definition op_time (o : op) : Z :=
  match o with
  | OpIncr _ now => now
  | OpRate now => now
  end.

(** The times [ts] do not decrease, start at [lo] or later and end at [hi]
    or earlier. *)
Fixpoint timed (lo hi : Z) (ts : list Z) : Prop :=
  match ts with
  | [] => True
  | t :: ts' => lo <= t <= hi /\ timed t hi ts'
  end.

(** The value [Rate()] returns at time [now] after the calls [ops]. *)
Definition rate_after (r : RateCounter.t) (ops : list op) (now : Z)
    : result Z :=
  let* r' := run r ops in rate_at r' now.

(** The event recorded in bucket [e], when the last rotation before it was
    at [r0], has aged [a] rotations in [r]. *)
Record aged (e : nat) (r0 p : Z) (r : RateCounter.t) (a : Z) : Prop := {
  aged_range : 0 <= a < Z.of_nat (length (RateCounter.partials r));
  aged_index : Z.of_nat e < Z.of_nat (length (RateCounter.partials r));
  aged_current :
    RateCounter.current r
    = (Z.of_nat e + a) mod Z.of_nat (length (RateCounter.partials r));
  aged_time : a * p <= RateCounter.resetTime r - r0
}.

(** Rotations triggered every 199 ms. *)
Definition slow_rates : list op :=
  [OpRate 199; OpRate 398; OpRate 597; OpRate 796; OpRate 995;
   OpRate 1194; OpRate 1393; OpRate 1592].

Definition after_one_event : RateCounter.t :=
  {| RateCounter.counter := 1;
     RateCounter.partials := 1 :: replicate 9 0;
     RateCounter.resetTime := 0;
     RateCounter.current := 0;
     RateCounter.resetting := false;
     RateCounter.interval := 1000 |}.

(** Window 1000 ms, resolution 10, created at 0 ms, no event yet. *)
Definition fresh_ten : RateCounter.t :=
  {| RateCounter.counter := 0;
     RateCounter.partials := replicate 10 0;
     RateCounter.resetTime := 0;
     RateCounter.current := 0;
     RateCounter.resetting := false;
     RateCounter.interval := 1000 |}.

(** A window of 10000003 ms at the default resolution, one event at
    500000 ms. *)
Definition odd_window : Z := 10000003 * 1000000.

Definition after_event_in_odd_window : RateCounter.t :=
  {| RateCounter.counter := 1;
     RateCounter.partials := 1 :: replicate 19 0;
     RateCounter.resetTime := 0;
     RateCounter.current := 0;
     RateCounter.resetting := false;
     RateCounter.interval := 10000003 |}.

(** ** Concurrent callers of the rotation step

    The admission gate of [updatePartials], for any number of goroutines
    that call [Incr] and [Rate] on one RateCounter.  Every access to
    [resetting] is made with the mutex held, so the steps of different
    goroutines interleave; a state holds the mutex, the flag and the place
    each goroutine has reached. *)

Module Gate.

(** Where a goroutine is in [updatePartials]. *)
Inductive pc : Type :=
| Idle            (* outside the gate: not in a call, or on the path that
                     returns at once because no sub-interval has elapsed *)
| WantLock        (* [timeDiff > partialInterval] held; at the first [r.Lock()] *)
| Locked          (* holds the mutex; at [if !r.resetting] *)
| Free            (* holds the mutex; read [resetting == false];
                     at [r.resetting = true] *)
| Claimed         (* holds the mutex; has set the flag; at [r.Unlock()] *)
| Busy            (* holds the mutex; read [resetting == true];
                     at [r.Unlock()], then [return] *)
| Rotating        (* past the gate: loads [current], runs the loop, stores
                     [current] and [resetTime] *)
| DeferWantLock   (* the deferred function, at [r.Lock()] *)
| DeferLocked     (* the deferred function holds the mutex;
                     at [r.resetting = false] *)
| DeferCleared.   (* the deferred function, at [r.Unlock()] *)

Record state : Type := mkState {
  mutex : option nat;   (* the goroutine that holds [r.Mutex], if any *)
  resetting : bool;     (* [r.resetting] *)
  pcs : list pc
}.

Definition init (n : nat) : state :=
  {| mutex := None; resetting := false; pcs := replicate n Idle |}.

Definition goto (i : nat) (p : pc) (s : state) : state :=
  {| mutex := mutex s; resetting := resetting s; pcs := <[i := p]> (pcs s) |}.

Definition lock (i : nat) (s : state) : state :=
  {| mutex := Some i; resetting := resetting s; pcs := pcs s |}.

Definition unlock (s : state) : state :=
  {| mutex := None; resetting := resetting s; pcs := pcs s |}.

Definition set_resetting (b : bool) (s : state) : state :=
  {| mutex := mutex s; resetting := b; pcs := pcs s |}.

(** One step of goroutine [i]; [None] when it is blocked in [r.Lock()] (or
    is not a goroutine of the state).  [more] tells a goroutine in the loop
    whether the loop goes on. *)
Definition thread_step (i : nat) (more : bool) (s : state) : option state :=
  match pcs s !! i with
  | None => None
  | Some Idle => Some (goto i WantLock s)
  | Some WantLock =>
      match mutex s with
      | None => Some (lock i (goto i Locked s))
      | Some _ => None
      end
  | Some Locked =>
      if resetting s then Some (goto i Busy s) else Some (goto i Free s)
  | Some Free => Some (set_resetting true (goto i Claimed s))
  | Some Claimed => Some (unlock (goto i Rotating s))
  | Some Busy => Some (unlock (goto i Idle s))
  | Some Rotating => Some (if more then s else goto i DeferWantLock s)
  | Some DeferWantLock =>
      match mutex s with
      | None => Some (lock i (goto i DeferLocked s))
      | Some _ => None
      end
  | Some DeferLocked => Some (set_resetting false (goto i DeferCleared s))
  | Some DeferCleared => Some (unlock (goto i Idle s))
  end.

(** The states [n] goroutines can reach. *)
Inductive reachable (n : nat) : state -> Prop :=
| reachable_init : reachable n (init n)
| reachable_step s i more s' :
    reachable n s -> thread_step i more s = Some s' -> reachable n s'.

Fixpoint schedule (steps : list (nat * bool)) (s : state) : option state :=
  match steps with
  | [] => Some s
  | (i, more) :: steps' =>
      match thread_step i more s with
      | Some s' => schedule steps' s'
      | None => None
      end
  end.

(** The goroutine holds the mutex. *)
Definition holding (p : pc) : bool :=
  match p with
  | Locked | Free | Claimed | Busy | DeferLocked | DeferCleared => true
  | _ => false
  end.

(** The goroutine has set the flag and not cleared it yet. *)
Definition owner (p : pc) : bool :=
  match p with
  | Claimed | Rotating | DeferWantLock | DeferLocked => true
  | _ => false
  end.

Record inv (s : state) : Prop := {
  inv_mutex : forall i p, pcs s !! i = Some p -> holding p = true ->
                          mutex s = Some i;
  inv_flag : forall i p, pcs s !! i = Some p -> owner p = true ->
                         resetting s = true;
  inv_free : forall i, pcs s !! i = Some Free -> resetting s = false;
  inv_owner : forall i j p q, pcs s !! i = Some p -> pcs s !! j = Some q ->
                              owner p = true -> owner q = true -> i = j
}.

(** The mutex is held by a goroutine that is between a [Lock] and the
    [Unlock] after it. *)
Definition held (s : state) : Prop :=
  forall h, mutex s = Some h ->
            exists p, pcs s !! h = Some p /\ holding p = true.

(** Goroutine 0 rotates; goroutine 1 holds the mutex and is about to test
    the flag. *)
Definition contended : state :=
  {| mutex := Some 1%nat; resetting := true; pcs := [Rotating; Locked; Idle] |}.

End Gate.
(** ** The clock, the text form, and calls in any order *)

(** [UnixMilli()], for a clock whose [time.Now().UnixNano()] reads [nanos],
    an int64: [/] on int64 truncates toward zero and the conversion to
    uint64 wraps. *)
Definition UnixMilli (nanos : Z) : Z := uint64 (Z.quot nanos 1000000).

Module strconv.
(** [strconv.FormatInt(i, 10)]: the decimal digits of [i], the most
    significant first, after a minus sign when [i] is negative. *)
Definition FormatInt (i : Z) : string :=
  DecimalString.NilZero.string_of_int (Z.to_int i).

(** The integer a decimal numeral stands for. *)
Definition value (s : string) : option Z :=
  match DecimalString.NilZero.int_of_string s with
  | Some d => Some (Z.of_int d)
  | None => None
  end.
End strconv.

Module Stringer.
(** [String()]: the state after the call and the text returned. *)
Definition String (r : RateCounter.t) (now : Z)
    : result (RateCounter.t * string) :=
  let* p := RateCounter.Rate r now in
  Ok (fst p, strconv.FormatInt (snd p)).
End Stringer.

(** A call of [Incr] or [Rate], or of [WithResolution(n)], which the code
    lets a caller make at any time. *)
Inductive call : Type :=
| Call (o : op)
| Reconfigure (n : Z).

Definition exec (r : RateCounter.t) (c : call) : result RateCounter.t :=
  match c with
  | Call o => step r o
  | Reconfigure n => RateCounter.WithResolution r n
  end.

Fixpoint exec_all (r : RateCounter.t) (cs : list call)
    : result RateCounter.t :=
  match cs with
  | [] => Ok r
  | c :: cs' => let* r' := exec r c in exec_all r' cs'
  end.

(** The resolutions whose bucket indices fit the int32 [current]. *)
Definition indexable (c : call) : bool :=
  match c with
  | Call _ => true
  | Reconfigure n => (1 <=? n) && (n <=? 2 ^ 31)
  end.

(** A binary32 that is not below zero: a NaN, or a zero, a finite number or
    an infinity whose sign bit is clear. *)
Definition sign_clear (x : F32.t) : bool :=
  match x with
  | S754_nan => true
  | S754_zero s | S754_infinity s | S754_finite s _ _ => negb s
  end.

(** The bucket at index [i] is one of the [k] that follow [c] round the
    ring of [R] buckets. *)
Definition evicted (R c : Z) (k : nat) (i : nat) : bool :=
  existsb (fun j => (c + Z.of_nat j) mod R =? Z.of_nat i) (seq 1 k).

(** No goroutine is in [updatePartials]. *)
Definition quiescent (s : Gate.state) : bool :=
  forallb (fun p => match p with Gate.Idle => true | _ => false end)
    (Gate.pcs s).

(** A window of less than a millisecond, five events at 0 ms. *)
Definition after_events_in_no_window : RateCounter.t :=
  {| RateCounter.counter := 5;
     RateCounter.partials := 5 :: replicate 19 0;
     RateCounter.resetTime := 0;
     RateCounter.current := 0;
     RateCounter.resetting := false;
     RateCounter.interval := 0 |}.

(** The text is made of decimal digits only. *)
Definition digits_only (s : string) : bool :=
  forallb (fun c => (48 <=? Ascii.nat_of_ascii c)%nat
                    && (Ascii.nat_of_ascii c <=? 57)%nat)
    (list_ascii_of_string s).

(** A bound on the steps a goroutine at [p] still takes to leave
    [updatePartials] once its loop is over. *)
Definition steps_left (p : Gate.pc) : nat :=
  match p with
  | Gate.Idle => 0
  | Gate.DeferCleared => 1
  | Gate.DeferLocked => 2
  | Gate.DeferWantLock => 3
  | Gate.Rotating => 4
  | Gate.Claimed => 5
  | Gate.Free => 6
  | Gate.Busy => 1
  | Gate.Locked => 7
  | Gate.WantLock => 8
  end.

Definition work (s : Gate.state) : nat :=
  sum_list (map steps_left (Gate.pcs s)).

(** ** Calls that overlap *)

(** Goroutines that call [Incr] and [Rate] on one counter, one step for each
    access to what they share: an atomic operation on a field or on a
    bucket, an operation on the mutex, a read or a write of [resetting]
    under the mutex.  What a goroutine computes between two such steps is
    done with the earlier one.  [WithResolution] is not called meanwhile,
    so [len(r.partials)] does not change. *)
Module Overlap.

Inductive kind : Type :=
| DoIncr (val : Z)
| DoRate.

(** Where a goroutine is, with the locals of [updatePartials] it needs
    from there on. *)
Inductive pc : Type :=
| AtCounterIncr      (* [Incr]: at [r.counter.Incr(val)] *)
| AtLoadResetTime    (* at [atomic.LoadUint64(&r.resetTime)] *)
| AtLock (timeDiff partialInterval : F32.t)       (* at the first [r.Lock()] *)
| AtTestFlag (timeDiff partialInterval : F32.t)   (* at [if !r.resetting] *)
| AtSetFlag (timeDiff partialInterval : F32.t)    (* at [r.resetting = true] *)
| AtUnlock (timeDiff partialInterval : F32.t)     (* at the [r.Unlock()] after it *)
| AtSkipUnlock       (* at [r.Unlock()], then [return] *)
| AtLoadCurrent (timeDiff partialInterval : F32.t)
                     (* at [atomic.LoadInt32(&r.current)] *)
| AtValue (timeDiff partialInterval : F32.t) (ii next : Z)
                     (* in the loop, at [r.partials[next].Value()] *)
| AtEvict (timeDiff partialInterval : F32.t) (ii next v : Z)
                     (* at [r.counter.Incr(-1 * v)] *)
| AtReset (timeDiff partialInterval : F32.t) (ii next : Z)
                     (* at [r.partials[next].Reset()] *)
| AtStoreCurrent (current : Z)   (* at [atomic.StoreInt32(&r.current, ...)] *)
| AtStoreResetTime   (* at [atomic.StoreUint64(&r.resetTime, now)] *)
| AtDeferLock        (* the deferred function, at [r.Lock()] *)
| AtDeferClear       (* at [r.resetting = false] *)
| AtDeferUnlock      (* at [r.Unlock()] *)
| AtReturn           (* [updatePartials] has returned: [Incr] is at
                        [atomic.LoadInt32(&r.current)], [Rate] at
                        [r.counter.Value()] *)
| AtBump (current : Z)   (* [Incr]: at [r.partials[current].Incr(val)] *)
| Returned (v : option Z)
| Panicked.

Record goroutine : Type := mkGoroutine {
  does : kind;
  now : Z;       (* what [UnixMilli()] returns to this call *)
  at_ : pc
}.

Record state : Type := mkState {
  shared : RateCounter.t;
  mutex : option nat;
  goroutines : list goroutine
}.

Definition start (k : kind) : pc :=
  match k with
  | DoIncr _ => AtCounterIncr
  | DoRate => AtLoadResetTime
  end.

Definition call (k : kind) (now : Z) : goroutine :=
  {| does := k; now := now; at_ := start k |}.

Definition init (r : RateCounter.t) (gs : list goroutine) : state :=
  {| shared := r; mutex := None; goroutines := gs |}.

Definition with_counter (c : Counter.t) (r : RateCounter.t) : RateCounter.t :=
  {| RateCounter.counter := c;
     RateCounter.partials := RateCounter.partials r;
     RateCounter.resetTime := RateCounter.resetTime r;
     RateCounter.current := RateCounter.current r;
     RateCounter.resetting := RateCounter.resetting r;
     RateCounter.interval := RateCounter.interval r |}.

Definition with_partials (bs : list Counter.t) (r : RateCounter.t)
    : RateCounter.t :=
  {| RateCounter.counter := RateCounter.counter r;
     RateCounter.partials := bs;
     RateCounter.resetTime := RateCounter.resetTime r;
     RateCounter.current := RateCounter.current r;
     RateCounter.resetting := RateCounter.resetting r;
     RateCounter.interval := RateCounter.interval r |}.

Definition with_resetTime (t : Z) (r : RateCounter.t) : RateCounter.t :=
  {| RateCounter.counter := RateCounter.counter r;
     RateCounter.partials := RateCounter.partials r;
     RateCounter.resetTime := t;
     RateCounter.current := RateCounter.current r;
     RateCounter.resetting := RateCounter.resetting r;
     RateCounter.interval := RateCounter.interval r |}.

Definition with_current (c : Z) (r : RateCounter.t) : RateCounter.t :=
  {| RateCounter.counter := RateCounter.counter r;
     RateCounter.partials := RateCounter.partials r;
     RateCounter.resetTime := RateCounter.resetTime r;
     RateCounter.current := c;
     RateCounter.resetting := RateCounter.resetting r;
     RateCounter.interval := RateCounter.interval r |}.

Definition with_resetting (b : bool) (r : RateCounter.t) : RateCounter.t :=
  {| RateCounter.counter := RateCounter.counter r;
     RateCounter.partials := RateCounter.partials r;
     RateCounter.resetTime := RateCounter.resetTime r;
     RateCounter.current := RateCounter.current r;
     RateCounter.resetting := b;
     RateCounter.interval := RateCounter.interval r |}.

(** The head of the loop: [timeDiff > partialInterval && ii < resolution],
    and in the body [timeDiff = timeDiff - partialInterval] and
    [next := (int(current) + 1) % resolution]. *)
Definition loop_head (timeDiff partialInterval : F32.t) (ii current : Z)
    (resolution : Z) : pc :=
  if F32.gtb timeDiff partialInterval && (ii <? resolution) then
    AtValue (F32.sub timeDiff partialInterval) partialInterval ii
      (Z.rem (current + 1) resolution)
  else AtStoreCurrent current.

(** What goroutine [i], a call [does] made at [now] that has got to [at_],
    does next to the shared counter [r] and to the mutex [m], and where it
    goes; [None] when it is blocked in [r.Lock()], has returned or has
    panicked. *)
Definition act (i : nat) (does : kind) (now : Z) (at_ : pc)
    (r : RateCounter.t) (m : option nat)
    : option (RateCounter.t * option nat * pc) :=
  let resolution := Z.of_nat (length (RateCounter.partials r)) in
  match at_ with
  | AtCounterIncr =>
      match does with
      | DoIncr val =>
          Some (with_counter (Counter.Incr (RateCounter.counter r) val) r,
                m, AtLoadResetTime)
      | DoRate => Some (r, m, AtLoadResetTime)
      end
  | AtLoadResetTime =>
      let timeDiff := RateCounter.timeDiff_of now (RateCounter.resetTime r) in
      let partialInterval :=
        RateCounter.partialInterval_of (RateCounter.interval r) resolution in
      if F32.gtb timeDiff partialInterval
      then Some (r, m, AtLock timeDiff partialInterval)
      else Some (r, m, AtReturn)
  | AtLock td pI =>
      match m with
      | None => Some (r, Some i, AtTestFlag td pI)
      | Some _ => None
      end
  | AtTestFlag td pI =>
      if RateCounter.resetting r
      then Some (r, m, AtSkipUnlock)
      else Some (r, m, AtSetFlag td pI)
  | AtSetFlag td pI => Some (with_resetting true r, m, AtUnlock td pI)
  | AtUnlock td pI => Some (r, None, AtLoadCurrent td pI)
  | AtSkipUnlock => Some (r, None, AtReturn)
  | AtLoadCurrent td pI =>
      Some (r, m, loop_head td pI 0 (RateCounter.current r) resolution)
  | AtValue td pI ii next =>
      if (0 <=? next) && (next <? resolution) then
        match RateCounter.partials r !! Z.to_nat next with
        | Some p => Some (r, m, AtEvict td pI ii next (Counter.Value p))
        | None => Some (r, m, Panicked)
        end
      else Some (r, m, Panicked)
  | AtEvict td pI ii next v =>
      Some (with_counter (Counter.Incr (RateCounter.counter r) (-1 * v)) r,
            m, AtReset td pI ii next)
  | AtReset td pI ii next =>
      Some (with_partials (<[Z.to_nat next := 0]> (RateCounter.partials r)) r,
            m, loop_head td pI (ii + 1) (int32 next) resolution)
  | AtStoreCurrent c => Some (with_current c r, m, AtStoreResetTime)
  | AtStoreResetTime => Some (with_resetTime now r, m, AtDeferLock)
  | AtDeferLock =>
      match m with
      | None => Some (r, Some i, AtDeferClear)
      | Some _ => None
      end
  | AtDeferClear => Some (with_resetting false r, m, AtDeferUnlock)
  | AtDeferUnlock => Some (r, None, AtReturn)
  | AtReturn =>
      match does with
      | DoIncr _ => Some (r, m, AtBump (RateCounter.current r))
      | DoRate =>
          Some (r, m, Returned (Some (Counter.Value (RateCounter.counter r))))
      end
  | AtBump c =>
      match does with
      | DoIncr val =>
          if (0 <=? c) && (c <? resolution) then
            match RateCounter.partials r !! Z.to_nat c with
            | Some p =>
                Some (with_partials
                        (<[Z.to_nat c := Counter.Incr p val]>
                           (RateCounter.partials r)) r,
                      m, Returned None)
            | None => Some (r, m, Panicked)
            end
          else Some (r, m, Panicked)
      | DoRate => None
      end
  | Returned _ => None
  | Panicked => None
  end.

(** One step of goroutine [i] of the state. *)
Definition step (i : nat) (s : state) : option state :=
  match goroutines s !! i with
  | None => None
  | Some g =>
      match act i (does g) (now g) (at_ g) (shared s) (mutex s) with
      | None => None
      | Some (r', m', p) =>
          Some {| shared := r'; mutex := m';
                  goroutines :=
                    <[i := {| does := does g; now := now g; at_ := p |}]>
                      (goroutines s) |}
      end
  end.

(** Goroutine [i] run on its own for up to [n] steps. *)
Fixpoint run_alone (n : nat) (i : nat) (s : state) : state :=
  match n with
  | O => s
  | S n' =>
      match step i s with
      | Some s' => run_alone n' i s'
      | None => s
      end
  end.

(** The goroutines stepped in the order [order] gives. *)
Fixpoint schedule (order : list nat) (s : state) : option state :=
  match order with
  | [] => Some s
  | i :: order' =>
      match step i s with
      | Some s' => schedule order' s'
      | None => None
      end
  end.

Inductive reachable (s0 : state) : state -> Prop :=
| reachable_init : reachable s0 s0
| reachable_step s i s' :
    reachable s0 s -> step i s = Some s' -> reachable s0 s'.

(** [n] steps of one call from [at_], on its own. *)
Fixpoint acts (n : nat) (i : nat) (does : kind) (now : Z) (at_ : pc)
    (r : RateCounter.t) (m : option nat) : RateCounter.t * option nat * pc :=
  match n with
  | O => (r, m, at_)
  | S n' =>
      match act i does now at_ r m with
      | Some (r', m', p') => acts n' i does now p' r' m'
      | None => (r, m, at_)
      end
  end.

(** The state in which goroutine [i] is that call, at [at_]. *)
Definition placed (i : nat) (does : kind) (now : Z) (gs : list goroutine)
    (x : RateCounter.t * option nat * pc) : state :=
  {| shared := x.1.1; mutex := x.1.2;
     goroutines := <[i := {| does := does; now := now; at_ := x.2 |}]> gs |}.

(** The indices a goroutine holds are buckets of a ring of [R]. *)
Definition in_ring (R : Z) (p : pc) : bool :=
  match p with
  | AtValue _ _ _ next | AtEvict _ _ _ next _ | AtReset _ _ _ next =>
      (0 <=? next) && (next <? R)
  | AtStoreCurrent c | AtBump c => (0 <=? c) && (c <? R)
  | Panicked => false
  | _ => true
  end.

End Overlap.

(** The default counter with a window of one second, one event at 0 ms. *)
Definition one_event : RateCounter.t :=
  {| RateCounter.counter := 1;
     RateCounter.partials := 1 :: replicate 19 0;
     RateCounter.resetTime := 0;
     RateCounter.current := 0;
     RateCounter.resetting := false;
     RateCounter.interval := 1000 |}.

(** At 5000 ms a [Rate()] and an [Incr(1)] are called at once. *)
Definition racing : Overlap.state :=
  Overlap.init one_event
    [Overlap.call Overlap.DoRate 5000; Overlap.call (Overlap.DoIncr 1) 5000].

(** [Rate()] runs up to the last turn of its loop and has read the bucket
    of the event; [Incr(1)] runs from its first step to its last; [Rate()]
    runs on to its return. *)
Definition incr_inside_last_eviction : list nat :=
  replicate 64 0%nat ++ replicate 7 1%nat ++ replicate 8 0%nat.

Definition lost_update : RateCounter.t :=
  {| RateCounter.counter := 1;
     RateCounter.partials := replicate 20 0;
     RateCounter.resetTime := 5000;
     RateCounter.current := 0;
     RateCounter.resetting := false;
     RateCounter.interval := 1000 |}.

Definition after_race : Overlap.state :=
  {| Overlap.shared := lost_update;
     Overlap.mutex := None;
     Overlap.goroutines :=
       [ {| Overlap.does := Overlap.DoRate; Overlap.now := 5000;
            Overlap.at_ := Overlap.Returned (Some 1) |};
         {| Overlap.does := Overlap.DoIncr 1; Overlap.now := 5000;
            Overlap.at_ := Overlap.Returned None |} ] |}.

(** The two calls one after the other, in either order. *)
Definition after_both : RateCounter.t :=
  {| RateCounter.counter := 1;
     RateCounter.partials := 1 :: replicate 19 0;
     RateCounter.resetTime := 5000;
     RateCounter.current := 0;
     RateCounter.resetting := false;
     RateCounter.interval := 1000 |}.
(** * Proofs *)

(** ** Machine integers *)

Lemma uint32_range z : 0 <= uint32 z < 2 ^ 32.
Proof. unfold uint32. apply Z.mod_pos_bound. lia. Qed.

Lemma uint32_small z : 0 <= z < 2 ^ 32 -> uint32 z = z.
Proof. intros H. unfold uint32. apply Z.mod_small. exact H. Qed.

Lemma uint32_add_l a b : uint32 (uint32 a + b) = uint32 (a + b).
Proof. unfold uint32. apply Zplus_mod_idemp_l. Qed.

Lemma uint32_add_r a b : uint32 (a + uint32 b) = uint32 (a + b).
Proof. unfold uint32. apply Zplus_mod_idemp_r. Qed.

Lemma uint32_sub_l a b : uint32 (uint32 a - b) = uint32 (a - b).
Proof. unfold uint32. apply Zminus_mod_idemp_l. Qed.

Lemma uint32_sub_r a b : uint32 (a - uint32 b) = uint32 (a - b).
Proof. unfold uint32. apply Zminus_mod_idemp_r. Qed.

Lemma uint32_eq_iff a b : uint32 a = uint32 b <-> uint32 (a - b) = 0.
Proof.
  unfold uint32. split; intros H.
  - rewrite Zminus_mod, H, Z.sub_diag. reflexivity.
  - apply Z.mod_divide in H; [|lia]. destruct H as [k Hk].
    replace a with (b + k * 2 ^ 32) by lia. apply Z_mod_plus_full.
Qed.

Lemma int32_small z : - 2 ^ 31 <= z < 2 ^ 31 -> int32 z = z.
Proof. intros H. unfold int32. rewrite Z.mod_small; lia. Qed.

(** ** Sums *)

Lemma sumZ_app l1 l2 : sumZ (l1 ++ l2) = sumZ l1 + sumZ l2.
Proof. unfold sumZ. induction l1 as [|x l1 IH]; simpl; lia. Qed.

Lemma sumZ_perm l1 l2 : Permutation l1 l2 -> sumZ l1 = sumZ l2.
Proof. unfold sumZ. induction 1; simpl; lia. Qed.

Lemma sumZ_replicate n : sumZ (replicate n 0) = 0.
Proof. unfold sumZ. induction n; simpl; lia. Qed.

Lemma sumZ_insert (l : list Z) i old x :
  l !! i = Some old -> sumZ (<[i := x]> l) = sumZ l - old + x.
Proof.
  unfold sumZ. revert i. induction l as [|y l IH]; intros [|i] H; simpl in *;
    try discriminate.
  - injection H as ->. lia.
  - rewrite (IH _ H). lia.
Qed.

Lemma sumZ_nonneg (l : list Z) : Forall (fun p => 0 <= p) l -> 0 <= sumZ l.
Proof. unfold sumZ. induction 1; simpl; lia. Qed.

Lemma sumZ_lookup_le (l : list Z) i p :
  Forall (fun p => 0 <= p) l -> l !! i = Some p -> p <= sumZ l.
Proof.
  unfold sumZ. intros Hl. revert i. induction Hl as [|y l Hy Hl IH];
    intros [|i] H; simpl in *; try discriminate.
  - injection H as ->. pose proof (sumZ_nonneg l Hl). unfold sumZ in *. lia.
  - specialize (IH _ H). lia.
Qed.

(** ** counter.go *)

Lemma Counter_Incr_spec c val : Counter.Incr c val = uint32 (c + val).
Proof. unfold Counter.Incr. apply uint32_add_r. Qed.

Lemma apply_incrs_uint32 ds c :
  uint32 (apply_incrs c ds) = uint32 (c + sumZ ds).
Proof.
  unfold apply_incrs, sumZ. revert c. induction ds as [|d ds IH]; intros c; simpl.
  - f_equal. lia.
  - rewrite IH, Counter_Incr_spec, uint32_add_l. f_equal. lia.
Qed.

Lemma apply_incrs_range ds c :
  0 <= c < 2 ^ 32 -> 0 <= apply_incrs c ds < 2 ^ 32.
Proof.
  unfold apply_incrs. revert c. induction ds as [|d ds IH]; intros c Hc; simpl.
  - exact Hc.
  - apply IH. rewrite Counter_Incr_spec. apply uint32_range.
Qed.

Lemma apply_incrs_fresh ds :
  Counter.Value (apply_incrs Counter.NewCounter ds) = sumZ ds mod 2 ^ 32.
Proof.
  unfold Counter.Value, Counter.NewCounter.
  rewrite <- (uint32_small (apply_incrs 0 ds)).
  - rewrite apply_incrs_uint32. reflexivity.
  - apply apply_incrs_range. lia.
Qed.

(** C5. Starting from a fresh Counter, after [Incr] of each delta of a finite
    sequence, [Value()] is the sum of the deltas modulo 2^32, as the residue
    in [0, 2^32), which fits an int64.  Hence the value does not depend on the
    order of the deltas; a net-negative sum above -2^32 reads back as
    2^32 plus the sum; and once further increments bring the sum back into
    [0, 2^32) the value is the sum itself.  The deltas range over all
    integers, the int64 values among them. *)
Theorem Counter_value_is_sum_mod_2_32 :
  forall ds : list Z,
    let v := Counter.Value (apply_incrs Counter.NewCounter ds) in
    v = sumZ ds mod 2 ^ 32 /\
    0 <= v < 2 ^ 32 /\
    is_int64 v /\
    (forall ds', Permutation ds ds' ->
       Counter.Value (apply_incrs Counter.NewCounter ds') = v) /\
    (- 2 ^ 32 < sumZ ds < 0 -> v = 2 ^ 32 + sumZ ds) /\
    (forall more, 0 <= sumZ ds + sumZ more < 2 ^ 32 ->
       Counter.Value (apply_incrs Counter.NewCounter (ds ++ more))
       = sumZ ds + sumZ more).
Proof.
  intros ds v. subst v. rewrite apply_incrs_fresh.
  assert (Hr : 0 <= sumZ ds mod 2 ^ 32 < 2 ^ 32) by (apply Z.mod_pos_bound; lia).
  repeat split; try (unfold is_int64; lia).
  - intros ds' Hp. rewrite apply_incrs_fresh, (sumZ_perm _ _ Hp). reflexivity.
  - intros Hneg.
    replace (sumZ ds) with ((2 ^ 32 + sumZ ds) + (-1) * 2 ^ 32) at 1 by lia.
    rewrite Z_mod_plus_full. apply Z.mod_small. lia.
  - intros more Hsum. rewrite apply_incrs_fresh, sumZ_app.
    apply Z.mod_small. exact Hsum.
Qed.

(** [TestCounter]: 0, then 1 after [Incr(1)], 10 after [Incr(9)], and 16
    after [Incr(1)], [Incr(2)] and [Incr(3)] in whichever order the three
    goroutines run them. *)
Example TestCounter :
  Counter.Value Counter.NewCounter = 0 /\
  Counter.Value (apply_incrs Counter.NewCounter [1]) = 1 /\
  Counter.Value (apply_incrs Counter.NewCounter [1; 9]) = 10 /\
  forall l, Permutation [1; 2; 3] l ->
    Counter.Value (apply_incrs Counter.NewCounter ([1; 9] ++ l)) = 16.
Proof.
  split; [reflexivity|]. split; [reflexivity|]. split; [reflexivity|].
  intros l Hl. rewrite apply_incrs_fresh, sumZ_app, <- (sumZ_perm _ _ Hl).
  reflexivity.
Qed.

(** ** The rotation loop *)

Lemma bind_Ok {A B} (m : result A) (k : A -> result B) b :
  bind m k = Ok b -> exists a, m = Ok a /\ k a = Ok b.
Proof. destruct m; simpl; intros H; try discriminate. eauto. Qed.

Lemma map_Value (l : list Counter.t) : map Counter.Value l = l.
Proof. induction l as [|p l IH]; simpl; [reflexivity|]. rewrite IH. reflexivity. Qed.

Lemma loop_body_Ok pI res st st' :
  RateCounter.loop_body pI res st = Ok st' ->
  exists next p,
    next = Z.rem (RateCounter.cur st + 1) res /\
    0 <= next < Z.of_nat (length (RateCounter.buckets st)) /\
    RateCounter.buckets st !! Z.to_nat next = Some p /\
    st' = {| RateCounter.ii := RateCounter.ii st + 1;
             RateCounter.timeDiff := F32.sub (RateCounter.timeDiff st) pI;
             RateCounter.cur := int32 next;
             RateCounter.total := uint32 (RateCounter.total st - p);
             RateCounter.buckets := <[Z.to_nat next := 0]> (RateCounter.buckets st) |}.
Proof.
  unfold RateCounter.loop_body. intros H.
  destruct (_ && _) eqn:Hb; [|discriminate].
  destruct (_ !! _) as [p|] eqn:Hp; [|discriminate].
  apply andb_prop in Hb as [H1 H2].
  exists (Z.rem (RateCounter.cur st + 1) res), p.
  split; [reflexivity|]. split; [lia|]. split; [assumption|].
  injection H as <-. rewrite Counter_Incr_spec. unfold Counter.Value, Counter.Reset.
  replace (RateCounter.total st + -1 * p) with (RateCounter.total st - p) by lia.
  reflexivity.
Qed.

Lemma loop_body_drift pI res st st' :
  RateCounter.loop_body pI res st = Ok st' ->
  drift (RateCounter.total st') (RateCounter.buckets st')
  = drift (RateCounter.total st) (RateCounter.buckets st)
  /\ length (RateCounter.buckets st') = length (RateCounter.buckets st)
  /\ 0 <= RateCounter.total st' < 2 ^ 32
  /\ RateCounter.ii st' = RateCounter.ii st + 1.
Proof.
  intros H. apply loop_body_Ok in H as (next & p & _ & _ & Hp & ->). simpl.
  unfold drift. rewrite (sumZ_insert _ _ _ _ Hp), uint32_sub_l, length_insert.
  split; [f_equal; lia|]. split; [reflexivity|]. split; [apply uint32_range|].
  reflexivity.
Qed.

Lemma rotation_loop_drift fuel pI res st st' :
  RateCounter.rotation_loop fuel pI res st = Ok st' ->
  drift (RateCounter.total st') (RateCounter.buckets st')
  = drift (RateCounter.total st) (RateCounter.buckets st)
  /\ length (RateCounter.buckets st') = length (RateCounter.buckets st)
  /\ (0 <= RateCounter.total st < 2 ^ 32 -> 0 <= RateCounter.total st' < 2 ^ 32).
Proof.
  revert st. induction fuel as [|fuel IH]; intros st H; simpl in H; [discriminate|].
  destruct (RateCounter.loop_guard pI res st).
  - apply bind_Ok in H as (st1 & Hb & Hl).
    apply loop_body_drift in Hb as (Hd & Hlen & Hr & _).
    apply IH in Hl as (Hd' & Hlen' & Hr').
    split; [congruence|]. split; [congruence|]. intros _. apply Hr', Hr.
  - injection H as <-. auto.
Qed.

Lemma rotation_steps_le fuel pI res st :
  (rotation_steps fuel pI res st <= Z.to_nat (res - RateCounter.ii st))%nat.
Proof.
  revert st. induction fuel as [|fuel IH]; intros st; simpl; [lia|].
  unfold RateCounter.loop_guard.
  destruct (F32.gtb _ _); simpl; [|lia].
  destruct (Z.ltb_spec (RateCounter.ii st) res); [|lia].
  destruct (RateCounter.loop_body pI res st) as [st'| |] eqn:Hb; try lia.
  apply loop_body_drift in Hb as (_ & _ & _ & Hi).
  specialize (IH st'). rewrite Hi in IH. lia.
Qed.

(** The loop's own counter [ii] counts the executions of the body. *)
Lemma rotation_loop_ii fuel pI res st st' :
  RateCounter.rotation_loop fuel pI res st = Ok st' ->
  RateCounter.ii st'
  = RateCounter.ii st + Z.of_nat (rotation_steps fuel pI res st).
Proof.
  revert st. induction fuel as [|fuel IH]; intros st H; simpl in *;
    [discriminate|].
  destruct (RateCounter.loop_guard pI res st).
  - apply bind_Ok in H as (st1 & Hb & Hl). rewrite Hb.
    rewrite (IH _ Hl).
    apply loop_body_drift in Hb as (_ & _ & _ & Hi). rewrite Hi. lia.
  - injection H as <-. simpl. lia.
Qed.

Lemma loop_body_fuel pI res st : RateCounter.loop_body pI res st <> OutOfFuel.
Proof.
  unfold RateCounter.loop_body. destruct (_ && _); [|discriminate].
  destruct (_ !! _); discriminate.
Qed.

Lemma rotation_loop_fuel fuel pI res st :
  (Z.to_nat (res - RateCounter.ii st) < fuel)%nat ->
  RateCounter.rotation_loop fuel pI res st <> OutOfFuel.
Proof.
  revert st. induction fuel as [|fuel IH]; intros st Hf; simpl; [lia|].
  unfold RateCounter.loop_guard.
  destruct (F32.gtb _ _); simpl; [|discriminate].
  destruct (Z.ltb_spec (RateCounter.ii st) res); [|discriminate].
  destruct (RateCounter.loop_body pI res st) as [st'| |] eqn:Hb; simpl;
    try discriminate.
  - apply loop_body_drift in Hb as (_ & _ & _ & Hi).
    apply IH. rewrite Hi. lia.
  - exfalso. revert Hb. apply loop_body_fuel.
Qed.

Lemma updatePartials_fuel r i val now :
  RateCounter.updatePartials r i val now <> OutOfFuel.
Proof.
  unfold RateCounter.updatePartials.
  destruct (F32.gtb _ _); [|discriminate].
  destruct (negb _); [|discriminate].
  match goal with |- bind ?m _ <> _ => destruct m eqn:Hl end; simpl;
    try discriminate.
  exfalso. revert Hl. apply rotation_loop_fuel. simpl. lia.
Qed.

(** C8. Whatever the elapsed time, the loop of the rotation step enters its
    body at most [resolution] times, and its counter [ii] ends at that number
    of times; run with more fuel than [resolution] the model of the loop
    ends by itself, so [Incr] and [Rate], which give it [resolution + 1],
    always return (a value or a panic). *)
Theorem rotation_loop_bounded_by_resolution :
  forall (pI : F32.t) (resolution : Z) (elapsed : F32.t) (c : Z)
         (tot : Counter.t) (bs : list Counter.t),
    let st0 := {| RateCounter.ii := 0; RateCounter.timeDiff := elapsed;
                  RateCounter.cur := c; RateCounter.total := tot;
                  RateCounter.buckets := bs |} in
    (forall fuel,
       (rotation_steps fuel pI resolution st0 <= Z.to_nat resolution)%nat) /\
    (forall fuel st',
       RateCounter.rotation_loop fuel pI resolution st0 = Ok st' ->
       RateCounter.ii st' = Z.of_nat (rotation_steps fuel pI resolution st0) /\
       0 <= RateCounter.ii st' <= Z.max 0 resolution) /\
    (forall fuel, (Z.to_nat resolution < fuel)%nat ->
       RateCounter.rotation_loop fuel pI resolution st0 <> OutOfFuel) /\
    (forall r val now, RateCounter.Incr r val now <> OutOfFuel) /\
    (forall r now, RateCounter.Rate r now <> OutOfFuel).
Proof.
  intros pI resolution elapsed c tot bs st0.
  assert (Hle : forall fuel,
             (rotation_steps fuel pI resolution st0 <= Z.to_nat resolution)%nat).
  { intros fuel. pose proof (rotation_steps_le fuel pI resolution st0) as H.
    simpl in H. rewrite Z.sub_0_r in H. exact H. }
  split; [exact Hle|split; [|split; [|split]]].
  - intros fuel st' H. apply rotation_loop_ii in H. simpl in H.
    specialize (Hle fuel). split; lia.
  - intros fuel Hf. apply rotation_loop_fuel. simpl. rewrite Z.sub_0_r. exact Hf.
  - intros r val now. unfold RateCounter.Incr.
    match goal with |- bind ?m _ <> _ => destruct m eqn:Hu end; simpl.
    + destruct (_ && _); [|discriminate]. destruct (_ !! _); discriminate.
    + discriminate.
    + exfalso. revert Hu. apply updatePartials_fuel.
  - intros r now. unfold RateCounter.Rate.
    match goal with |- bind ?m _ <> _ => destruct m eqn:Hu end; simpl;
      try discriminate.
    exfalso. revert Hu. apply updatePartials_fuel.
Qed.

(** ** WithResolution *)

Lemma make_Ok n :
  0 <= n -> 4 * n <= RateCounter.maxAlloc ->
  RateCounter.make n = Ok (replicate (Z.to_nat n) 0).
Proof.
  intros H0 Hm. unfold RateCounter.make.
  destruct (Z.ltb_spec n 0) as [|_]; [lia|].
  destruct (Z.ltb_spec RateCounter.maxAlloc (4 * n)) as [|_]; [lia|].
  reflexivity.
Qed.

Lemma make_Panic n :
  n < 0 \/ RateCounter.maxAlloc < 4 * n ->
  RateCounter.make n = Panic "runtime error: makeslice: len out of range".
Proof.
  intros H. unfold RateCounter.make.
  destruct (Z.ltb_spec n 0) as [|H0]; [reflexivity|].
  destruct (Z.ltb_spec RateCounter.maxAlloc (4 * n)) as [|Hm]; [reflexivity|].
  lia.
Qed.

(** C7, as the code has it.  [WithResolution(n)] panics exactly when
    [n < 1] or [n] buckets of four bytes are more than [make] allocates
    (above [maxAlloc], 2^48 bytes where [int] has 64 bits: [n] above 2^46).
    For [n < 1] the panic is the one of [WithResolution] itself, whatever
    the receiver holds: its buckets are never read.  For [n] from 1 to that
    length it returns the counter with a ring of [n] zero buckets and
    [current] 0. *)
Theorem WithResolution_panics_iff_below_one_or_too_long :
  forall (r : RateCounter.t) (n : Z),
    (n < 1 \/ RateCounter.maxAlloc < 4 * n
     <-> exists msg, RateCounter.WithResolution r n = Panic msg) /\
    (n < 1 ->
     RateCounter.WithResolution r n
     = Panic "RateCounter resolution cannot be less than 1" /\
     forall r', RateCounter.WithResolution r' n
                = RateCounter.WithResolution r n) /\
    (1 <= n -> RateCounter.maxAlloc < 4 * n ->
     RateCounter.WithResolution r n
     = Panic "runtime error: makeslice: len out of range") /\
    (1 <= n -> 4 * n <= RateCounter.maxAlloc -> exists r',
       RateCounter.WithResolution r n = Ok r' /\
       RateCounter.partials r' = replicate (Z.to_nat n) 0 /\
       Z.of_nat (length (RateCounter.partials r')) = n /\
       Forall (fun p => Counter.Value p = 0) (RateCounter.partials r') /\
       RateCounter.current r' = 0).
Proof.
  intros r n. unfold RateCounter.WithResolution.
  destruct (Z.ltb_spec n 1) as [Hlt|Hge].
  - split; [split; [eauto | intros _; left; exact Hlt]|].
    split; [intros _; split; reflexivity|]. split; intros; lia.
  - destruct (Z_lt_le_dec RateCounter.maxAlloc (4 * n)) as [Hbig|Hfit].
    + rewrite make_Panic by (right; exact Hbig). cbn [bind].
      split; [split; [eauto | intros _; right; exact Hbig]|].
      split; [lia|]. split; [reflexivity|lia].
    + rewrite make_Ok by lia. cbn [bind].
      split; [split; [lia | intros [msg Hm]; discriminate]|].
      split; [lia|]. split; [lia|]. intros _ _. eexists.
      split; [reflexivity|]. simpl.
      rewrite length_replicate. split; [reflexivity|]. split; [lia|].
      split; [|reflexivity]. apply Forall_replicate. reflexivity.
Qed.

(** C7 as stated fails: [n = 2^62] is an [int] at least 1, and
    [WithResolution(n)] panics in [make]. *)
Lemma WithResolution_panics_above_one :
  1 <= 2 ^ 62 /\ 2 ^ 62 < 2 ^ 63 /\
  RateCounter.WithResolution (RateCounter.NewRateCounter second 0) (2 ^ 62)
  = Panic "runtime error: makeslice: len out of range".
Proof. split; [discriminate|]. split; reflexivity. Qed.

(** ** The rotation step and the operations *)

Lemma updatePartials_Ok r i val now r' :
  RateCounter.updatePartials r i val now = Ok r' ->
  r' = r \/
  exists st,
    RateCounter.rotation_loop (S (length (RateCounter.partials r)))
      (RateCounter.partialInterval_of i (Z.of_nat (length (RateCounter.partials r))))
      (Z.of_nat (length (RateCounter.partials r)))
      {| RateCounter.ii := 0;
         RateCounter.timeDiff := RateCounter.timeDiff_of now (RateCounter.resetTime r);
         RateCounter.cur := RateCounter.current r;
         RateCounter.total := RateCounter.counter r;
         RateCounter.buckets := RateCounter.partials r |} = Ok st /\
    r' = {| RateCounter.counter := RateCounter.total st;
            RateCounter.partials := RateCounter.buckets st;
            RateCounter.resetTime := now;
            RateCounter.current := RateCounter.cur st;
            RateCounter.resetting := false;
            RateCounter.interval := RateCounter.interval r |}.
Proof.
  unfold RateCounter.updatePartials. intros H.
  destruct (F32.gtb _ _); [|left; congruence].
  destruct (negb _); [|left; congruence].
  apply bind_Ok in H as (st & Hl & Hr). right. exists st. split; congruence.
Qed.

Lemma loop_body_words pI res st st' :
  RateCounter.loop_body pI res st = Ok st' ->
  Forall word (RateCounter.buckets st) -> Forall word (RateCounter.buckets st').
Proof.
  intros H Hw. apply loop_body_Ok in H as (next & p & _ & _ & _ & ->). simpl.
  apply Forall_insert; [exact Hw|]. unfold word. lia.
Qed.

Lemma rotation_loop_words fuel pI res st st' :
  RateCounter.rotation_loop fuel pI res st = Ok st' ->
  Forall word (RateCounter.buckets st) -> Forall word (RateCounter.buckets st').
Proof.
  revert st. induction fuel as [|fuel IH]; intros st H Hw; simpl in H; [discriminate|].
  destruct (RateCounter.loop_guard pI res st).
  - apply bind_Ok in H as (st1 & Hb & Hl). eauto using loop_body_words.
  - injection H as <-. exact Hw.
Qed.

(** What a call of the rotation step preserves. *)
Lemma updatePartials_preserves r i val now r' :
  RateCounter.updatePartials r i val now = Ok r' ->
  drift (RateCounter.counter r') (RateCounter.partials r')
  = drift (RateCounter.counter r) (RateCounter.partials r)
  /\ length (RateCounter.partials r') = length (RateCounter.partials r)
  /\ RateCounter.interval r' = RateCounter.interval r
  /\ (word (RateCounter.counter r) -> word (RateCounter.counter r'))
  /\ (Forall word (RateCounter.partials r) -> Forall word (RateCounter.partials r')).
Proof.
  intros H. apply updatePartials_Ok in H as [->|(st & Hl & ->)]; [auto 6|]. simpl.
  pose proof (rotation_loop_words _ _ _ _ _ Hl) as Hw.
  apply rotation_loop_drift in Hl as (Hd & Hlen & Hr). simpl in *. auto 6.
Qed.

Lemma Incr_Ok r val now r' :
  RateCounter.Incr r val now = Ok r' ->
  exists r2 p,
    RateCounter.updatePartials
      {| RateCounter.counter := uint32 (RateCounter.counter r + val);
         RateCounter.partials := RateCounter.partials r;
         RateCounter.resetTime := RateCounter.resetTime r;
         RateCounter.current := RateCounter.current r;
         RateCounter.resetting := RateCounter.resetting r;
         RateCounter.interval := RateCounter.interval r |}
      (RateCounter.interval r) val now = Ok r2 /\
    0 <= RateCounter.current r2 < Z.of_nat (length (RateCounter.partials r2)) /\
    RateCounter.partials r2 !! Z.to_nat (RateCounter.current r2) = Some p /\
    r' = {| RateCounter.counter := RateCounter.counter r2;
            RateCounter.partials :=
              <[Z.to_nat (RateCounter.current r2) := uint32 (p + val)]>
                (RateCounter.partials r2);
            RateCounter.resetTime := RateCounter.resetTime r2;
            RateCounter.current := RateCounter.current r2;
            RateCounter.resetting := RateCounter.resetting r2;
            RateCounter.interval := RateCounter.interval r2 |}.
Proof.
  unfold RateCounter.Incr. rewrite Counter_Incr_spec. simpl. intros H.
  apply bind_Ok in H as (r2 & Hu & H). exists r2.
  destruct (_ && _) eqn:Hb; [|discriminate].
  destruct (_ !! _) as [p|] eqn:Hp; [|discriminate].
  apply andb_prop in Hb as [H1 H2]. exists p.
  split; [exact Hu|]. split; [lia|]. split; [reflexivity|].
  injection H as <-. rewrite Counter_Incr_spec. reflexivity.
Qed.

Lemma Rate_Ok r now r' v :
  RateCounter.Rate r now = Ok (r', v) ->
  RateCounter.updatePartials r (RateCounter.interval r) 0 now = Ok r' /\
  v = Counter.Value (RateCounter.counter r').
Proof.
  unfold RateCounter.Rate. intros H. apply bind_Ok in H as (r2 & Hu & H).
  injection H as <- <-. auto.
Qed.

Lemma Incr_preserves r val now r' :
  RateCounter.Incr r val now = Ok r' ->
  drift (RateCounter.counter r') (RateCounter.partials r')
  = drift (RateCounter.counter r) (RateCounter.partials r)
  /\ length (RateCounter.partials r') = length (RateCounter.partials r)
  /\ RateCounter.interval r' = RateCounter.interval r
  /\ word (RateCounter.counter r')
  /\ (Forall word (RateCounter.partials r) -> Forall word (RateCounter.partials r')).
Proof.
  intros H. apply Incr_Ok in H as (r2 & p & Hu & Hc & Hp & ->).
  apply updatePartials_preserves in Hu as (Hd & Hlen & Hi & Hr & Hw). simpl in *.
  rewrite length_insert.
  split; [|split; [exact Hlen|split; [exact Hi|split]]].
  - unfold drift in *. rewrite (sumZ_insert _ _ _ _ Hp).
    replace (RateCounter.counter r2 - (sumZ (RateCounter.partials r2) - p + uint32 (p + val)))
      with (RateCounter.counter r2 - sumZ (RateCounter.partials r2) + p - uint32 (p + val)) by lia.
    rewrite uint32_sub_r.
    replace (RateCounter.counter r2 - sumZ (RateCounter.partials r2) + p - (p + val))
      with (RateCounter.counter r2 - sumZ (RateCounter.partials r2) - val) by lia.
    rewrite <- uint32_sub_l, Hd, uint32_sub_l.
    replace (uint32 (RateCounter.counter r + val) - sumZ (RateCounter.partials r) - val)
      with (uint32 (RateCounter.counter r + val) - (sumZ (RateCounter.partials r) + val)) by lia.
    rewrite uint32_sub_l. f_equal. lia.
  - apply Hr, uint32_range.
  - intros Hall. apply Forall_insert; [auto|]. apply uint32_range.
Qed.

Lemma Rate_preserves r now r' v :
  RateCounter.Rate r now = Ok (r', v) ->
  drift (RateCounter.counter r') (RateCounter.partials r')
  = drift (RateCounter.counter r) (RateCounter.partials r)
  /\ length (RateCounter.partials r') = length (RateCounter.partials r)
  /\ RateCounter.interval r' = RateCounter.interval r
  /\ (word (RateCounter.counter r) -> word (RateCounter.counter r'))
  /\ (Forall word (RateCounter.partials r) -> Forall word (RateCounter.partials r')).
Proof. intros H. apply Rate_Ok in H as [Hu _]. eauto using updatePartials_preserves. Qed.

Lemma step_Ok r o r' :
  step r o = Ok r' ->
  match o with
  | OpIncr val now => RateCounter.Incr r val now = Ok r'
  | OpRate now => exists v, RateCounter.Rate r now = Ok (r', v)
  end.
Proof.
  destruct o as [val now|now]; simpl; [auto|]. intros H.
  apply bind_Ok in H as ([r2 v] & Hr & H). injection H as <-. eauto.
Qed.

Lemma WithResolution_Ok r n r' :
  RateCounter.WithResolution r n = Ok r' ->
  1 <= n /\
  r' = {| RateCounter.counter := RateCounter.counter r;
          RateCounter.partials := replicate (Z.to_nat n) 0;
          RateCounter.resetTime := RateCounter.resetTime r;
          RateCounter.current := 0;
          RateCounter.resetting := RateCounter.resetting r;
          RateCounter.interval := RateCounter.interval r |}.
Proof.
  unfold RateCounter.WithResolution, RateCounter.make.
  destruct (Z.ltb_spec n 1) as [Hn|Hn]; [discriminate|].
  destruct ((n <? 0) || (RateCounter.maxAlloc <? 4 * n)); [discriminate|].
  intros H. injection H as <-. auto.
Qed.

Lemma rotation_loop_all_zero fuel pI res st st' :
  RateCounter.rotation_loop fuel pI res st = Ok st' ->
  all_zero (RateCounter.total st) (RateCounter.buckets st) ->
  all_zero (RateCounter.total st') (RateCounter.buckets st').
Proof.
  revert st. induction fuel as [|fuel IH]; intros st H Hz; simpl in H; [discriminate|].
  destruct (RateCounter.loop_guard pI res st).
  - apply bind_Ok in H as (st1 & Hb & Hl). apply (IH _ Hl).
    apply loop_body_Ok in Hb as (next & p & _ & _ & Hp & ->). simpl.
    destruct Hz as [Ht Hall].
    assert (p = 0) as ->.
    { rewrite Forall_lookup in Hall. exact (Hall _ _ Hp). }
    split; [rewrite Ht; reflexivity|]. apply Forall_insert; auto.
  - injection H as <-. exact Hz.
Qed.

Lemma configured_all_zero r :
  configured r -> all_zero (RateCounter.counter r) (RateCounter.partials r).
Proof.
  induction 1 as [intrvl now|r n r' _ IH Hw|r now r' v _ IH Hr].
  - split; [reflexivity|]. apply Forall_replicate. reflexivity.
  - apply WithResolution_Ok in Hw as [_ ->]. simpl. destruct IH as [Hc _].
    split; [exact Hc|]. apply Forall_replicate. reflexivity.
  - apply Rate_Ok in Hr as [Hu _].
    apply updatePartials_Ok in Hu as [->|(st & Hl & ->)]; [exact IH|]. simpl.
    exact (rotation_loop_all_zero _ _ _ _ _ Hl IH).
Qed.

Lemma sumZ_all_zero (l : list Z) : Forall (fun p => p = 0) l -> sumZ l = 0.
Proof. unfold sumZ. induction 1 as [|p l -> _ IH]; simpl; lia. Qed.

Lemma configured_sum_inv r : configured r -> sum_inv r.
Proof.
  intros H. apply configured_all_zero in H as [Hc Hall]. split.
  - unfold drift. rewrite Hc, (sumZ_all_zero _ Hall). reflexivity.
  - rewrite Hc. unfold word. lia.
  - eapply Forall_impl; [exact Hall|]. intros p ->. unfold word. lia.
Qed.

Lemma step_sum_inv r o r' : sum_inv r -> step r o = Ok r' -> sum_inv r'.
Proof.
  intros [Hd Hc Hw] H. apply step_Ok in H. destruct o as [val now|now].
  - apply Incr_preserves in H as (Hd' & _ & _ & Hc' & Hw').
    split; [congruence|exact Hc'|auto].
  - destruct H as [v H]. apply Rate_preserves in H as (Hd' & _ & _ & Hc' & Hw').
    split; [congruence|auto|auto].
Qed.

Lemma reachable_sum_inv r : reachable r -> sum_inv r.
Proof.
  induction 1 as [r Hc|r o r' _ IH Hs];
    eauto using configured_sum_inv, step_sum_inv.
Qed.

Lemma reachable_run r ops r' : reachable r -> run r ops = Ok r' -> reachable r'.
Proof.
  revert r. induction ops as [|o ops IH]; intros r Hr H; simpl in H.
  - injection H as <-. exact Hr.
  - apply bind_Ok in H as (r1 & Hs & H). eauto using reachable_step.
Qed.

Lemma sum_inv_mod r :
  sum_inv r -> Counter.Value (RateCounter.counter r) = sum_partials r mod 2 ^ 32.
Proof.
  intros [Hd Hc Hw]. unfold sum_partials, Counter.Value. rewrite map_Value.
  unfold drift in Hd. apply uint32_eq_iff in Hd.
  rewrite (uint32_small _ Hc) in Hd. exact Hd.
Qed.

(** C4, as the code has it.  In a sequential execution from a fresh
    RateCounter, with [WithResolution] called only before the first [Incr],
    after every [Incr] and every [Rate] the value of the total is the sum of
    the values of the buckets modulo 2^32; the two are equal as integers
    whenever that sum is below 2^32. *)
Theorem total_is_sum_of_partials_mod_2_32 :
  forall r : RateCounter.t,
    reachable r ->
    Counter.Value (RateCounter.counter r) = sum_partials r mod 2 ^ 32 /\
    (sum_partials r < 2 ^ 32 ->
     Counter.Value (RateCounter.counter r) = sum_partials r) /\
    (forall o r', step r o = Ok r' ->
       Counter.Value (RateCounter.counter r') = sum_partials r' mod 2 ^ 32).
Proof.
  intros r Hr. pose proof (reachable_sum_inv r Hr) as Hinv.
  split; [exact (sum_inv_mod r Hinv)|]. split.
  - intros Hlt. rewrite (sum_inv_mod r Hinv). apply Z.mod_small.
    split; [|exact Hlt]. unfold sum_partials. rewrite map_Value.
    apply sumZ_nonneg. eapply Forall_impl; [exact (sum_inv_partials r Hinv)|].
    unfold word. intros p Hp. lia.
  - intros o r' Hs. apply sum_inv_mod. exact (step_sum_inv r o r' Hinv Hs).
Qed.

Lemma run_two_decrements :
  run (RateCounter.NewRateCounter second 0) two_decrements
  = Ok after_two_decrements.
Proof. vm_compute. reflexivity. Qed.

Lemma run_two_large_increments :
  run (RateCounter.NewRateCounter second 0) two_large_increments
  = Ok after_two_large_increments.
Proof. vm_compute. reflexivity. Qed.

Lemma reachable_from_new intrvl now ops r :
  run (RateCounter.NewRateCounter intrvl now) ops = Ok r -> reachable r.
Proof. apply reachable_run, reachable_configured, configured_new. Qed.

(** C4 as stated fails: the total is a 32-bit word and the sum of the buckets
    is not.  After [Incr(-1)] at 0 ms and at 60 ms on a fresh counter of
    window 1 s the total reads 4294967294 and the buckets sum to 8589934590;
    after two [Incr(2^31)] the total reads 0 and the buckets sum to 2^32. *)
Lemma total_differs_from_sum_of_partials :
  (reachable after_two_decrements /\
   run (RateCounter.NewRateCounter second 0) two_decrements
   = Ok after_two_decrements /\
   Counter.Value (RateCounter.counter after_two_decrements) = 4294967294 /\
   sum_partials after_two_decrements = 8589934590 /\
   Counter.Value (RateCounter.counter after_two_decrements)
   <> sum_partials after_two_decrements) /\
  (reachable after_two_large_increments /\
   run (RateCounter.NewRateCounter second 0) two_large_increments
   = Ok after_two_large_increments /\
   Counter.Value (RateCounter.counter after_two_large_increments) = 0 /\
   sum_partials after_two_large_increments = 2 ^ 32 /\
   Counter.Value (RateCounter.counter after_two_large_increments)
   <> sum_partials after_two_large_increments).
Proof.
  split.
  - split; [exact (reachable_from_new _ _ _ _ run_two_decrements)|].
    split; [exact run_two_decrements|].
    split; [reflexivity|]. split; [reflexivity|]. discriminate.
  - split; [exact (reachable_from_new _ _ _ _ run_two_large_increments)|].
    split; [exact run_two_large_increments|].
    split; [reflexivity|]. split; [reflexivity|]. discriminate.
Qed.

(** The invariant at the state the two decrements reach. *)
Lemma total_is_sum_of_partials_mod_2_32_witness :
  reachable after_two_decrements /\
  Counter.Value (RateCounter.counter after_two_decrements)
  = sum_partials after_two_decrements mod 2 ^ 32.
Proof.
  split; [exact (reachable_from_new _ _ _ _ run_two_decrements)|].
  exact (proj1 (total_is_sum_of_partials_mod_2_32 after_two_decrements
                  (reachable_from_new _ _ _ _ run_two_decrements))).
Defined.

(** ** Rate within one sub-interval *)



(** ** Translation in time *)

Lemma timeDiff_of_shift d now rt :
  RateCounter.timeDiff_of (now + d) (rt + d) = RateCounter.timeDiff_of now rt.
Proof. unfold RateCounter.timeDiff_of. do 2 f_equal. lia. Qed.

Lemma updatePartials_shift d r i val now :
  RateCounter.updatePartials (shift d r) i val (now + d)
  = rmap (shift d) (RateCounter.updatePartials r i val now).
Proof.
  unfold RateCounter.updatePartials, shift.
  cbn [RateCounter.partials RateCounter.resetTime RateCounter.current
       RateCounter.counter RateCounter.resetting RateCounter.interval].
  rewrite timeDiff_of_shift.
  destruct (F32.gtb _ _); [|reflexivity].
  destruct (negb _); [|reflexivity].
  match goal with
  | |- context [RateCounter.rotation_loop ?f ?p ?n ?st] =>
      destruct (RateCounter.rotation_loop f p n st)
  end; reflexivity.
Qed.

Lemma Incr_shift d r val now :
  RateCounter.Incr (shift d r) val (now + d)
  = rmap (shift d) (RateCounter.Incr r val now).
Proof.
  unfold RateCounter.Incr. simpl.
  pose proof (updatePartials_shift d
    {| RateCounter.counter := Counter.Incr (RateCounter.counter r) val;
       RateCounter.partials := RateCounter.partials r;
       RateCounter.resetTime := RateCounter.resetTime r;
       RateCounter.current := RateCounter.current r;
       RateCounter.resetting := RateCounter.resetting r;
       RateCounter.interval := RateCounter.interval r |}
    (RateCounter.interval r) val now) as H.
  unfold shift at 1 in H. simpl in H. rewrite H.
  destruct (RateCounter.updatePartials _ _ _ now) as [r2| |]; simpl;
    try reflexivity.
  destruct (_ && _); [|reflexivity]. destruct (_ !! _); reflexivity.
Qed.

Lemma Rate_shift d r now :
  RateCounter.Rate (shift d r) (now + d)
  = rmap (fun p => (shift d (fst p), snd p)) (RateCounter.Rate r now).
Proof.
  unfold RateCounter.Rate. simpl. rewrite updatePartials_shift.
  destruct (RateCounter.updatePartials _ _ _ now); reflexivity.
Qed.

Lemma step_shift d r o :
  step (shift d r) (shift_op d o) = rmap (shift d) (step r o).
Proof.
  destruct o as [val now|now]; simpl; [apply Incr_shift|].
  rewrite Rate_shift. destruct (RateCounter.Rate r now) as [[r' v]| |];
    reflexivity.
Qed.

Lemma run_shift d ops r :
  run (shift d r) (map (shift_op d) ops) = rmap (shift d) (run r ops).
Proof.
  revert r. induction ops as [|o ops IH]; intros r; simpl; [reflexivity|].
  rewrite step_shift. destruct (step r o) as [r'| |]; simpl; [apply IH| |];
    reflexivity.
Qed.

Lemma rate_at_shift d r now :
  rate_at (shift d r) (now + d) = rate_at r now.
Proof.
  unfold rate_at. rewrite Rate_shift.
  destruct (RateCounter.Rate r now) as [[r' v]| |]; reflexivity.
Qed.

Lemma scenario_counter_at_0 : scenario_counter 0 = Ok after_scenario.
Proof. vm_compute. reflexivity. Qed.

Lemma scenario_counter_shift t0 :
  scenario_counter t0 = Ok (shift t0 after_scenario).
Proof.
  pose proof scenario_counter_at_0 as H0. unfold scenario_counter in *.
  change (RateCounter.WithResolution (RateCounter.NewRateCounter second t0) 10)
    with (rmap (shift t0)
            (RateCounter.WithResolution (RateCounter.NewRateCounter second 0) 10)).
  destruct (RateCounter.WithResolution _ 10) as [r| |]; try discriminate.
  change (run (shift t0 r) [OpIncr 1 (t0 + 0); OpIncr 1 (t0 + 500)]
          = Ok (shift t0 after_scenario)).
  replace [OpIncr 1 (t0 + 0); OpIncr 1 (t0 + 500)]
    with (map (shift_op t0) [OpIncr 1 0; OpIncr 1 500])
    by (simpl; rewrite (Z.add_comm 0 t0), (Z.add_comm 500 t0); reflexivity).
  rewrite run_shift.
  change (run r [OpIncr 1 (0 + 0); OpIncr 1 (0 + 500)] = Ok after_scenario) in H0.
  change (0 + 0) with 0 in H0. change (0 + 500) with 500 in H0.
  rewrite H0. reflexivity.
Qed.

(** C2. Window 1000 ms, resolution 10, the clock starting at any [t0]:
    after [Incr(1)] at [t0] and [Incr(1)] at [t0 + 500], [Rate()] at
    [t0 + 600] returns 2 and changes nothing, and [Rate()] at [t0 + 1600]
    then returns 0 (also when the call at [t0 + 600] is left out). *)
Theorem scenario_rates :
  forall t0 : Z,
    exists r : RateCounter.t,
      scenario_counter t0 = Ok r /\
      RateCounter.Rate r (t0 + 600) = Ok (r, 2) /\
      rate_at r (t0 + 1600) = Ok 0.
Proof.
  intros t0. exists (shift t0 after_scenario).
  split; [apply scenario_counter_shift|]. split.
  - replace (t0 + 600) with (600 + t0) by lia. rewrite Rate_shift. reflexivity.
  - replace (t0 + 1600) with (1600 + t0) by lia. rewrite rate_at_shift.
    reflexivity.
Qed.

(** ** WithResolution after increments *)

Lemma rotation_loop_floor fuel pI res st st' t0 :
  RateCounter.rotation_loop fuel pI res st = Ok st' ->
  0 <= t0 -> RateCounter.total st < 2 ^ 32 ->
  floor_inv t0 (RateCounter.total st) (RateCounter.buckets st) ->
  floor_inv t0 (RateCounter.total st') (RateCounter.buckets st') /\
  RateCounter.total st' <= RateCounter.total st.
Proof.
  revert st. induction fuel as [|fuel IH]; intros st H Ht0 Hlt Hf; simpl in H;
    [discriminate|].
  destruct (RateCounter.loop_guard pI res st).
  - apply bind_Ok in H as (st1 & Hb & Hl).
    apply loop_body_Ok in Hb as (next & p & _ & _ & Hp & ->).
    destruct Hf as [Hall Htot].
    assert (Hp0 : 0 <= p) by (rewrite Forall_lookup in Hall; exact (Hall _ _ Hp)).
    pose proof (sumZ_lookup_le _ _ _ Hall Hp) as Hple.
    assert (Hu : uint32 (RateCounter.total st - p) = RateCounter.total st - p)
      by (apply uint32_small; lia).
    apply IH in Hl; simpl; rewrite ?Hu; try lia.
    + simpl in Hl. rewrite Hu in Hl. split; [tauto|lia].
    + split; [apply Forall_insert; [exact Hall|lia]|].
      rewrite (sumZ_insert _ _ _ _ Hp). lia.
  - injection H as <-. split; [exact Hf|lia].
Qed.

Lemma updatePartials_floor r i val now r' t0 :
  RateCounter.updatePartials r i val now = Ok r' ->
  0 <= t0 -> RateCounter.counter r < 2 ^ 32 ->
  floor_inv t0 (RateCounter.counter r) (RateCounter.partials r) ->
  floor_inv t0 (RateCounter.counter r') (RateCounter.partials r') /\
  RateCounter.counter r' <= RateCounter.counter r.
Proof.
  intros H Ht0 Hlt Hf. apply updatePartials_Ok in H as [->|(st & Hl & ->)].
  - split; [exact Hf|lia].
  - simpl. exact (rotation_loop_floor _ _ _ _ _ _ Hl Ht0 Hlt Hf).
Qed.

Lemma step_floor r o r' t0 :
  step r o = Ok r' ->
  0 <= t0 -> 0 <= delta o -> RateCounter.counter r + delta o < 2 ^ 32 ->
  floor_inv t0 (RateCounter.counter r) (RateCounter.partials r) ->
  floor_inv t0 (RateCounter.counter r') (RateCounter.partials r') /\
  RateCounter.counter r' <= RateCounter.counter r + delta o.
Proof.
  intros H Ht0 Hd Hlt Hf. apply step_Ok in H. destruct o as [val now|now];
    simpl in Hd, Hlt.
  - apply Incr_Ok in H as (r2 & p & Hu & Hc & Hp & ->).
    destruct Hf as [Hall Htot].
    assert (Hs : 0 <= sumZ (RateCounter.partials r)) by (apply sumZ_nonneg, Hall).
    assert (Hv : uint32 (RateCounter.counter r + val) = RateCounter.counter r + val)
      by (apply uint32_small; lia).
    rewrite Hv in Hu.
    apply (updatePartials_floor _ _ _ _ _ (t0 + val)) in Hu; simpl; try lia.
    + destruct Hu as [[Hall2 Htot2] Hle]. simpl in Hle.
      assert (Hp0 : 0 <= p) by (rewrite Forall_lookup in Hall2; exact (Hall2 _ _ Hp)).
      pose proof (sumZ_lookup_le _ _ _ Hall2 Hp) as Hple.
      assert (Hs2 : 0 <= sumZ (RateCounter.partials r2)) by (apply sumZ_nonneg, Hall2).
      assert (Hpv : uint32 (p + val) = p + val) by (apply uint32_small; lia).
      simpl. rewrite Hpv. split; [|lia].
      split; [apply Forall_insert; [exact Hall2|lia]|].
      rewrite (sumZ_insert _ _ _ _ Hp). lia.
    + split; [exact Hall|lia].
  - destruct H as [v H]. apply Rate_Ok in H as [Hu _].
    apply (updatePartials_floor _ _ _ _ _ t0) in Hu; try lia; [|exact Hf].
    simpl. split; [tauto|lia].
Qed.

Lemma run_floor ops r r' t0 :
  run r ops = Ok r' ->
  0 <= t0 -> Forall (fun o => 0 <= delta o) ops ->
  RateCounter.counter r + deltas ops < 2 ^ 32 ->
  floor_inv t0 (RateCounter.counter r) (RateCounter.partials r) ->
  floor_inv t0 (RateCounter.counter r') (RateCounter.partials r').
Proof.
  revert r. induction ops as [|o ops IH]; intros r H Ht0 Hd Hlt Hf; simpl in H.
  - injection H as <-. exact Hf.
  - apply bind_Ok in H as (r1 & Hs & H).
    apply Forall_cons in Hd as [Hd0 Hd].
    unfold deltas in Hlt. simpl in Hlt. fold (deltas ops) in Hlt.
    assert (Hds : 0 <= deltas ops).
    { unfold deltas. apply sumZ_nonneg. apply Forall_map. exact Hd. }
    apply (step_floor _ _ _ t0) in Hs as [Hf1 Hle]; try lia; [|exact Hf].
    apply (IH r1); auto. lia.
Qed.

Lemma deltas_of_Rates nows : deltas (map OpRate nows) = 0.
Proof.
  unfold deltas. induction nows as [|a l IH]; [reflexivity|].
  cbn [map delta sumZ foldr]. unfold sumZ in IH. rewrite IH. reflexivity.
Qed.

Lemma step_word r o r' :
  step r o = Ok r' -> word (RateCounter.counter r) ->
  word (RateCounter.counter r').
Proof.
  destruct o as [v now|now]; cbn [step]; intros H Hw.
  - exact (proj1 (proj2 (proj2 (proj2 (Incr_preserves _ _ _ _ H))))).
  - apply bind_Ok in H as ([r1 x] & Hr & Hk). cbn [fst] in Hk.
    injection Hk as <-.
    exact (proj1 (proj2 (proj2 (proj2 (Rate_preserves _ _ _ _ Hr)))) Hw).
Qed.

Lemma run_counts_up ops : forall r r' t0,
  run r ops = Ok r' -> counts_up r ops = true -> 0 <= t0 ->
  word (RateCounter.counter r) ->
  floor_inv t0 (RateCounter.counter r) (RateCounter.partials r) ->
  floor_inv t0 (RateCounter.counter r') (RateCounter.partials r') /\
  word (RateCounter.counter r') /\
  RateCounter.counter r' <= RateCounter.counter r + deltas ops.
Proof.
  induction ops as [|o ops IH]; intros r r' t0 H Hup Ht0 Hw Hf;
    cbn [run counts_up] in H, Hup.
  - injection H as <-. split; [exact Hf|]. split; [exact Hw|].
    unfold deltas. simpl. lia.
  - apply bind_Ok in H as (r1 & Hs & H). rewrite Hs in Hup.
    apply andb_prop in Hup as [Hup Hup1]. apply andb_prop in Hup as [Hd Hlt].
    apply Z.leb_le in Hd. apply Z.ltb_lt in Hlt. unfold Counter.Value in Hlt.
    destruct (step_floor _ _ _ t0 Hs Ht0 Hd Hlt Hf) as [Hf1 Hle].
    destruct (IH r1 r' t0 H Hup1 Ht0 (step_word _ _ _ Hs Hw) Hf1)
      as (Hf' & Hw' & Hle').
    split; [exact Hf'|]. split; [exact Hw'|].
    unfold deltas in *. cbn [map sumZ foldr]. unfold sumZ in *. lia.
Qed.

Lemma counts_up_Rates nows : forall r,
  word (RateCounter.counter r) -> counts_up r (map OpRate nows) = true.
Proof.
  induction nows as [|a l IH]; intros r Hw; [reflexivity|].
  cbn [map counts_up delta]. unfold Counter.Value.
  destruct (Z.ltb_spec (RateCounter.counter r + 0) (2 ^ 32)) as [_|];
    [|destruct Hw; lia].
  cbn [Z.leb andb].
  destruct (step r (OpRate a)) as [r1| |] eqn:Hs; try reflexivity.
  exact (IH r1 (step_word _ _ _ Hs Hw)).
Qed.

(** C10, as the code has it.  [WithResolution] changes the bucket ring and
    the current index and nothing else.  The new buckets sum to 0, so a
    non-zero total no longer equals their sum.  From then on, as long as
    the deltas of the calls that follow are non-negative and no [Incr]
    carries the total to 2^32, every [Rate()], at any clock reading,
    returns the total held at the reconfiguration plus what the buckets
    hold, hence at least that total; and when only [Rate()] is called, any
    number of times at any clock readings, it returns that total itself. *)
Theorem WithResolution_keeps_total_as_floor :
  forall (r : RateCounter.t) (n : Z) (r' : RateCounter.t),
    RateCounter.WithResolution r n = Ok r' ->
    (RateCounter.counter r' = RateCounter.counter r /\
     RateCounter.resetTime r' = RateCounter.resetTime r /\
     RateCounter.interval r' = RateCounter.interval r /\
     RateCounter.resetting r' = RateCounter.resetting r) /\
    (sum_partials r' = 0 /\
     (Counter.Value (RateCounter.counter r) <> 0 ->
      Counter.Value (RateCounter.counter r') <> sum_partials r')) /\
    (forall (ops : list op) (r'' : RateCounter.t) (now : Z) (r3 : RateCounter.t)
            (v : Z),
       word (RateCounter.counter r) ->
       counts_up r' ops = true ->
       run r' ops = Ok r'' ->
       RateCounter.Rate r'' now = Ok (r3, v) ->
       v = Counter.Value (RateCounter.counter r) + sum_partials r3 /\
       Counter.Value (RateCounter.counter r) <= v) /\
    (forall (nows : list Z) (r'' : RateCounter.t) (now : Z) (r3 : RateCounter.t)
            (v : Z),
       word (RateCounter.counter r) ->
       run r' (map OpRate nows) = Ok r'' ->
       RateCounter.Rate r'' now = Ok (r3, v) ->
       v = Counter.Value (RateCounter.counter r) /\ sum_partials r3 = 0).
Proof.
  intros r n r' Hw. apply WithResolution_Ok in Hw as [Hn ->].
  set (r0 := {| RateCounter.counter := RateCounter.counter r;
                RateCounter.partials := replicate (Z.to_nat n) 0;
                RateCounter.resetTime := RateCounter.resetTime r;
                RateCounter.current := 0;
                RateCounter.resetting := RateCounter.resetting r;
                RateCounter.interval := RateCounter.interval r |}).
  assert (Hf0 : word (RateCounter.counter r) ->
                floor_inv (RateCounter.counter r) (RateCounter.counter r0)
                  (RateCounter.partials r0)).
  { intros _. split; [apply Forall_replicate; lia|].
    cbn [r0 RateCounter.counter RateCounter.partials].
    rewrite sumZ_replicate. lia. }
  assert (Hmain : forall ops r'' now r3 v,
            word (RateCounter.counter r) -> counts_up r0 ops = true ->
            run r0 ops = Ok r'' -> RateCounter.Rate r'' now = Ok (r3, v) ->
            v = RateCounter.counter r + sumZ (RateCounter.partials r3) /\
            0 <= sumZ (RateCounter.partials r3) /\
            v <= RateCounter.counter r + deltas ops).
  { intros ops r'' now r3 v Hc Hup Hrun Hrate.
    destruct (run_counts_up ops r0 r'' (RateCounter.counter r) Hrun Hup
                (proj1 Hc) Hc (Hf0 Hc)) as (Hf & Hw'' & Hle).
    apply Rate_Ok in Hrate as [Hu ->].
    destruct (updatePartials_floor _ _ _ _ _ (RateCounter.counter r) Hu
                (proj1 Hc) (proj2 Hw'') Hf) as [[Hall Htot] Hle3].
    unfold Counter.Value. split; [exact Htot|].
    split; [exact (sumZ_nonneg _ Hall)|].
    cbn [r0 RateCounter.counter] in Hle. lia. }
  split; [cbn; auto|]. split; [|split].
  - unfold sum_partials. cbn [r0 RateCounter.partials RateCounter.counter].
    rewrite map_Value, sumZ_replicate.
    split; [reflexivity|]. unfold Counter.Value. auto.
  - intros ops r'' now r3 v Hc Hup Hrun Hrate.
    destruct (Hmain ops r'' now r3 v Hc Hup Hrun Hrate) as (Hv & H0 & _).
    unfold sum_partials, Counter.Value. rewrite map_Value. lia.
  - intros nows r'' now r3 v Hc Hrun Hrate.
    destruct (Hmain (map OpRate nows) r'' now r3 v Hc
                (counts_up_Rates nows r0 Hc) Hrun Hrate) as (Hv & H0 & Hle).
    rewrite deltas_of_Rates in Hle.
    unfold sum_partials, Counter.Value. rewrite map_Value. lia.
Qed.

Lemma run_three_events :
  run (RateCounter.NewRateCounter second 0)
    [OpIncr 1 0; OpIncr 1 0; OpIncr 1 0] = Ok after_three_events.
Proof. vm_compute. reflexivity. Qed.

(** C10 as stated fails: after three events and a late
    [WithResolution(10)], an [Incr(-1)] brings [Rate()] to 2, below the
    total of 3 held at the reconfiguration, and an [Incr(2^32 - 3)] wraps
    the total and brings [Rate()] to 0. *)
Lemma Rate_below_total_of_reconfiguration :
  run (RateCounter.NewRateCounter second 0)
    [OpIncr 1 0; OpIncr 1 0; OpIncr 1 0] = Ok after_three_events /\
  RateCounter.WithResolution after_three_events 10 = Ok late_resolution /\
  Counter.Value (RateCounter.counter after_three_events) = 3 /\
  (let* r := run late_resolution [OpIncr (-1) 0] in rate_at r 0) = Ok 2 /\
  (let* r := run late_resolution [OpIncr (2 ^ 32 - 3) 0] in rate_at r 0)
  = Ok 0.
Proof.
  split; [exact run_three_events|]. split; [reflexivity|].
  split; [reflexivity|]. split; vm_compute; reflexivity.
Qed.

Lemma WithResolution_keeps_total_as_floor_witness :
  RateCounter.WithResolution after_three_events 10 = Ok late_resolution /\
  RateCounter.counter late_resolution = RateCounter.counter after_three_events /\
  rate_at late_resolution 5000 = Ok 3 /\
  Counter.Value (RateCounter.counter after_three_events) <= 3.
Proof.
  assert (Hw : RateCounter.WithResolution after_three_events 10
               = Ok late_resolution) by reflexivity.
  destruct (WithResolution_keeps_total_as_floor _ _ _ Hw)
    as ((Hc & _) & _ & Hfloor & _).
  split; [exact Hw|]. split; [exact Hc|]. split; [reflexivity|].
  assert (Hr : RateCounter.Rate late_resolution 5000
               = Ok ({| RateCounter.counter := 3;
                        RateCounter.partials := replicate 10 0;
                        RateCounter.resetTime := 5000;
                        RateCounter.current := 0;
                        RateCounter.resetting := false;
                        RateCounter.interval := 1000 |}, 3))
    by (vm_compute; reflexivity).
  refine (proj2 (Hfloor [] late_resolution 5000 _ 3 _ eq_refl eq_refl Hr)).
  split; [discriminate|reflexivity].
Defined.

(** ** binary32 arithmetic on integers *)

Lemma iter_pos_nat {A} (f : A -> A) p x :
  SpecFloat.iter_pos f p x = Nat.iter (Pos.to_nat p) f x.
Proof.
  revert x. induction p as [p IH|p IH|]; intros x; cbn [SpecFloat.iter_pos].
  - rewrite !IH, Pos2Nat.inj_xI, Nat.iter_succ_r.
    replace (2 * Pos.to_nat p)%nat with (Pos.to_nat p + Pos.to_nat p)%nat by lia.
    rewrite Nat.iter_add. reflexivity.
  - rewrite !IH, Pos2Nat.inj_xO.
    replace (2 * Pos.to_nat p)%nat with (Pos.to_nat p + Pos.to_nat p)%nat by lia.
    rewrite Nat.iter_add. reflexivity.
  - reflexivity.
Qed.

Lemma Pos_iter_xO_shl m k : Pos.iter xO m k = shl m (Pos.to_nat k).
Proof. unfold shl. apply Pos2Nat.inj_iter. Qed.

Lemma shl_add m a b : shl (shl m a) b = shl m (a + b).
Proof. unfold shl. rewrite Nat.add_comm, Nat.iter_add. reflexivity. Qed.

Lemma Zpos_shl m n : Zpos (shl m n) = Zpos m * 2 ^ Z.of_nat n.
Proof.
  unfold shl. induction n as [|n IH].
  - simpl. lia.
  - rewrite Nat.iter_succ, Pos2Z.inj_xO, IH, Nat2Z.inj_succ, Z.pow_succ_r; lia.
Qed.

Lemma digits_bounds m : 2 ^ (digits m - 1) <= Zpos m < 2 ^ digits m.
Proof.
  unfold digits. induction m as [m IH|m IH|]; simpl digits2_pos.
  - rewrite Pos2Z.inj_succ.
    replace (Z.succ (Zpos (digits2_pos m)) - 1) with (Z.succ (Zpos (digits2_pos m) - 1)) by lia.
    rewrite !Z.pow_succ_r by lia. lia.
  - rewrite Pos2Z.inj_succ.
    replace (Z.succ (Zpos (digits2_pos m)) - 1) with (Z.succ (Zpos (digits2_pos m) - 1)) by lia.
    rewrite !Z.pow_succ_r by lia. lia.
  - simpl. lia.
Qed.

Lemma digits_pos m : 1 <= digits m.
Proof. unfold digits. lia. Qed.

Lemma digits_unique m d : 2 ^ (d - 1) <= Zpos m < 2 ^ d -> digits m = d.
Proof.
  intros [Hlo Hhi]. pose proof (digits_bounds m) as [Hlo' Hhi'].
  pose proof (digits_pos m).
  assert (0 < d).
  { destruct d as [|d|d]; [change (2 ^ 0) with 1 in Hhi; lia | lia |].
    rewrite Z.pow_neg_r in Hhi; lia. }
  destruct (Z.lt_trichotomy (digits m) d) as [Hc|[Hc|Hc]]; [|exact Hc|]; exfalso.
  - assert (2 ^ digits m <= 2 ^ (d - 1)) by (apply Z.pow_le_mono_r; lia). lia.
  - assert (2 ^ d <= 2 ^ (digits m - 1)) by (apply Z.pow_le_mono_r; lia). lia.
Qed.

Lemma digits_shl m n : digits (shl m n) = digits m + Z.of_nat n.
Proof.
  apply digits_unique. rewrite Zpos_shl.
  pose proof (digits_bounds m) as [Hlo Hhi]. pose proof (digits_pos m).
  replace (digits m + Z.of_nat n - 1) with ((digits m - 1) + Z.of_nat n) by lia.
  rewrite !Z.pow_add_r by lia.
  assert (0 < 2 ^ Z.of_nat n) by (apply Z.pow_pos_nonneg; lia). nia.
Qed.

Lemma shr_nat mrs e n :
  0 <= n -> shr mrs e n = (Nat.iter (Z.to_nat n) shr_1 mrs, e + n).
Proof.
  intros Hn. destruct n as [|p|p]; simpl; [f_equal; lia| |lia].
  rewrite iter_pos_nat. reflexivity.
Qed.

Lemma shr_1_exact m : shr_1 (exact_record (xO m)) = exact_record m.
Proof. reflexivity. Qed.

Lemma iter_shr_1_exact m n :
  Nat.iter n shr_1 (exact_record (shl m n)) = exact_record m.
Proof.
  induction n as [|n IH]; [reflexivity|].
  rewrite Nat.iter_succ_r. unfold shl. rewrite Nat.iter_succ.
  rewrite shr_1_exact. exact IH.
Qed.

Lemma fexp32 e : fexp F32.prec F32.emax e = Z.max (e - 24) (-149).
Proof. reflexivity. Qed.

Lemma shl_align_spec mx ex ex' :
  shl_align mx ex ex' =
  if ex' <? ex then (shl mx (Z.to_nat (ex - ex')), ex') else (mx, ex).
Proof.
  unfold shl_align. destruct (Z.ltb_spec ex' ex) as [H|H].
  - destruct (ex' - ex) as [|p|p] eqn:Hd; try lia.
    rewrite Pos_iter_xO_shl. do 2 f_equal. lia.
  - destruct (ex' - ex) as [|p|p] eqn:Hd; try lia; reflexivity.
Qed.

(** The first alignment in closed form. *)
Lemma round_first_spec mx ex :
  let t := fexp F32.prec F32.emax (digits mx + ex) in
  round_first mx ex =
  if t <? ex then (exact_record (shl mx (Z.to_nat (ex - t))), t)
  else (Nat.iter (Z.to_nat (t - ex)) shr_1 (exact_record mx), t).
Proof.
  intros t. unfold round_first. fold t. rewrite shl_align_spec.
  destruct (Z.ltb_spec t ex) as [H|H].
  - unfold shr_fexp. change (Zdigits2 (Zpos ?m)) with (digits m).
    rewrite digits_shl.
    assert (Ht : fexp F32.prec F32.emax (digits mx + Z.of_nat (Z.to_nat (ex - t)) + t) = t).
    { rewrite Z2Nat.id by lia. replace (digits mx + (ex - t) + t) with (digits mx + ex) by lia.
      reflexivity. }
    rewrite Ht, Z.sub_diag. reflexivity.
  - unfold shr_fexp. change (Zdigits2 (Zpos ?m)) with (digits m). fold t.
    rewrite shr_nat by lia. simpl shr_record_of_loc. f_equal. lia.
Qed.

Lemma binary_round_split sx mx ex :
  binary_round F32.prec F32.emax sx mx ex = round_rest sx (round_first mx ex).
Proof.
  unfold binary_round, round_first, round_rest, binary_round_aux.
  change (Zpos (digits2_pos mx)) with (digits mx).
  destruct (shl_align _ _ _) as [mz ez].
  destruct (shr_fexp _ _ _ _ _) as [mrs' e']. reflexivity.
Qed.

(** Rounding depends on the value only. *)
Lemma round_first_scale z k e :
  round_first (shl z k) (e - Z.of_nat k) = round_first z e.
Proof.
  rewrite !round_first_spec. cbv zeta. rewrite digits_shl.
  replace (digits z + Z.of_nat k + (e - Z.of_nat k)) with (digits z + e) by lia.
  set (t := fexp F32.prec F32.emax (digits z + e)).
  destruct (Z.ltb_spec t (e - Z.of_nat k)) as [H1|H1].
  - destruct (Z.ltb_spec t e) as [H2|H2]; [|lia].
    rewrite shl_add. do 3 f_equal. lia.
  - destruct (Z.ltb_spec t e) as [H2|H2].
    + f_equal.
      replace (shl z k)
        with (shl (shl z (Z.to_nat (e - t))) (Z.to_nat (t - (e - Z.of_nat k)))).
      * apply iter_shr_1_exact.
      * rewrite shl_add. f_equal. lia.
    + f_equal.
      replace (Z.to_nat (t - (e - Z.of_nat k))) with (Z.to_nat (t - e) + k)%nat by lia.
      rewrite Nat.iter_add, iter_shr_1_exact. reflexivity.
Qed.

Lemma binary_round_scale sx z k e :
  binary_round F32.prec F32.emax sx (shl z k) (e - Z.of_nat k)
  = binary_round F32.prec F32.emax sx z e.
Proof. rewrite !binary_round_split, round_first_scale. reflexivity. Qed.

Lemma round_rest_exact sx m t :
  digits m = 24 -> -149 <= t <= 104 ->
  round_rest sx (exact_record m, t) = S754_finite sx m t.
Proof.
  intros Hd Ht. unfold round_rest, exact_record. cbn [shr_m loc_of_shr_record shr_r shr_s round_nearest_even].
  unfold shr_fexp. change (Zdigits2 (Zpos m)) with (digits m). rewrite Hd, fexp32.
  replace (Z.max (24 + t - 24) (-149) - t) with 0 by lia.
  cbn [shr shr_record_of_loc shr_m].
  destruct (Z.leb_spec t (F32.emax - F32.prec)) as [H|H]; [reflexivity|].
  unfold F32.emax, F32.prec in H. lia.
Qed.

(** Rounding a value of at most 24 digits only normalises it. *)
Lemma binary_round_exact sx z e :
  digits z <= 24 -> -149 <= e + digits z - 24 -> e + digits z - 24 <= 104 ->
  binary_round F32.prec F32.emax sx z e
  = S754_finite sx (shl z (Z.to_nat (24 - digits z))) (e + digits z - 24).
Proof.
  intros Hd Hlo Hhi. rewrite binary_round_split, round_first_spec. cbv zeta.
  rewrite fexp32. replace (Z.max (digits z + e - 24) (-149)) with (e + digits z - 24) by lia.
  destruct (Z.ltb_spec (e + digits z - 24) e) as [H|H].
  - replace (e - (e + digits z - 24)) with (24 - digits z) by lia.
    apply round_rest_exact; [|lia]. rewrite digits_shl. lia.
  - assert (digits z = 24) as Hz by lia.
    replace (e + digits z - 24 - e) with 0 by lia. rewrite Hz. simpl Z.to_nat.
    change (shl z 0) with z. cbn [Nat.iter nat_rect].
    apply round_rest_exact; [exact Hz|lia].
Qed.

Lemma digits_le_24 z : Zpos z < 2 ^ 24 -> digits z <= 24.
Proof.
  intros H. pose proof (digits_bounds z) as [Hlo _].
  destruct (Z_le_gt_dec (digits z) 24) as [Hc|Hc]; [exact Hc|exfalso].
  assert (2 ^ 24 <= 2 ^ (digits z - 1)) by (apply Z.pow_le_mono_r; lia). lia.
Qed.

Lemma of_Z_small z :
  Zpos z < 2 ^ 24 ->
  F32.of_Z (Zpos z)
  = S754_finite false (shl z (Z.to_nat (24 - digits z))) (digits z - 24).
Proof.
  intros H. pose proof (digits_le_24 z H). pose proof (digits_pos z).
  unfold F32.of_Z, binary_normalize. rewrite binary_round_exact by lia.
  f_equal.
Qed.

Lemma normal_of_Z_small n : 0 < n < 2 ^ 24 -> normal (F32.of_Z n) n.
Proof.
  intros [H0 H]. destruct n as [|z|z]; try lia.
  pose proof (digits_le_24 z H). pose proof (digits_pos z).
  rewrite (of_Z_small z H). eexists _, _. split; [reflexivity|].
  rewrite digits_shl, Zpos_shl, !Z2Nat.id by lia.
  split; [lia|]. split; [lia|].
  rewrite <- Z.mul_assoc, <- Z.pow_add_r by lia. do 2 f_equal. lia.
Qed.

Lemma normal_bounds x X :
  normal x X ->
  exists m e, x = S754_finite false m e /\ -149 <= e <= 104 /\
    2 ^ 23 * 2 ^ (e + 149) <= X * 2 ^ 149 < 2 ^ 24 * 2 ^ (e + 149) /\
    X * 2 ^ 149 = Zpos m * 2 ^ (e + 149).
Proof.
  intros (m & e & -> & Hd & He & HX). exists m, e.
  pose proof (digits_bounds m) as Hb. rewrite Hd in Hb. change (24 - 1) with 23 in Hb.
  assert (0 < 2 ^ (e + 149)) by (apply Z.pow_pos_nonneg; lia).
  split; [reflexivity|]. split; [exact He|]. split; [|exact HX].
  rewrite HX. nia.
Qed.

(** Comparison of normal numbers is comparison of their values. *)
Lemma gtb_normal x X y Y :
  normal x X -> normal y Y -> F32.gtb x y = (Y <? X).
Proof.
  intros Hx Hy.
  apply normal_bounds in Hx as (mx & ex & -> & Hex & [Hxlo Hxhi] & HX).
  apply normal_bounds in Hy as (my & ey & -> & Hey & [Hylo Hyhi] & HY).
  assert (H149 : 0 < 2 ^ 149) by (apply Z.pow_pos_nonneg; lia).
  unfold F32.gtb, SFltb, SFcompare.
  destruct (Z.compare_spec ey ex) as [He|He|He].
  - subst ey. rewrite Pos.compare_cont_spec. cbn [Pos.switch_Eq].
    assert (Hp : 0 < 2 ^ (ex + 149)) by (apply Z.pow_pos_nonneg; lia).
    destruct (Pos.compare_spec my mx) as [Hm|Hm|Hm].
    + subst. symmetry. apply Z.ltb_ge. nia.
    + symmetry. apply Z.ltb_lt. apply Pos2Z.pos_lt_pos in Hm. nia.
    + symmetry. apply Z.ltb_ge. apply Pos2Z.pos_lt_pos in Hm. nia.
  - symmetry. apply Z.ltb_lt.
    assert (2 * 2 ^ (ey + 149) <= 2 ^ (ex + 149)).
    { rewrite <- Z.pow_succ_r by lia. apply Z.pow_le_mono_r; lia. }
    nia.
  - symmetry. apply Z.ltb_ge.
    assert (2 * 2 ^ (ex + 149) <= 2 ^ (ey + 149)).
    { rewrite <- Z.pow_succ_r by lia. apply Z.pow_le_mono_r; lia. }
    nia.
Qed.

(** The difference of two integers held exactly is the rounded exact
    difference. *)
Lemma sub_normal x X y Y :
  normal x X -> normal y Y -> Y < 2 ^ 24 -> Y < X ->
  F32.sub x y = F32.of_Z (X - Y).
Proof.
  intros Hx Hy Hsmall Hlt.
  apply normal_bounds in Hx as (mx & ex & -> & Hex & [Hxlo Hxhi] & HX).
  apply normal_bounds in Hy as (my & ey & -> & Hey & [Hylo Hyhi] & HY).
  assert (H149 : 0 < 2 ^ 149) by (apply Z.pow_pos_nonneg; lia).
  assert (Hey0 : ey <= 0).
  { destruct (Z_le_gt_dec ey 0) as [Hc|Hc]; [exact Hc|exfalso].
    assert (2 ^ 150 <= 2 ^ (ey + 149)) by (apply Z.pow_le_mono_r; lia).
    change (2 ^ 150) with (2 * 2 ^ 149) in *. nia. }
  unfold F32.sub, SFsub. cbn [cond_Zopp]. rewrite !shl_align_spec.
  set (ez := Z.min ex ey).
  assert (Hez : -149 <= ez <= 0) by (unfold ez; lia).
  assert (HA : fst (if ez <? ex then (shl mx (Z.to_nat (ex - ez)), ez) else (mx, ex))
               = shl mx (Z.to_nat (ex - ez))).
  { destruct (Z.ltb_spec ez ex); [reflexivity|].
    replace (ex - ez) with 0 by lia. reflexivity. }
  assert (HB : fst (if ez <? ey then (shl my (Z.to_nat (ey - ez)), ez) else (my, ey))
               = shl my (Z.to_nat (ey - ez))).
  { destruct (Z.ltb_spec ez ey); [reflexivity|].
    replace (ey - ez) with 0 by lia. reflexivity. }
  rewrite HA, HB, !Zpos_shl, !Z2Nat.id by (unfold ez; lia).
  assert (Hdiff : Zpos mx * 2 ^ (ex - ez) - Zpos my * 2 ^ (ey - ez)
                  = (X - Y) * 2 ^ (- ez)).
  { assert (Hs : 0 < 2 ^ (ez + 149)) by (apply Z.pow_pos_nonneg; lia).
    apply (Z.mul_cancel_r _ _ (2 ^ (ez + 149))); [lia|].
    rewrite Z.mul_sub_distr_r, <- !Z.mul_assoc, <- !Z.pow_add_r by lia.
    replace (ex - ez + (ez + 149)) with (ex + 149) by lia.
    replace (ey - ez + (ez + 149)) with (ey + 149) by lia.
    replace (- ez + (ez + 149)) with 149 by lia. lia. }
  rewrite Hdiff. destruct (X - Y) as [|w|w] eqn:Hw; try lia.
  replace (Zpos w * 2 ^ (- ez)) with (Zpos (shl w (Z.to_nat (- ez))))
    by (rewrite Zpos_shl, Z2Nat.id by lia; reflexivity).
  unfold F32.of_Z, binary_normalize.
  replace ez with (0 - Z.of_nat (Z.to_nat (- ez))) at 2 by lia.
  apply binary_round_scale.
Qed.

(** *** Integers of more than 24 bits *)

Lemma shr_1_m mrs m :
  shr_m mrs = Zpos m -> 2 <= digits m ->
  exists m', shr_m (shr_1 mrs) = Zpos m' /\ digits m' = digits m - 1.
Proof.
  destruct mrs as [mm r s]. cbn [shr_m]. intros -> Hd. unfold digits in *.
  destruct m as [p|p|]; cbn [shr_1 shr_m digits2_pos] in *.
  - exists p. split; [reflexivity|]. lia.
  - exists p. split; [reflexivity|]. lia.
  - lia.
Qed.

Lemma iter_shr_1_m n mrs m :
  shr_m mrs = Zpos m -> Z.of_nat n < digits m ->
  exists m', shr_m (Nat.iter n shr_1 mrs) = Zpos m' /\
             digits m' = digits m - Z.of_nat n.
Proof.
  intros Hm. induction n as [|n IH]; intros Hn.
  - exists m. split; [exact Hm|lia].
  - destruct IH as (m1 & Hm1 & Hd1); [lia|]. rewrite Nat.iter_succ.
    destruct (shr_1_m _ m1 Hm1) as (m2 & Hm2 & Hd2); [lia|].
    exists m2. split; [exact Hm2|lia].
Qed.

Lemma round_nearest_even_pos m l :
  exists m', round_nearest_even (Zpos m) l = Zpos m' /\
             (m' = m \/ Zpos m' = Zpos m + 1).
Proof.
  destruct l as [ | c ]; [ | destruct c ]; cbn [round_nearest_even].
  - exists m. auto.
  - destruct (Z.even (Zpos m)); [exists m; auto|].
    exists (m + 1)%positive. split; [reflexivity|]. right. lia.
  - exists m. auto.
  - exists (m + 1)%positive. split; [reflexivity|]. right. lia.
Qed.

Lemma round_rest_normal mrs t :
  (exists m, shr_m mrs = Zpos m /\ digits m = 24) -> 1 <= t <= 103 ->
  exists X, normal (round_rest false (mrs, t)) X /\ 2 ^ 24 <= X <= 2 ^ (24 + t).
Proof.
  intros (m & Hm & Hd) Ht. unfold round_rest. rewrite Hm.
  destruct (round_nearest_even_pos m (loc_of_shr_record mrs)) as (m' & -> & Hm').
  pose proof (digits_bounds m) as Hb. rewrite Hd in Hb. change (24 - 1) with 23 in Hb.
  assert (Hp : 2 <= 2 ^ t).
  { change 2 with (2 ^ 1) at 1. apply Z.pow_le_mono_r; lia. }
  assert (Hcase : digits m' = 24 \/ m' = 16777216%positive).
  { destruct Hm' as [->|Hs]; [left; exact Hd|].
    destruct (Z_lt_le_dec (Zpos m') (2 ^ 24)) as [Hc|Hc].
    - left. apply digits_unique. change (24 - 1) with 23. lia.
    - right. change (2 ^ 24) with 16777216 in *. lia. }
  destruct Hcase as [Hd' | ->].
  - pose proof (digits_bounds m') as Hb'. rewrite Hd' in Hb'. change (24 - 1) with 23 in Hb'.
    change (round_rest false (exact_record m', t)) with (round_rest false (exact_record m', t)).
    pose proof (round_rest_exact false m' t Hd' ltac:(lia)) as Hr.
    unfold round_rest, exact_record in Hr. cbn [shr_m loc_of_shr_record round_nearest_even] in Hr.
    rewrite Hr. exists (Zpos m' * 2 ^ t). split.
    + exists m', t. split; [reflexivity|]. split; [exact Hd'|]. split; [lia|].
      rewrite <- Z.mul_assoc, <- Z.pow_add_r by lia. reflexivity.
    + rewrite Z.pow_add_r by lia. change (2 ^ 24) with (2 ^ 23 * 2). nia.
  - unfold shr_fexp. change (Zdigits2 16777216) with 25. rewrite fexp32.
    replace (Z.max (25 + t - 24) (-149) - t) with 1 by lia.
    cbn [shr shr_record_of_loc SpecFloat.iter_pos shr_1 shr_m].
    destruct (Z.leb_spec (t + 1) (F32.emax - F32.prec)) as [H|H];
      [|unfold F32.emax, F32.prec in H; lia].
    exists (2 ^ 23 * 2 ^ (t + 1)). split.
    + exists 8388608%positive, (t + 1). split; [reflexivity|].
      split; [reflexivity|]. split; [lia|].
      rewrite <- Z.mul_assoc, <- Z.pow_add_r by lia. reflexivity.
    + rewrite !Z.pow_add_r by lia. change (2 ^ 24) with (2 ^ 23 * 2).
      change (2 ^ 1) with 2. nia.
Qed.

Lemma normal_of_Z_big n :
  2 ^ 24 <= n < 2 ^ 64 ->
  exists X, normal (F32.of_Z n) X /\ 2 ^ 24 <= X <= 2 ^ 64.
Proof.
  intros [Hlo Hhi]. destruct n as [|z|z]; try lia.
  assert (Hd : 25 <= digits z <= 64).
  { pose proof (digits_bounds z) as [Hl Hh]. split.
    - destruct (Z_le_gt_dec 25 (digits z)) as [Hc|Hc]; [exact Hc|exfalso].
      assert (2 ^ digits z <= 2 ^ 24) by (apply Z.pow_le_mono_r; lia). lia.
    - destruct (Z_le_gt_dec (digits z) 64) as [Hc|Hc]; [exact Hc|exfalso].
      assert (2 ^ 64 <= 2 ^ (digits z - 1)) by (apply Z.pow_le_mono_r; lia). lia. }
  unfold F32.of_Z, binary_normalize. rewrite binary_round_split, round_first_spec.
  cbv zeta. rewrite fexp32.
  replace (Z.max (digits z + 0 - 24) (-149)) with (digits z - 24) by lia.
  destruct (Z.ltb_spec (digits z - 24) 0) as [H|_]; [lia|].
  destruct (iter_shr_1_m (Z.to_nat (digits z - 24 - 0)) (exact_record z) z eq_refl)
    as (m' & Hm' & Hd'); [lia|].
  destruct (round_rest_normal
              (Nat.iter (Z.to_nat (digits z - 24 - 0)) shr_1 (exact_record z))
              (digits z - 24)) as (X & HX & HXlo & HXhi); [|lia|].
  - exists m'. split; [exact Hm'|]. lia.
  - exists X. split; [exact HX|]. split; [exact HXlo|].
    assert (2 ^ (24 + (digits z - 24)) <= 2 ^ 64) by (apply Z.pow_le_mono_r; lia).
    lia.
Qed.

(** *** Exact quotients *)

Lemma binary_round_aux_binary_round sx m e :
  e <= fexp F32.prec F32.emax (digits m + e) ->
  binary_round_aux F32.prec F32.emax sx (Zpos m) e loc_Exact
  = binary_round F32.prec F32.emax sx m e.
Proof.
  intros H. rewrite binary_round_split. unfold round_first.
  rewrite shl_align_spec.
  destruct (Z.ltb_spec (fexp F32.prec F32.emax (digits m + e)) e) as [Hc|_]; [lia|].
  unfold round_rest, binary_round_aux.
  destruct (shr_fexp _ _ _ _ _) as [mrs' e']. reflexivity.
Qed.

Lemma div_eucl_exact a b q :
  0 < b -> a = b * q -> Z.div_eucl a b = (q, 0).
Proof.
  intros Hb ->.
  assert (H : Z.div_eucl (b * q) b = ((b * q) / b, (b * q) mod b))
    by (unfold Z.div, Z.modulo; destruct (Z.div_eucl (b * q) b); reflexivity).
  rewrite H, (Z.mul_comm b q), Z.div_mul, Z.mod_mul by lia. reflexivity.
Qed.

Lemma new_location_0 n : new_location n 0 = loc_Exact.
Proof.
  unfold new_location, new_location_even, new_location_odd.
  destruct (Z.even n); reflexivity.
Qed.

Lemma digits_mul_le w r q :
  Zpos w = Zpos r * Zpos q -> digits w <= digits r + digits q.
Proof.
  intros H. pose proof (digits_bounds w) as [Hw _].
  pose proof (digits_bounds r) as [_ Hr]. pose proof (digits_bounds q) as [_ Hq].
  pose proof (digits_pos r). pose proof (digits_pos q).
  destruct (Z_le_gt_dec (digits w) (digits r + digits q)) as [Hc|Hc];
    [exact Hc|exfalso].
  assert (2 ^ (digits r + digits q) <= 2 ^ (digits w - 1))
    by (apply Z.pow_le_mono_r; lia).
  rewrite Z.pow_add_r in * by lia. nia.
Qed.

(** An exact quotient of integers below 2^24 is computed exactly. *)
Lemma div_exact W R p :
  0 < R -> 0 < p -> W = R * p -> W < 2 ^ 24 ->
  F32.div (F32.of_Z W) (F32.of_Z R) = F32.of_Z p.
Proof.
  intros HR Hp HW Hlt.
  destruct W as [|w|w], R as [|r|r], p as [|q|q]; try lia.
  assert (Hr : Zpos r < 2 ^ 24) by nia.
  assert (Hq : Zpos q < 2 ^ 24) by nia.
  pose proof (digits_le_24 w Hlt) as Hdw. pose proof (digits_pos w) as Hdw1.
  pose proof (digits_le_24 r Hr) as Hdr. pose proof (digits_pos r) as Hdr1.
  pose proof (digits_le_24 q Hq) as Hdq. pose proof (digits_pos q) as Hdq1.
  pose proof (digits_mul_le w r q HW) as Hmul.
  rewrite (of_Z_small w Hlt), (of_Z_small r Hr).
  unfold F32.div, SFdiv, SFdiv_core_binary. cbn [xorb].
  change (Zdigits2 (Zpos ?m)) with (digits m). rewrite !digits_shl, !Z2Nat.id by lia.
  rewrite fexp32.
  replace (Z.min
             (Z.max (digits w + (24 - digits w) + (digits w - 24)
                     - (digits r + (24 - digits r) + (digits r - 24)) - 24) (-149))
             (digits w - 24 - (digits r - 24)))
    with (digits w - digits r - 24) by lia.
  replace (digits w - 24 - (digits r - 24) - (digits w - digits r - 24)) with 24 by lia.
  cbv iota beta. rewrite Z.shiftl_mul_pow2 by lia.
  set (j := 24 + digits r - digits w).
  rewrite (div_eucl_exact _ _ (Zpos (shl q (Z.to_nat j)))); [| lia |].
  - rewrite new_location_0.
    replace (digits w - digits r - 24) with (0 - Z.of_nat (Z.to_nat j)) by lia.
    rewrite binary_round_aux_binary_round.
    + rewrite binary_round_scale. reflexivity.
    + rewrite digits_shl, fexp32. lia.
  - rewrite !Zpos_shl, !Z2Nat.id by lia. rewrite HW. unfold j.
    replace (2 ^ 24) with (2 ^ (24 - digits r) * 2 ^ digits r)
      by (rewrite <- Z.pow_add_r by lia; f_equal; lia).
    replace (2 ^ (24 + digits r - digits w))
      with (2 ^ digits r * 2 ^ (24 - digits w))
      by (rewrite <- Z.pow_add_r by lia; f_equal; lia).
    ring.
Qed.

(** *** What the loop holds *)

Lemma holds_of_Z n :
  0 <= n < 2 ^ 64 ->
  exists X, holds (F32.of_Z n) X /\
            (n < 2 ^ 24 -> X = n) /\ (2 ^ 24 <= n -> 2 ^ 24 <= X).
Proof.
  intros Hn. destruct (Z_lt_le_dec n (2 ^ 24)) as [Hs|Hb].
  - exists n. split; [left; split; [lia|reflexivity]|]. split; lia.
  - destruct (normal_of_Z_big n ltac:(lia)) as (X & HX & Hlo & Hhi).
    exists X. split; [right; split; [lia|exact HX]|]. split; lia.
Qed.

Lemma holds_normal x X : holds x X -> 0 < X -> normal x X.
Proof.
  intros [[HX ->]|[_ H]] H0; [|exact H]. apply normal_of_Z_small. lia.
Qed.

Lemma holds_gtb x X p :
  0 < p < 2 ^ 24 -> holds x X -> F32.gtb x (F32.of_Z p) = (p <? X).
Proof.
  intros Hp Hx. destruct (Z_lt_le_dec 0 X) as [H0|H0].
  - apply gtb_normal; [exact (holds_normal _ _ Hx H0)|].
    apply normal_of_Z_small. exact Hp.
  - destruct Hx as [[HX ->]|[HX _]]; [|lia].
    assert (X = 0) as -> by lia.
    destruct p as [|q|q]; try lia. rewrite (of_Z_small q) by lia. reflexivity.
Qed.

Lemma holds_sub x X p :
  0 < p < 2 ^ 24 -> holds x X -> p < X ->
  exists X', holds (F32.sub x (F32.of_Z p)) X' /\
             (X - p < 2 ^ 24 -> X' = X - p) /\
             (2 ^ 24 <= X - p -> 2 ^ 24 <= X').
Proof.
  intros Hp Hx Hlt.
  assert (HX : X <= 2 ^ 64) by (destruct Hx as [[? _]|[? _]]; lia).
  rewrite (sub_normal x X (F32.of_Z p) p); try lia.
  - apply holds_of_Z. lia.
  - apply (holds_normal _ _ Hx). lia.
  - apply normal_of_Z_small. exact Hp.
Qed.

(** The number of rotations against the elapsed time, when the
    sub-interval is the integer [p]. *)
Lemma iterations_regime fuel p R i x X :
  0 < p < 2 ^ 24 -> R * p < 2 ^ 24 -> 0 <= i <= R -> holds x X ->
  (Z.to_nat (R - i) < fuel)%nat ->
  let k := Z.of_nat (iterations fuel (F32.of_Z p) R i x) in
  k <= R - i /\ (k = 0 \/ k * p < X) /\ ((R - i) * p < X -> k = R - i) /\
  (k = 0 -> i < R -> X <= p).
Proof.
  intros Hp24 HW. revert i x X.
  induction fuel as [|fuel IH]; intros i x X Hi Hx Hf; [lia|].
  cbn [iterations]. cbv zeta.
  rewrite (holds_gtb x X p Hp24 Hx).
  destruct (Z.ltb_spec p X) as [HpX|HpX]; cbn [andb].
  - destruct (Z.ltb_spec i R) as [HiR|HiR].
    + destruct (holds_sub x X p Hp24 Hx HpX) as (X' & Hx' & Hsmall & Hbig).
      specialize (IH (i + 1) _ X' ltac:(lia) Hx' ltac:(lia)). cbv zeta in IH.
      rewrite Nat2Z.inj_succ.
      remember (Z.of_nat (iterations fuel (F32.of_Z p) R (i + 1)
                            (F32.sub x (F32.of_Z p)))) as k' eqn:Hk'.
      assert (0 <= k') by lia. clear Hk'.
      destruct IH as (Hle & Hlt & Hfull & _).
      split; [lia|]. split; [|split; [|lia]].
      * right. destruct (Z_lt_le_dec (X - p) (2 ^ 24)) as [Hc|Hc].
        -- rewrite (Hsmall Hc) in Hlt. destruct Hlt as [Hk0|Hlt]; nia.
        -- assert (Z.succ k' * p <= R * p) by nia. lia.
      * intros HX. enough (k' = R - (i + 1)) by lia. apply Hfull.
        destruct (Z_lt_le_dec (X - p) (2 ^ 24)) as [Hc|Hc].
        -- rewrite (Hsmall Hc). lia.
        -- specialize (Hbig Hc). assert ((R - (i + 1)) * p <= R * p) by nia. lia.
    + simpl. split; [lia|]. split; [left; reflexivity|]. split; lia.
  - simpl. split; [lia|]. split; [left; reflexivity|]. split; [|lia].
    intros HX. assert (R - i < 1) by nia. lia.
Qed.

(** ** The rotation step, taken apart *)

Lemma rotate_length k R c tot bs :
  length (rotate k R c tot bs).2 = length bs.
Proof.
  revert c tot bs. induction k as [|k IH]; intros c tot bs; simpl; [reflexivity|].
  rewrite IH, length_insert. reflexivity.
Qed.

Lemma rotate_current k R c tot bs :
  0 < R -> 0 <= c < R ->
  (rotate k R c tot bs).1.1 = (c + Z.of_nat k) mod R.
Proof.
  intros HR. revert c tot bs. induction k as [|k IH]; intros c tot bs Hc.
  - simpl. rewrite Z.add_0_r, Z.mod_small; lia.
  - cbn [rotate]. rewrite IH by (apply Z.mod_pos_bound; lia).
    rewrite Zplus_mod_idemp_l. f_equal. lia.
Qed.

(** The loop is the rotations chosen by the clock. *)
Lemma rotation_loop_rotate fuel pI R st :
  0 <= RateCounter.cur st < R ->
  R = Z.of_nat (length (RateCounter.buckets st)) -> R <= 2 ^ 31 ->
  (Z.to_nat (R - RateCounter.ii st) < fuel)%nat ->
  let k := iterations fuel pI R (RateCounter.ii st) (RateCounter.timeDiff st) in
  exists td,
    RateCounter.rotation_loop fuel pI R st
    = Ok {| RateCounter.ii := RateCounter.ii st + Z.of_nat k;
            RateCounter.timeDiff := td;
            RateCounter.cur :=
              (rotate k R (RateCounter.cur st) (RateCounter.total st)
                 (RateCounter.buckets st)).1.1;
            RateCounter.total :=
              (rotate k R (RateCounter.cur st) (RateCounter.total st)
                 (RateCounter.buckets st)).1.2;
            RateCounter.buckets :=
              (rotate k R (RateCounter.cur st) (RateCounter.total st)
                 (RateCounter.buckets st)).2 |}.
Proof.
  revert st. induction fuel as [|fuel IH]; intros st Hc HR H31 Hf; [lia|].
  cbn [iterations RateCounter.rotation_loop]. unfold RateCounter.loop_guard.
  destruct (F32.gtb _ _ && _) eqn:Hg.
  - apply andb_prop in Hg as [_ Hi]. apply Z.ltb_lt in Hi.
    assert (Hn : 0 <= (RateCounter.cur st + 1) mod R < R)
      by (apply Z.mod_pos_bound; lia).
    assert (Hrem : Z.rem (RateCounter.cur st + 1) R = (RateCounter.cur st + 1) mod R)
      by (apply Z.rem_mod_nonneg; lia).
    destruct (lookup_lt_is_Some_2 (RateCounter.buckets st)
                (Z.to_nat ((RateCounter.cur st + 1) mod R))) as [pv Hpv]; [lia|].
    unfold RateCounter.loop_body. cbv zeta. rewrite Hrem, Hpv.
    destruct (Z.leb_spec 0 ((RateCounter.cur st + 1) mod R)) as [_|]; [|lia].
    destruct (Z.ltb_spec ((RateCounter.cur st + 1) mod R)
                (Z.of_nat (length (RateCounter.buckets st)))) as [_|]; [|lia].
    cbn [andb bind]. rewrite Counter_Incr_spec, int32_small by lia.
    unfold Counter.Value, Counter.Reset.
    replace (RateCounter.total st + -1 * pv) with (RateCounter.total st - pv) by lia.
    match goal with |- context [RateCounter.rotation_loop fuel pI R ?s] =>
      destruct (IH s) as [td Htd] end; cbn [RateCounter.cur RateCounter.buckets RateCounter.ii];
      try (rewrite ?length_insert; lia).
    cbn [RateCounter.cur RateCounter.buckets RateCounter.ii RateCounter.total
         RateCounter.timeDiff] in Htd.
    exists td. rewrite Htd. cbn [rotate]. cbv zeta. rewrite Hpv.
    f_equal. f_equal. lia.
  - exists (RateCounter.timeDiff st). destruct st. simpl. rewrite Z.add_0_r.
    reflexivity.
Qed.

Lemma iterations_first fuel pI R td :
  F32.gtb td pI = false -> iterations fuel pI R 0 td = O.
Proof. intros H. destruct fuel; simpl; [reflexivity|]. rewrite H. reflexivity. Qed.

(** The rotation step on a well-formed counter. *)
Lemma updatePartials_rotated r val now :
  wf r ->
  RateCounter.updatePartials r (RateCounter.interval r) val now
  = Ok (rotated (rotations r now) now r).
Proof.
  intros [Hc H31 Hidle]. unfold RateCounter.updatePartials, rotations.
  set (R := Z.of_nat (length (RateCounter.partials r))) in *.
  set (pI := RateCounter.partialInterval_of (RateCounter.interval r) R).
  set (td0 := RateCounter.timeDiff_of now (RateCounter.resetTime r)).
  destruct (F32.gtb td0 pI) eqn:Hg.
  - rewrite Hidle. cbn [negb].
    destruct (rotation_loop_rotate (S (length (RateCounter.partials r))) pI R
                {| RateCounter.ii := 0; RateCounter.timeDiff := td0;
                   RateCounter.cur := RateCounter.current r;
                   RateCounter.total := RateCounter.counter r;
                   RateCounter.buckets := RateCounter.partials r |})
      as [td Htd];
      cbn [RateCounter.cur RateCounter.buckets RateCounter.ii]; try (unfold R; lia).
    cbn [RateCounter.cur RateCounter.buckets RateCounter.ii RateCounter.total
         RateCounter.timeDiff] in Htd.
    rewrite Htd. clear Htd.
    assert (Hk : iterations (S (length (RateCounter.partials r))) pI R 0 td0
                 = S (iterations (length (RateCounter.partials r)) pI R (0 + 1)
                        (F32.sub td0 pI))).
    { cbn [iterations]. rewrite Hg.
      destruct (Z.ltb_spec 0 R) as [_|H0]; [reflexivity|lia]. }
    rewrite Hk. unfold rotated.
    destruct (rotate _ _ _ _ _) as [[c tot] bs]. reflexivity.
  - rewrite iterations_first by exact Hg. reflexivity.
Qed.

(** ** Exact windows *)

Lemma regime_length r p :
  regime r p -> 0 < Z.of_nat (length (RateCounter.partials r)) ->
  0 < p < 2 ^ 24 /\ Z.of_nat (length (RateCounter.partials r)) < 2 ^ 24.
Proof. intros [Hp HW Hs] HR. rewrite HW in Hs. nia. Qed.

Lemma partialInterval_regime r p :
  regime r p -> 0 < Z.of_nat (length (RateCounter.partials r)) ->
  RateCounter.partialInterval_of (RateCounter.interval r)
    (Z.of_nat (length (RateCounter.partials r))) = F32.of_Z p.
Proof.
  intros Hr HR. destruct (regime_length r p Hr HR) as [Hp _].
  destruct Hr as [_ HW Hs]. unfold RateCounter.partialInterval_of.
  apply div_exact; lia.
Qed.

Lemma uint64_small z : 0 <= z < 2 ^ 64 -> uint64 z = z.
Proof. intros H. unfold uint64. apply Z.mod_small. exact H. Qed.



(** How many buckets a call rotates, against the time elapsed since the
    last rotation. *)
Lemma rotations_regime r p now :
  regime r p -> 0 < Z.of_nat (length (RateCounter.partials r)) ->
  RateCounter.resetTime r <= now < RateCounter.resetTime r + 2 ^ 64 ->
  let k := Z.of_nat (rotations r now) in
  k <= Z.of_nat (length (RateCounter.partials r)) /\
  (k = 0 \/ k * p < now - RateCounter.resetTime r) /\
  (RateCounter.interval r < now - RateCounter.resetTime r ->
   k = Z.of_nat (length (RateCounter.partials r))) /\
  (k = 0 -> now - RateCounter.resetTime r <= p).
Proof.
  intros Hr HR Hnow. cbv zeta. unfold rotations.
  rewrite (partialInterval_regime r p Hr HR).
  destruct (regime_length r p Hr HR) as [Hp HR24].
  destruct Hr as [_ HW Hs]. unfold RateCounter.timeDiff_of.
  rewrite uint64_small by lia.
  destruct (holds_of_Z (now - RateCounter.resetTime r) ltac:(lia))
    as (X & HX & Hsmall & Hbig).
  pose proof (iterations_regime (S (length (RateCounter.partials r))) p
                (Z.of_nat (length (RateCounter.partials r))) 0 _ X Hp
                ltac:(lia) ltac:(lia) HX ltac:(lia)) as H.
  cbv zeta in H. rewrite Z.sub_0_r in H.
  remember (Z.of_nat (iterations _ _ _ _ _)) as k eqn:Hk.
  destruct H as (Hle & Hlt & Hfull & Hstop). split; [exact Hle|].
  destruct (Z_lt_le_dec (now - RateCounter.resetTime r) (2 ^ 24)) as [Hc|Hc].
  - rewrite (Hsmall Hc) in *. split; [exact Hlt|]. split.
    + intros HE. apply Hfull. lia.
    + intros H0. apply Hstop; lia.
  - specialize (Hbig Hc). split; [|split].
    + destruct Hlt as [H0|Hlt]; [left; exact H0|right].
      assert (k * p <= Z.of_nat (length (RateCounter.partials r)) * p) by nia. lia.
    + intros _. apply Hfull. lia.
    + intros H0. specialize (Hstop H0 ltac:(lia)). lia.
Qed.

(** ** Reachable counters are well formed *)

Lemma rotation_loop_cur fuel pI R st st' :
  RateCounter.rotation_loop fuel pI R st = Ok st' ->
  Z.of_nat (length (RateCounter.buckets st)) <= 2 ^ 31 ->
  0 <= RateCounter.cur st < Z.of_nat (length (RateCounter.buckets st)) ->
  0 <= RateCounter.cur st' < Z.of_nat (length (RateCounter.buckets st')).
Proof.
  revert st. induction fuel as [|fuel IH]; intros st H H31 Hc; simpl in H;
    [discriminate|].
  destruct (RateCounter.loop_guard pI R st).
  - apply bind_Ok in H as (st1 & Hb & Hl). apply (IH _ Hl).
    + apply loop_body_Ok in Hb as (next & p & _ & _ & _ & ->). simpl.
      rewrite length_insert. exact H31.
    + apply loop_body_Ok in Hb as (next & p & _ & Hn & _ & ->). simpl.
      rewrite length_insert, int32_small; lia.
  - injection H as <-. exact Hc.
Qed.

Lemma updatePartials_wf r i val now r' :
  RateCounter.updatePartials r i val now = Ok r' -> wf r -> wf r'.
Proof.
  intros H [Hc H31 Hidle].
  apply updatePartials_Ok in H as [->|(st & Hl & ->)]; [split; assumption|].
  pose proof (rotation_loop_cur _ _ _ _ _ Hl H31 Hc) as Hc'.
  apply rotation_loop_drift in Hl as (_ & Hlen & _). simpl in *.
  split; simpl; [exact Hc'| |reflexivity]. rewrite Hlen. exact H31.
Qed.

Lemma step_wf r o r' : step r o = Ok r' -> wf r -> wf r'.
Proof.
  intros H Hwf. apply step_Ok in H. destruct o as [val now|now].
  - apply Incr_Ok in H as (r2 & p & Hu & Hc & Hp & ->).
    apply updatePartials_wf in Hu; [|destruct Hwf; split; assumption].
    destruct Hu as [Hc2 H31 Hidle]. split; simpl; rewrite ?length_insert;
      assumption.
  - destruct H as [v H]. apply Rate_Ok in H as [Hu _].
    exact (updatePartials_wf _ _ _ _ _ Hu Hwf).
Qed.

Lemma step_length r o r' :
  step r o = Ok r' ->
  length (RateCounter.partials r') = length (RateCounter.partials r) /\
  RateCounter.interval r' = RateCounter.interval r.
Proof.
  intros H. apply step_Ok in H. destruct o as [val now|now].
  - apply Incr_preserves in H. tauto.
  - destruct H as [v H]. apply Rate_preserves in H. tauto.
Qed.

Lemma configured_wf r :
  configured r ->
  (Z.of_nat (length (RateCounter.partials r)) <= 2 ^ 31 -> wf r) /\
  RateCounter.resetting r = false.
Proof.
  induction 1 as [intrvl now|r n r' _ IH Hw|r now r' v _ IH Hr].
  - split; [|reflexivity]. intros _. split; simpl; try lia; reflexivity.
  - apply WithResolution_Ok in Hw as [Hn ->]. simpl. split; [|tauto].
    rewrite length_replicate. intros H31. split; simpl;
      rewrite ?length_replicate; try lia; tauto.
  - pose proof (Rate_preserves _ _ _ _ Hr) as (_ & Hlen & _).
    apply Rate_Ok in Hr as [Hu _]. destruct IH as [IH Hidle]. split.
    + rewrite Hlen. intros H31. exact (updatePartials_wf _ _ _ _ _ Hu (IH H31)).
    + apply updatePartials_Ok in Hu as [->|(st & _ & ->)]; [exact Hidle|reflexivity].
Qed.

Lemma reachable_wf r :
  reachable r -> Z.of_nat (length (RateCounter.partials r)) <= 2 ^ 31 -> wf r.
Proof.
  induction 1 as [r Hc|r o r' _ IH Hs]; intros H31.
  - exact (proj1 (configured_wf r Hc) H31).
  - destruct (step_length _ _ _ Hs) as [Hlen _]. rewrite Hlen in H31.
    exact (step_wf _ _ _ Hs (IH H31)).
Qed.

(** ** A full turn of the ring *)

Lemma rotate_keeps_zero k R c tot (bs : list Counter.t) j :
  bs !! j = Some 0 -> (rotate k R c tot bs).2 !! j = Some 0.
Proof.
  revert c tot bs. induction k as [|k IH]; intros c tot bs H; [exact H|].
  cbn [rotate]. cbv zeta. apply IH.
  destruct (decide (Z.to_nat ((c + 1) mod R) = j)) as [->|Hne].
  - apply list_lookup_insert_eq. apply lookup_lt_Some in H. exact H.
  - rewrite list_lookup_insert_ne by exact Hne. exact H.
Qed.

Lemma rotate_zeroes k R c tot (bs : list Counter.t) i :
  0 < R -> R = Z.of_nat (length bs) -> 0 <= c < R ->
  1 <= i <= Z.of_nat k ->
  (rotate k R c tot bs).2 !! Z.to_nat ((c + i) mod R) = Some 0.
Proof.
  intros HR. revert c tot bs i.
  induction k as [|k IH]; intros c tot bs i Hlen Hc Hi; [lia|].
  cbn [rotate]. cbv zeta.
  assert (Hn : 0 <= (c + 1) mod R < R) by (apply Z.mod_pos_bound; lia).
  destruct (Z.eq_dec i 1) as [->|Hi1].
  - apply rotate_keeps_zero. apply list_lookup_insert_eq. lia.
  - replace ((c + i) mod R) with (((c + 1) mod R + (i - 1)) mod R)
      by (rewrite Zplus_mod_idemp_l; f_equal; lia).
    apply IH; rewrite ?length_insert; try assumption. lia.
Qed.

Lemma rotate_full R c tot (bs : list Counter.t) :
  0 < R -> R = Z.of_nat (length bs) -> 0 <= c < R ->
  Forall (fun p => p = 0) (rotate (Z.to_nat R) R c tot bs).2.
Proof.
  intros HR Hlen Hc. apply Forall_lookup. intros j x Hj.
  assert (HjR : Z.of_nat j < R).
  { apply lookup_lt_Some in Hj. rewrite rotate_length in Hj. lia. }
  pose proof (rotate_zeroes (Z.to_nat R) R c tot bs
                ((Z.of_nat j - c - 1) mod R + 1) HR Hlen Hc) as Hz.
  assert (Hm : 0 <= (Z.of_nat j - c - 1) mod R < R) by (apply Z.mod_pos_bound; lia).
  replace ((c + ((Z.of_nat j - c - 1) mod R + 1)) mod R) with (Z.of_nat j) in Hz.
  - rewrite Nat2Z.id in Hz. rewrite Hz in Hj by lia. congruence.
  - replace (c + ((Z.of_nat j - c - 1) mod R + 1))
      with ((Z.of_nat j - c - 1) mod R + (c + 1)) by lia.
    rewrite Zplus_mod_idemp_l.
    replace (Z.of_nat j - c - 1 + (c + 1)) with (Z.of_nat j) by lia.
    rewrite Z.mod_small; lia.
Qed.

(** After more than a window without a rotation, the next call empties the
    counter. *)
Lemma rotated_after_idle r p now :
  regime r p -> wf r -> sum_inv r ->
  RateCounter.resetTime r + RateCounter.interval r < now
    < RateCounter.resetTime r + 2 ^ 64 ->
  RateCounter.counter (rotated (rotations r now) now r) = 0 /\
  Forall (fun p => p = 0) (RateCounter.partials (rotated (rotations r now) now r)).
Proof.
  intros Hr Hwf Hinv Hnow.
  assert (HR : 0 < Z.of_nat (length (RateCounter.partials r)))
    by (destruct Hwf as [Hc _ _]; lia).
  destruct (regime_length r p Hr HR) as [Hp HR24].
  assert (HW : 0 <= RateCounter.interval r)
    by (destruct Hr as [_ -> _]; nia).
  destruct (rotations_regime r p now Hr HR ltac:(lia)) as (_ & _ & Hfull & _).
  specialize (Hfull ltac:(lia)).
  pose proof (updatePartials_rotated r 0 now Hwf) as Hu.
  pose proof (updatePartials_preserves _ _ _ _ _ Hu) as (Hd & _ & _ & Hc & _).
  assert (Hk : rotations r now = Z.to_nat (Z.of_nat (length (RateCounter.partials r))))
    by lia.
  assert (Hz : Forall (fun p => p = 0)
                 (RateCounter.partials (rotated (rotations r now) now r))).
  { rewrite Hk. unfold rotated.
    destruct (Z.to_nat (Z.of_nat (length (RateCounter.partials r)))) eqn:Hn; [lia|].
    rewrite <- Hn.
    pose proof (rotate_full (Z.of_nat (length (RateCounter.partials r)))
                  (RateCounter.current r) (RateCounter.counter r)
                  (RateCounter.partials r) HR eq_refl (wf_current r Hwf)) as Hf.
    destruct (rotate _ _ _ _ _) as [[c tot] bs]. exact Hf. }
  split; [|exact Hz].
  destruct Hinv as [Hd0 Hc0 _]. rewrite Hd0 in Hd. unfold drift in Hd.
  rewrite (sumZ_all_zero _ Hz), Z.sub_0_r in Hd.
  rewrite uint32_small in Hd by (apply Hc, Hc0). exact Hd.
Qed.

Lemma regime_wf r p : reachable r -> regime r p -> wf r.
Proof.
  intros Hreach Hr. apply (reachable_wf r Hreach).
  destruct (Z_lt_le_dec 0 (Z.of_nat (length (RateCounter.partials r)))) as [H|H];
    [|lia].
  destruct (regime_length r p Hr H) as [_ H24].
  assert (2 ^ 24 <= 2 ^ 31) by (apply Z.pow_le_mono_r; lia). lia.
Qed.

Lemma Rate_after_idle r p now :
  reachable r -> regime r p ->
  RateCounter.resetTime r + RateCounter.interval r < now
    < RateCounter.resetTime r + 2 ^ 64 ->
  exists r',
    RateCounter.Rate r now = Ok (r', 0) /\
    Z.of_nat (rotations r now) = Z.of_nat (length (RateCounter.partials r)) /\
    Forall (fun b => Counter.Value b = 0) (RateCounter.partials r').
Proof.
  intros Hreach Hr Hnow.
  pose proof (regime_wf r p Hreach Hr) as Hwf.
  pose proof (reachable_sum_inv r Hreach) as Hinv.
  destruct (rotated_after_idle r p now Hr Hwf Hinv Hnow) as [Hc Hz].
  exists (rotated (rotations r now) now r).
  split; [|split; [|exact Hz]].
  - unfold RateCounter.Rate. rewrite (updatePartials_rotated r 0 now Hwf).
    cbn [bind]. unfold Counter.Value. rewrite Hc. reflexivity.
  - assert (HR : 0 < Z.of_nat (length (RateCounter.partials r)))
      by (destruct Hwf as [Hcur _ _]; lia).
    assert (HW : 0 <= RateCounter.interval r)
      by (destruct Hr as [Hp -> _]; nia).
    destruct (rotations_regime r p now Hr HR ltac:(lia)) as (_ & _ & Hfull & _).
    apply Hfull. lia.
Qed.

(** C3, as the code has it, for a window that is a whole number of
    milliseconds per bucket and shorter than 2^24 ms: in a sequential
    execution with [WithResolution] called only before the first [Incr], a
    [Rate()] called more than the window after the last rotation (however
    much more, within the range of the clock) runs the loop once per bucket,
    resets every bucket and returns 0. *)
Theorem Rate_zero_after_idle :
  forall (r : RateCounter.t) (p now : Z),
    reachable r ->
    regime r p ->
    RateCounter.resetTime r + RateCounter.interval r < now
      < RateCounter.resetTime r + 2 ^ 64 ->
    exists r',
      RateCounter.Rate r now = Ok (r', 0) /\
      Z.of_nat (rotations r now) = Z.of_nat (length (RateCounter.partials r)) /\
      Forall (fun b => Counter.Value b = 0) (RateCounter.partials r').
Proof. intros r p now. apply Rate_after_idle. Qed.

Lemma run_event_in_day :
  run (RateCounter.NewRateCounter day 0) [OpIncr 1 0] = Ok after_event_in_day.
Proof. vm_compute. reflexivity. Qed.

(** C3 as stated fails: the elapsed time is compared in binary32.  A fresh
    counter with a window of one day (86400000 ms, resolution 20) records one
    event at 0 ms; nothing happens for 86400001 ms, more than the window; the
    elapsed time rounds to 86400000, the loop stops after 19 of the 20
    buckets, and [Rate()] returns 1. *)
Lemma Rate_nonzero_after_idle :
  reachable after_event_in_day /\
  RateCounter.resetTime after_event_in_day
    + RateCounter.interval after_event_in_day < 86400001 /\
  rotations after_event_in_day 86400001 = 19%nat /\
  rate_at after_event_in_day 86400001 = Ok 1.
Proof.
  split; [exact (reachable_from_new _ _ _ _ run_event_in_day)|].
  split; [reflexivity|]. split; vm_compute; reflexivity.
Qed.

Lemma reachable_after_scenario : reachable after_scenario.
Proof.
  pose proof scenario_counter_at_0 as H. unfold scenario_counter in H.
  apply bind_Ok in H as (r & Hw & Hrun).
  apply (reachable_run r _ _ (reachable_configured _
           (configured_resolution _ _ _ (configured_new second 0) Hw)) Hrun).
Qed.

Lemma regime_after_scenario : regime after_scenario 100.
Proof. split; [lia|reflexivity|reflexivity]. Qed.

Lemma Rate_zero_after_idle_witness :
  reachable after_scenario /\ regime after_scenario 100 /\
  RateCounter.resetTime after_scenario + RateCounter.interval after_scenario
    < 1600 < RateCounter.resetTime after_scenario + 2 ^ 64 /\
  exists r',
    RateCounter.Rate after_scenario 1600 = Ok (r', 0) /\
    Z.of_nat (rotations after_scenario 1600)
    = Z.of_nat (length (RateCounter.partials after_scenario)) /\
    Forall (fun b => Counter.Value b = 0) (RateCounter.partials r').
Proof.
  assert (Ht : RateCounter.resetTime after_scenario
                 + RateCounter.interval after_scenario
               < 1600 < RateCounter.resetTime after_scenario + 2 ^ 64)
    by (split; reflexivity).
  split; [exact reachable_after_scenario|].
  split; [exact regime_after_scenario|]. split; [exact Ht|].
  exact (Rate_zero_after_idle after_scenario 100 1600
           reachable_after_scenario regime_after_scenario Ht).
Defined.
(** ** Rate within one sub-interval, in whole milliseconds *)



(** Past 2^24 ms the two comparisons part by the rounding of binary32:
    429496753 ms is less than a fifth of 2147483776 ms, and the rotation
    step finds it more than one sub-interval. *)
Remark within_sub_interval_rounds :
  429496753 * 5 <= RateCounter.interval wide_window /\
  within_sub_interval wide_window 429496753 = false /\
  rotations wide_window 429496753 = 1%nat.
Proof. split; [vm_compute; discriminate|]. split; vm_compute; reflexivity. Qed.


(** ** One event followed through a run *)

Lemma insert_as_alter {A} (f : A -> A) (l : list A) i x :
  l !! i = Some x -> <[i := f x]> l = alter f i l.
Proof.
  intros H. apply list_eq. intros j. destruct (decide (i = j)) as [->|Hne].
  - rewrite list_lookup_insert_eq by (apply lookup_lt_Some in H; exact H).
    rewrite list_lookup_alter_eq, H. reflexivity.
  - rewrite list_lookup_insert_ne, list_lookup_alter_ne by exact Hne.
    reflexivity.
Qed.

Lemma insert_alter_ne {A} (f : A -> A) (l : list A) i e x :
  i <> e -> <[i := x]> (alter f e l) = alter f e (<[i := x]> l).
Proof. intros H. rewrite !list_insert_alter. apply list_alter_alter_ne. exact H. Qed.

Lemma alter_out_of_range {A} (f : A -> A) (l : list A) e :
  (length l <= e)%nat -> alter f e l = l.
Proof.
  intros H. apply list_eq. intros j. destruct (decide (e = j)) as [->|Hne].
  - rewrite list_lookup_alter_eq, (lookup_ge_None_2 l j H). reflexivity.
  - apply list_lookup_alter_ne. exact Hne.
Qed.

Lemma Incr_comm c v w : Counter.Incr (Counter.Incr c v) w = Counter.Incr (Counter.Incr c w) v.
Proof. rewrite !Counter_Incr_spec, !uint32_add_l. f_equal. lia. Qed.

Lemma mod_shift_ne e j R : 0 <= e < R -> 0 < j < R -> (e + j) mod R <> e.
Proof.
  intros He Hj. destruct (Z_lt_le_dec (e + j) R) as [H|H].
  - rewrite Z.mod_small; lia.
  - replace (e + j) with ((e + j - R) + 1 * R) by lia.
    rewrite Z_mod_plus_full, Z.mod_small; lia.
Qed.

(** [Incr] and [Rate] on a well-formed counter. *)
Lemma wf_credit val r : wf r -> wf (credit val r).
Proof. intros [Hc H31 Hi]. split; assumption. Qed.

Lemma rotated_wf k now r : wf r -> rotations r now = k -> wf (rotated k now r).
Proof.
  intros Hwf <-. apply (updatePartials_wf r (RateCounter.interval r) 0 now);
    [apply updatePartials_rotated|]; exact Hwf.
Qed.

Lemma Incr_rotated r val now :
  wf r ->
  RateCounter.Incr r val now
  = Ok (bump val (rotated (rotations r now) now (credit val r))).
Proof.
  intros Hwf. unfold RateCounter.Incr.
  change {| RateCounter.counter := Counter.Incr (RateCounter.counter r) val;
            RateCounter.partials := RateCounter.partials r;
            RateCounter.resetTime := RateCounter.resetTime r;
            RateCounter.current := RateCounter.current r;
            RateCounter.resetting := RateCounter.resetting r;
            RateCounter.interval := RateCounter.interval r |}
    with (credit val r).
  rewrite (updatePartials_rotated (credit val r) val now (wf_credit val r Hwf)).
  change (rotations (credit val r) now) with (rotations r now).
  cbn [bind].
  pose proof (rotated_wf (rotations r now) now (credit val r)
                (wf_credit val r Hwf) eq_refl) as [Hc _ _].
  set (r2 := rotated (rotations r now) now (credit val r)) in *.
  destruct (lookup_lt_is_Some_2 (RateCounter.partials r2)
              (Z.to_nat (RateCounter.current r2))) as [pv Hpv]; [lia|].
  destruct (Z.leb_spec 0 (RateCounter.current r2)) as [_|]; [|lia].
  destruct (Z.ltb_spec (RateCounter.current r2)
              (Z.of_nat (length (RateCounter.partials r2)))) as [_|]; [|lia].
  cbn [andb]. rewrite Hpv. unfold bump.
  rewrite (insert_as_alter (fun p => Counter.Incr p val) _ _ _ Hpv).
  reflexivity.
Qed.

Lemma Rate_rotated r now :
  wf r ->
  RateCounter.Rate r now
  = Ok (rotated (rotations r now) now r,
        Counter.Value (RateCounter.counter (rotated (rotations r now) now r))).
Proof.
  intros Hwf. unfold RateCounter.Rate.
  rewrite (updatePartials_rotated r 0 now Hwf). reflexivity.
Qed.

(** Rotations that do not reach the bucket of the event leave it reflected. *)
Lemma rotate_add_event k R c tot (bs : list Z) e v :
  (forall i, 1 <= i <= Z.of_nat k -> Z.to_nat ((c + i) mod R) <> e) ->
  0 < R ->
  rotate k R c (Counter.Incr tot v) (alter (fun p => Counter.Incr p v) e bs)
  = ((rotate k R c tot bs).1.1,
     Counter.Incr (rotate k R c tot bs).1.2 v,
     alter (fun p => Counter.Incr p v) e (rotate k R c tot bs).2).
Proof.
  intros Hav HR. revert c tot bs Hav.
  induction k as [|k IH]; intros c tot bs Hav; [reflexivity|].
  cbn [rotate]. cbv zeta.
  assert (Hne : Z.to_nat ((c + 1) mod R) <> e) by (apply Hav; lia).
  rewrite list_lookup_alter_ne by (intros Heq; apply Hne; symmetry; exact Heq).
  rewrite insert_alter_ne by exact Hne.
  set (pv := match bs !! Z.to_nat ((c + 1) mod R) with Some p => p | None => 0 end).
  replace (uint32 (Counter.Incr tot v - pv)) with (Counter.Incr (uint32 (tot - pv)) v).
  - apply IH. intros i Hi.
    replace (((c + 1) mod R + i) mod R) with ((c + (i + 1)) mod R)
      by (rewrite Zplus_mod_idemp_l; f_equal; lia).
    apply Hav. lia.
  - rewrite !Counter_Incr_spec, uint32_add_l, uint32_sub_l. f_equal. lia.
Qed.

Lemma rotations_add_event e v r now :
  rotations (add_event e v r) now = rotations r now.
Proof. unfold rotations, add_event. simpl. rewrite length_alter. reflexivity. Qed.

Lemma rotated_add_event k now e v r :
  (forall i, 1 <= i <= Z.of_nat k ->
     Z.to_nat ((RateCounter.current r + i)
               mod Z.of_nat (length (RateCounter.partials r))) <> e) ->
  0 < Z.of_nat (length (RateCounter.partials r)) ->
  rotated k now (add_event e v r) = add_event e v (rotated k now r).
Proof.
  intros Hav HR. destruct k as [|k]; [reflexivity|].
  unfold rotated.
  cbn [add_event RateCounter.partials RateCounter.current RateCounter.counter
       RateCounter.interval].
  rewrite length_alter, rotate_add_event by assumption.
  destruct (rotate (S k) _ _ _ _) as [[c tot] bs]. reflexivity.
Qed.

Lemma wf_add_event e v r : wf r -> wf (add_event e v r).
Proof.
  intros [Hc H31 Hi]. split; simpl; rewrite ?length_alter; assumption.
Qed.

Lemma credit_add_event e v w r :
  credit w (add_event e v r) = add_event e v (credit w r).
Proof. unfold credit, add_event. simpl. rewrite Incr_comm. reflexivity. Qed.

Lemma bump_add_event e v w r :
  bump w (add_event e v r) = add_event e v (bump w r).
Proof.
  unfold bump, add_event. simpl. f_equal.
  destruct (decide (Z.to_nat (RateCounter.current r) = e)) as [->|Hne].
  - rewrite !list_alter_alter_eq. apply list_alter_ext; [|reflexivity].
    intros x _. apply Incr_comm.
  - apply list_alter_alter_ne. exact Hne.
Qed.

Lemma rotated_fields k now r :
  0 < Z.of_nat (length (RateCounter.partials r)) ->
  0 <= RateCounter.current r < Z.of_nat (length (RateCounter.partials r)) ->
  length (RateCounter.partials (rotated k now r)) = length (RateCounter.partials r)
  /\ RateCounter.interval (rotated k now r) = RateCounter.interval r
  /\ RateCounter.current (rotated k now r)
     = (RateCounter.current r + Z.of_nat k)
       mod Z.of_nat (length (RateCounter.partials r))
  /\ RateCounter.resetTime (rotated k now r)
     = match k with O => RateCounter.resetTime r | S _ => now end.
Proof.
  intros HR Hc. destruct k as [|k].
  - simpl. rewrite Z.add_0_r, Z.mod_small by lia. auto.
  - unfold rotated.
    pose proof (rotate_length (S k) (Z.of_nat (length (RateCounter.partials r)))
                  (RateCounter.current r) (RateCounter.counter r)
                  (RateCounter.partials r)) as Hlen.
    pose proof (rotate_current (S k) (Z.of_nat (length (RateCounter.partials r)))
                  (RateCounter.current r) (RateCounter.counter r)
                  (RateCounter.partials r) HR Hc) as Hcur.
    destruct (rotate (S k) _ _ _ _) as [[c tot] bs]. simpl in *. auto.
Qed.

Lemma regime_same r r' p :
  regime r p ->
  length (RateCounter.partials r') = length (RateCounter.partials r) ->
  RateCounter.interval r' = RateCounter.interval r ->
  regime r' p.
Proof. intros [Hp HW Hs] Hlen Hi. split; rewrite ?Hlen, ?Hi; assumption. Qed.

(** One call at a time within the window of the event: the event stays
    reflected and ages by the rotations of the call. *)
Lemma step_add_event e v r0 p r a o :
  wf r -> regime r p -> aged e r0 p r a ->
  RateCounter.resetTime r <= op_time o <= r0 + RateCounter.interval r ->
  exists r' a',
    step r o = Ok r' /\
    step (add_event e v r) o = Ok (add_event e v r') /\
    wf r' /\ regime r' p /\ aged e r0 p r' a' /\
    RateCounter.resetTime r' <= op_time o /\
    RateCounter.interval r' = RateCounter.interval r.
Proof.
  intros Hwf Hreg [Ha He Hcur Htime] HT.
  set (R := Z.of_nat (length (RateCounter.partials r))) in *.
  assert (HR : 0 < R) by lia.
  destruct (regime_length r p Hreg HR) as [Hp HR24]. fold R in HR24.
  pose proof (regime_window r p Hreg) as HW. fold R in HW.
  pose proof (regime_small r p Hreg) as Hsmall.
  pose proof (wf_current r Hwf) as Hcr. fold R in Hcr.
  set (T := op_time o) in *.
  assert (Hrt : r0 <= RateCounter.resetTime r) by nia.
  destruct (rotations_regime r p T Hreg HR ltac:(lia)) as (Hk & Hlt & _ & _).
  fold R in Hk. remember (rotations r T) as k eqn:Hkdef.
  assert (HaR : a + Z.of_nat k < R).
  { destruct Hlt as [H0|Hlt]; [lia|]. nia. }
  assert (Hav : forall i, 1 <= i <= Z.of_nat k ->
            Z.to_nat ((RateCounter.current r + i) mod R) <> e).
  { intros i Hi. rewrite Hcur, Zplus_mod_idemp_l.
    pose proof (mod_shift_ne (Z.of_nat e) (a + i) R ltac:(lia) ltac:(lia)) as Hne.
    replace (Z.of_nat e + a + i) with (Z.of_nat e + (a + i)) by lia.
    pose proof (Z.mod_pos_bound (Z.of_nat e + (a + i)) R HR). lia. }
  assert (Hafter : forall r2,
            length (RateCounter.partials r2) = length (RateCounter.partials r) ->
            RateCounter.current r2 = RateCounter.current r ->
            RateCounter.resetTime r2 = RateCounter.resetTime r ->
            aged e r0 p (rotated k T r2) (a + Z.of_nat k) /\
            RateCounter.resetTime (rotated k T r2) <= T).
  { intros r2 Hlen2 Hcur2 Hrt2.
    destruct (rotated_fields k T r2) as (Hl & _ & Hc & Ht);
      rewrite ?Hlen2, ?Hcur2; fold R; try lia.
    rewrite Hlen2, Hcur2 in Hc. fold R in Hc. split.
    - split; rewrite ?Hl, ?Hlen2; fold R; try lia.
      + rewrite Hc, Hcur, Zplus_mod_idemp_l. f_equal. lia.
      + rewrite Ht. destruct k as [|k']; [rewrite Hrt2; lia|].
        destruct Hlt as [H0|Hlt]; [lia|]. nia.
    - rewrite Ht. destruct k; lia. }
  destruct o as [w now|now]; cbn [step op_time] in *; subst T.
  - exists (bump w (rotated k now (credit w r))), (a + Z.of_nat k).
    rewrite (Incr_rotated r w now Hwf), <- Hkdef.
    rewrite (Incr_rotated _ w now (wf_add_event e v r Hwf)), rotations_add_event,
      <- Hkdef, credit_add_event, rotated_add_event, bump_add_event
      by (cbn [credit RateCounter.partials RateCounter.current]; assumption).
    destruct (Hafter (credit w r) eq_refl eq_refl eq_refl) as [[Ha2 He2 Hc2 Ht2] Hle].
    destruct (rotated_fields k now (credit w r)) as (Hl & Hi & _ & _);
      cbn [credit RateCounter.partials RateCounter.current]; fold R; try lia.
    cbn [credit RateCounter.partials RateCounter.interval] in Hl, Hi.
    assert (Hwf2 : wf (bump w (rotated k now (credit w r)))).
    { apply (step_wf r (OpIncr w now)); [|exact Hwf]. cbn [step].
      rewrite (Incr_rotated r w now Hwf), <- Hkdef. reflexivity. }
    split; [reflexivity|]. split; [reflexivity|]. split; [exact Hwf2|].
    split; [apply (regime_same r); cbn [bump RateCounter.partials RateCounter.interval];
            rewrite ?length_alter; assumption|].
    split; [|split; [exact Hle|exact Hi]].
    split; cbn [bump RateCounter.partials RateCounter.current RateCounter.resetTime];
      rewrite ?length_alter; assumption.
  - exists (rotated k now r), (a + Z.of_nat k).
    rewrite (Rate_rotated r now Hwf), <- Hkdef.
    rewrite (Rate_rotated _ now (wf_add_event e v r Hwf)), rotations_add_event,
      <- Hkdef, rotated_add_event by assumption.
    destruct (Hafter r eq_refl eq_refl eq_refl) as [Hag Hle].
    destruct (rotated_fields k now r) as (Hl & Hi & _ & _); fold R; try lia.
    split; [reflexivity|]. split; [reflexivity|].
    split; [apply rotated_wf; [exact Hwf|symmetry; exact Hkdef]|].
    split; [apply (regime_same r); assumption|].
    split; [exact Hag|]. split; [exact Hle|exact Hi].
Qed.

Lemma run_add_event e v r0 p ops :
  forall r a lo,
    wf r -> regime r p -> aged e r0 p r a ->
    RateCounter.resetTime r <= lo ->
    timed lo (r0 + RateCounter.interval r) (map op_time ops) ->
    exists r', run r ops = Ok r' /\
               run (add_event e v r) ops = Ok (add_event e v r').
Proof.
  induction ops as [|o ops IH]; intros r a lo Hwf Hreg Hag Hlo Ht.
  - exists r. split; reflexivity.
  - cbn [map timed] in Ht. destruct Ht as [Ho Ht].
    destruct (step_add_event e v r0 p r a o Hwf Hreg Hag ltac:(lia))
      as (r1 & a1 & Hs & Hs' & Hwf1 & Hreg1 & Hag1 & Hle1 & Hi1).
    rewrite <- Hi1 in Ht.
    destruct (IH r1 a1 (op_time o) Hwf1 Hreg1 Hag1 Hle1 Ht) as (r' & Hr & Hr').
    exists r'. cbn [run]. rewrite Hs, Hs'. cbn [bind]. auto.
Qed.

Lemma Incr_after_zero c v : Counter.Incr (Counter.Incr c 0) v = Counter.Incr c v.
Proof. rewrite !Counter_Incr_spec, uint32_add_l. f_equal. lia. Qed.

(** The call that records the event, against the same call with delta 0. *)
Lemma Incr_event r v t :
  wf r ->
  let r0 := bump 0 (rotated (rotations r t) t (credit 0 r)) in
  RateCounter.Incr r 0 t = Ok r0 /\
  RateCounter.Incr r v t
  = Ok (add_event (Z.to_nat (RateCounter.current r0)) v r0).
Proof.
  intros Hwf. cbv zeta. split; [apply Incr_rotated; exact Hwf|].
  rewrite (Incr_rotated r v t Hwf). f_equal.
  pose proof (wf_current r Hwf) as Hc.
  set (n := length (RateCounter.partials r)).
  assert (Hcredit : credit v r = add_event n v (credit 0 r)).
  { unfold credit, add_event. simpl. rewrite Incr_after_zero.
    rewrite alter_out_of_range by (unfold n; lia). reflexivity. }
  rewrite Hcredit, rotated_add_event.
  - set (Y := rotated (rotations r t) t (credit 0 r)).
    assert (Hlen : length (RateCounter.partials Y) = n).
    { destruct (rotated_fields (rotations r t) t (credit 0 r)) as (Hl & _);
        cbn [credit RateCounter.partials RateCounter.current]; try lia.
      exact Hl. }
    unfold bump, add_event. simpl. f_equal.
    rewrite (alter_out_of_range _ (RateCounter.partials Y)) by lia.
    rewrite list_alter_alter_eq. apply list_alter_ext; [|reflexivity].
    intros x _. simpl. symmetry. apply Incr_after_zero.
  - intros i Hi. cbn [credit RateCounter.partials RateCounter.current].
    pose proof (Z.mod_pos_bound (RateCounter.current r + i)
                  (Z.of_nat (length (RateCounter.partials r))) ltac:(lia)).
    unfold n. lia.
  - cbn [credit RateCounter.partials]. lia.
Qed.

Lemma Incr_event_aged r p t :
  wf r -> regime r p ->
  RateCounter.resetTime r <= t < RateCounter.resetTime r + 2 ^ 64 ->
  let r0 := bump 0 (rotated (rotations r t) t (credit 0 r)) in
  wf r0 /\ regime r0 p /\
  aged (Z.to_nat (RateCounter.current r0)) (RateCounter.resetTime r0) p r0 0 /\
  t - p <= RateCounter.resetTime r0 <= t /\
  RateCounter.interval r0 = RateCounter.interval r.
Proof.
  intros Hwf Hreg Ht. cbv zeta.
  pose proof (wf_current r Hwf) as Hc.
  assert (HR : 0 < Z.of_nat (length (RateCounter.partials r))) by lia.
  destruct (regime_length r p Hreg HR) as [Hp _].
  destruct (rotations_regime r p t Hreg HR Ht) as (_ & _ & _ & Hstop).
  destruct (rotated_fields (rotations r t) t (credit 0 r)) as (Hl & Hi & _ & Hrt);
    cbn [credit RateCounter.partials RateCounter.current]; try lia.
  cbn [credit RateCounter.partials RateCounter.interval RateCounter.resetTime] in *.
  assert (Hwf0 : wf (bump 0 (rotated (rotations r t) t (credit 0 r)))).
  { apply (step_wf r (OpIncr 0 t)); [|exact Hwf]. cbn [step].
    apply Incr_rotated. exact Hwf. }
  pose proof (wf_current _ Hwf0) as Hc0.
  cbn [bump RateCounter.partials RateCounter.current RateCounter.resetTime
       RateCounter.interval] in *.
  rewrite length_alter in Hc0.
  split; [exact Hwf0|]. split; [|split; [|split; [|exact Hi]]].
  - apply (regime_same r); cbn [bump RateCounter.partials RateCounter.interval];
      rewrite ?length_alter; assumption.
  - split; cbn [bump RateCounter.partials RateCounter.current RateCounter.resetTime];
      rewrite ?length_alter, ?Z2Nat.id; try lia.
    rewrite Z.add_0_r, Z.mod_small; lia.
  - rewrite Hrt. destruct (rotations r t) as [|k]; [|lia].
    specialize (Hstop eq_refl). lia.
Qed.

Lemma timed_weaken ts : forall lo lo' hi hi',
  timed lo hi ts -> lo' <= lo -> hi <= hi' -> timed lo' hi' ts.
Proof.
  induction ts as [|x ts IH]; intros lo lo' hi hi' H Hlo Hhi; [exact I|].
  cbn [timed] in *. destruct H as [Hx H]. split; [lia|].
  apply (IH x x hi hi' H); lia.
Qed.

Lemma rate_after_run r ops now :
  rate_after r ops now
  = rmap (fun r' => Counter.Value (RateCounter.counter r'))
      (run r (ops ++ [OpRate now])).
Proof.
  unfold rate_after, rate_at, rmap. revert r.
  induction ops as [|o ops IH]; intros r; cbn [run app bind step].
  - destruct (RateCounter.Rate r now) as [[r' v]| |] eqn:Hr; cbn [bind fst snd];
      try reflexivity.
    apply Rate_Ok in Hr as [_ ->]. reflexivity.
  - destruct (step r o) as [r1| |]; cbn [bind]; [apply IH| |]; reflexivity.
Qed.

(** C1, as the code has it, for a window that is a whole number [p] of
    milliseconds per bucket and shorter than 2^24 ms, in a sequential
    execution with [WithResolution] called only before the first [Incr] and
    a clock that does not go back.  An event recorded by [Incr(v)] at time
    [t] is reflected in every [Rate()] called up to [W - W/R] ms after [t],
    whatever calls are made in between: the value returned is the one the
    same run returns with the delta of that [Incr] set to 0, plus [v],
    modulo 2^32.  It is no longer reflected more than [W] ms after [t] when
    no call is made in between: [Rate()] then returns 0. *)
Theorem event_reflected_within_window :
  forall (r : RateCounter.t) (p v t : Z),
    reachable r ->
    regime r p ->
    RateCounter.resetTime r <= t < RateCounter.resetTime r + 2 ^ 64 ->
    exists r1 r0,
      RateCounter.Incr r v t = Ok r1 /\
      RateCounter.Incr r 0 t = Ok r0 /\
      (forall (ops : list op) (T : Z),
         timed t (t + RateCounter.interval r - p) (map op_time ops ++ [T]) ->
         exists rate0,
           rate_after r0 ops T = Ok rate0 /\
           rate_after r1 ops T = Ok (uint32 (rate0 + v))) /\
      (forall T, t + RateCounter.interval r < T < t - p + 2 ^ 64 ->
         rate_at r1 T = Ok 0).
Proof.
  intros r p v t Hreach Hreg Ht.
  pose proof (regime_wf r p Hreach Hreg) as Hwf.
  destruct (Incr_event r v t Hwf) as [H0 Hv].
  destruct (Incr_event_aged r p t Hwf Hreg Ht) as (Hwf0 & Hreg0 & Hag & Hrt & Hi).
  set (r0 := bump 0 (rotated (rotations r t) t (credit 0 r))) in *.
  exists (add_event (Z.to_nat (RateCounter.current r0)) v r0), r0.
  split; [exact Hv|]. split; [exact H0|]. split.
  - intros ops T Htimed. rewrite !rate_after_run.
    destruct (run_add_event (Z.to_nat (RateCounter.current r0)) v
                (RateCounter.resetTime r0) p (ops ++ [OpRate T]) r0 0 t
                Hwf0 Hreg0 Hag ltac:(lia)) as (r' & Hr & Hr').
    + rewrite map_app. cbn [map op_time]. rewrite Hi.
      apply (timed_weaken _ t t (t + RateCounter.interval r - p)); [exact Htimed|lia|lia].
    + exists (Counter.Value (RateCounter.counter r')).
      rewrite Hr, Hr'. cbn [rmap bind]. split; [reflexivity|].
      cbn [add_event RateCounter.counter]. rewrite Counter_Incr_spec.
      reflexivity.
  - intros T HT. unfold rate_at.
    assert (Hreach1 : reachable (add_event (Z.to_nat (RateCounter.current r0)) v r0)).
    { apply (reachable_step r (OpIncr v t)); [exact Hreach|exact Hv]. }
    assert (Hreg1 : regime (add_event (Z.to_nat (RateCounter.current r0)) v r0) p).
    { apply (regime_same r0); [exact Hreg0| |reflexivity].
      cbn [add_event RateCounter.partials]. apply length_alter. }
    destruct (Rate_after_idle _ p T Hreach1 Hreg1) as (r' & Hr' & _).
    + cbn [add_event RateCounter.resetTime RateCounter.interval]. lia.
    + rewrite Hr'. reflexivity.
Qed.

Lemma fresh_ten_configured : configured fresh_ten.
Proof.
  apply (configured_resolution (RateCounter.NewRateCounter second 0) 10);
    [apply configured_new|reflexivity].
Qed.

Lemma Incr_fresh_ten : RateCounter.Incr fresh_ten 1 0 = Ok after_one_event.
Proof. vm_compute. reflexivity. Qed.

Lemma run_event_in_odd_window :
  run (RateCounter.NewRateCounter odd_window 0) [OpIncr 1 500000]
  = Ok after_event_in_odd_window.
Proof. vm_compute. reflexivity. Qed.

(** C1 as stated fails on both sides.  Window 1000 ms, resolution 10, one
    event at 0 ms: a [Rate()] at 199 ms rotates one bucket and restarts the
    clock, so the [Rate()] at 1001 ms still returns 1; with a [Rate()] every
    199 ms the event is still counted at 1791 ms, where the run without the
    event returns 0.  Window 10000003 ms, resolution 20, one event at
    500000 ms: the [Rate()] at 10000002 ms, which is 9500002 ms after the
    event and within [W - W/R], already returns 0, the sub-interval and the
    elapsed time being rounded to binary32. *)
Lemma event_outlives_window_or_expires_early :
  (reachable after_one_event /\
   RateCounter.Incr fresh_ten 1 0 = Ok after_one_event /\
   0 + RateCounter.interval after_one_event < 1001 /\
   rate_after after_one_event [OpRate 199] 1001 = Ok 1 /\
   rate_after after_one_event slow_rates 1791 = Ok 1 /\
   rate_after fresh_ten slow_rates 1791 = Ok 0) /\
  (reachable after_event_in_odd_window /\
   run (RateCounter.NewRateCounter odd_window 0) [OpIncr 1 500000]
   = Ok after_event_in_odd_window /\
   (10000002 - 500000) * 20
   <= RateCounter.interval after_event_in_odd_window * 20
      - RateCounter.interval after_event_in_odd_window /\
   rate_at after_event_in_odd_window 10000002 = Ok 0).
Proof.
  split.
  - split.
    { apply (reachable_step fresh_ten (OpIncr 1 0));
        [apply reachable_configured, fresh_ten_configured|exact Incr_fresh_ten]. }
    split; [exact Incr_fresh_ten|]. split; [reflexivity|].
    split; [vm_compute; reflexivity|]. split; vm_compute; reflexivity.
  - split; [exact (reachable_from_new _ _ _ _ run_event_in_odd_window)|].
    split; [exact run_event_in_odd_window|]. split; [vm_compute; congruence|].
    vm_compute. reflexivity.
Qed.

Lemma regime_fresh_ten : regime fresh_ten 100.
Proof. split; [lia|reflexivity|reflexivity]. Qed.

Lemma event_reflected_within_window_witness :
  reachable fresh_ten /\ regime fresh_ten 100 /\
  RateCounter.resetTime fresh_ten <= 0 < RateCounter.resetTime fresh_ten + 2 ^ 64 /\
  exists r1 r0,
    RateCounter.Incr fresh_ten 1 0 = Ok r1 /\
    RateCounter.Incr fresh_ten 0 0 = Ok r0 /\
    (forall (ops : list op) (T : Z),
       timed 0 (0 + RateCounter.interval fresh_ten - 100)
         (map op_time ops ++ [T]) ->
       exists rate0,
         rate_after r0 ops T = Ok rate0 /\
         rate_after r1 ops T = Ok (uint32 (rate0 + 1))) /\
    (forall T, 0 + RateCounter.interval fresh_ten < T < 0 - 100 + 2 ^ 64 ->
       rate_at r1 T = Ok 0).
Proof.
  assert (Ht : RateCounter.resetTime fresh_ten <= 0
               < RateCounter.resetTime fresh_ten + 2 ^ 64)
    by (split; [apply Z.le_refl|reflexivity]).
  split; [apply reachable_configured, fresh_ten_configured|].
  split; [exact regime_fresh_ten|]. split; [exact Ht|].
  exact (event_reflected_within_window fresh_ten 100 1 0
           (reachable_configured _ fresh_ten_configured) regime_fresh_ten Ht).
Defined.

(** ** Concurrent callers of the rotation step *)

Lemma Gate_lookup_goto i j p q (l : list Gate.pc) :
  <[i := p]> l !! j = Some q ->
  (j = i /\ q = p) \/ (j <> i /\ l !! j = Some q).
Proof.
  intros H.
  destruct (decide (i = j)) as [->|Hne].
  - left. split; [reflexivity|].
    apply list_lookup_insert_Some in H as [(_ & -> & _)|(Hc & _)];
      [reflexivity|congruence].
  - right. rewrite list_lookup_insert_ne in H by exact Hne. auto.
Qed.

Lemma Gate_schedule_reachable n steps :
  forall s s', Gate.reachable n s -> Gate.schedule steps s = Some s' ->
               Gate.reachable n s'.
Proof.
  induction steps as [|[i more] steps IH]; intros s s' Hr H; simpl in H.
  - injection H as <-. exact Hr.
  - destruct (Gate.thread_step i more s) as [s1|] eqn:Hs; [|discriminate].
    exact (IH _ _ (Gate.reachable_step n s i more s1 Hr Hs) H).
Qed.

Lemma Gate_inv_init n : Gate.inv (Gate.init n).
Proof.
  split; unfold Gate.init; simpl.
  - intros i p Hp Hh. apply lookup_replicate in Hp as [-> _]. discriminate.
  - intros i p Hp Ho. apply lookup_replicate in Hp as [-> _]. discriminate.
  - intros i Hp. apply lookup_replicate in Hp as [Hp _]. discriminate.
  - intros i j p q Hp _ Ho. apply lookup_replicate in Hp as [-> _]. discriminate.
Qed.

(** The cases of a lookup after a step of goroutine [i], and what the
    invariant before the step says of each goroutine in sight. *)
Ltac gate_others :=
  repeat match goal with
  | H : <[_ := _]> _ !! _ = Some _ |- _ =>
      let Heq := fresh "Heq" in
      apply Gate_lookup_goto in H as [[-> Heq]|[? H]];
      [try discriminate Heq; try subst|]
  end.

Ltac gate_finish Hm Hf Hfree Ho Hi :=
  try discriminate; try reflexivity;
  try (pose proof (Hm _ _ Hi eq_refl));
  try (pose proof (Hf _ _ Hi eq_refl));
  try (pose proof (Hfree _ Hi));
  repeat match goal with
  | H : Gate.pcs _ !! _ = Some ?q, Hh : Gate.holding ?q = true |- _ =>
      pose proof (Hm _ _ H Hh); clear Hh
  | H : Gate.pcs _ !! _ = Some ?q, Hq : Gate.owner ?q = true |- _ =>
      pose proof (Hf _ _ H Hq);
      try (pose proof (Ho _ _ _ _ H Hi Hq eq_refl));
      revert Hq
  | H : Gate.pcs _ !! _ = Some Gate.Free |- _ =>
      pose proof (Hfree _ H); pose proof (Hm _ _ H eq_refl); revert H
  end;
  intros; try congruence; eauto.

Lemma Gate_inv_step s i more s' :
  Gate.inv s -> Gate.thread_step i more s = Some s' -> Gate.inv s'.
Proof.
  intros [Hm Hf Hfree Ho]. unfold Gate.thread_step.
  destruct (Gate.pcs s !! i) as [p|] eqn:Hi; [|discriminate].
  destruct p;
    repeat match goal with
    | |- context [match Gate.mutex s with _ => _ end] =>
        destruct (Gate.mutex s) eqn:?
    | |- context [if Gate.resetting s then _ else _] =>
        destruct (Gate.resetting s) eqn:?
    | |- context [if more then _ else _] => destruct more
    end;
    intros H; try discriminate; injection H as <-;
    (split; simpl;
     [intros j q Hj Hh|intros j q Hj Hq|intros j Hj|intros j k q q' Hj Hk Hq Hq'];
     gate_others; gate_finish Hm Hf Hfree Ho Hi).
Qed.

Lemma Gate_reachable_inv n s : Gate.reachable n s -> Gate.inv s.
Proof.
  induction 1 as [|s i more s' _ IH Hs];
    eauto using Gate_inv_init, Gate_inv_step.
Qed.

Lemma Gate_held_step s i more s' :
  Gate.held s -> Gate.thread_step i more s = Some s' -> Gate.held s'.
Proof.
  intros Hh. unfold Gate.thread_step.
  destruct (Gate.pcs s !! i) as [p|] eqn:Hi; [|discriminate].
  assert (Hlt : (i < length (Gate.pcs s))%nat) by (apply lookup_lt_Some in Hi; exact Hi).
  destruct p;
    repeat match goal with
    | |- context [match Gate.mutex s with _ => _ end] =>
        destruct (Gate.mutex s) eqn:?
    | |- context [if Gate.resetting s then _ else _] =>
        destruct (Gate.resetting s) eqn:?
    | |- context [if more then _ else _] => destruct more
    end;
    intros H; try discriminate; injection H as <-; intros h Hmu; simpl in *;
    try discriminate;
    try (injection Hmu as <-; eexists; split;
         [apply list_lookup_insert_eq; exact Hlt|reflexivity]);
    try (destruct (Hh h) as (q & Hq & Hhq); [congruence|];
         destruct (decide (h = i)) as [->|Hne];
         [rewrite Hi in Hq; injection Hq as <-; simpl in Hhq;
          first [discriminate Hhq
                |eexists; split;
                 [apply list_lookup_insert_eq; exact Hlt|reflexivity]]
         |exists q; split; [|exact Hhq];
          rewrite list_lookup_insert_ne by (intros Heq; apply Hne; symmetry; exact Heq);
          exact Hq]);
    try (apply Hh; exact Hmu).
Qed.

Lemma Gate_reachable_held n s : Gate.reachable n s -> Gate.held s.
Proof.
  induction 1 as [|s i more s' _ IH Hs]; [|exact (Gate_held_step _ _ _ _ IH Hs)].
  intros h Hmu. discriminate.
Qed.

Lemma Gate_holder_steps s h p more :
  Gate.pcs s !! h = Some p -> Gate.holding p = true ->
  Gate.thread_step h more s <> None.
Proof.
  intros Hp Hh. unfold Gate.thread_step. rewrite Hp.
  destruct p; try discriminate; destruct (Gate.resetting s); discriminate.
Qed.

(** C9. Whatever the interleaving of any number of goroutines calling
    [Incr] and [Rate]: at most one of them is in the rotation loop, and
    while one is there the flag is set; a goroutine that then tests the flag
    finds it set, and its next step and the one after (unlock, return) are
    never blocked and take it out of the call without entering the loop and
    without waiting for the rotation to end.  A goroutine is blocked only
    at a [Lock] while another one holds the mutex, and the holder is never
    blocked. *)
Theorem single_rotator_skip_on_contention :
  forall (n : nat) (s : Gate.state),
    Gate.reachable n s ->
    (forall i j,
       Gate.pcs s !! i = Some Gate.Rotating ->
       Gate.pcs s !! j = Some Gate.Rotating -> i = j) /\
    (forall i, Gate.pcs s !! i = Some Gate.Rotating ->
               Gate.resetting s = true) /\
    (forall i j more,
       Gate.pcs s !! j = Some Gate.Rotating ->
       Gate.pcs s !! i = Some Gate.Locked ->
       exists s1,
         Gate.thread_step i more s = Some s1 /\
         Gate.pcs s1 !! i = Some Gate.Busy /\
         Gate.pcs s1 !! j = Some Gate.Rotating) /\
    (forall i more,
       Gate.pcs s !! i = Some Gate.Busy ->
       exists s2,
         Gate.thread_step i more s = Some s2 /\
         Gate.pcs s2 !! i = Some Gate.Idle /\
         Gate.mutex s2 = None /\
         Gate.resetting s2 = Gate.resetting s) /\
    (forall i p more,
       Gate.pcs s !! i = Some p ->
       Gate.thread_step i more s = None ->
       (p = Gate.WantLock \/ p = Gate.DeferWantLock) /\
       exists h, h <> i /\ Gate.mutex s = Some h /\
                 forall more', Gate.thread_step h more' s <> None).
Proof.
  intros n s Hr. pose proof (Gate_reachable_held n s Hr) as Hheld.
  apply Gate_reachable_inv in Hr as [Hm Hf Hfree Ho].
  split; [|split; [|split; [|split]]].
  - intros i j Hi Hj. exact (Ho _ _ _ _ Hi Hj eq_refl eq_refl).
  - intros i Hi. exact (Hf _ _ Hi eq_refl).
  - intros i j more Hj Hi. unfold Gate.thread_step.
    rewrite Hi, (Hf _ _ Hj eq_refl). eexists. split; [reflexivity|].
    simpl. split.
    + apply list_lookup_insert_eq. apply lookup_lt_Some in Hi. exact Hi.
    + rewrite list_lookup_insert_ne; [exact Hj|]. intros ->. congruence.
  - intros i more Hi. unfold Gate.thread_step. rewrite Hi.
    eexists. split; [reflexivity|]. simpl. split; [|split; reflexivity].
    apply list_lookup_insert_eq. apply lookup_lt_Some in Hi. exact Hi.
  - intros i p more Hi Hnone. unfold Gate.thread_step in Hnone.
    rewrite Hi in Hnone.
    destruct p; try discriminate;
      try (destruct (Gate.resetting s); discriminate);
      try (destruct more; discriminate);
      (destruct (Gate.mutex s) as [h|] eqn:Hmu; [|discriminate];
       split; [auto|]; destruct (Hheld h Hmu) as (q & Hq & Hhq);
       exists h; split; [intros ->; rewrite Hi in Hq; injection Hq as <-;
                         discriminate Hhq|];
       split; [reflexivity|]; intros more';
       exact (Gate_holder_steps s h q more' Hq Hhq)).
Qed.

Lemma Gate_contended_reachable : Gate.reachable 3 Gate.contended.
Proof.
  apply (Gate_schedule_reachable 3
           [(0, false); (0, false); (0, false); (0, false); (0, false);
            (1, false); (1, false)]%nat (Gate.init 3));
    [apply Gate.reachable_init|reflexivity].
Qed.

Lemma single_rotator_skip_on_contention_witness :
  Gate.reachable 3 Gate.contended /\
  Gate.pcs Gate.contended !! 0%nat = Some Gate.Rotating /\
  Gate.pcs Gate.contended !! 1%nat = Some Gate.Locked /\
  exists s1,
    Gate.thread_step 1 false Gate.contended = Some s1 /\
    Gate.pcs s1 !! 1%nat = Some Gate.Busy /\
    Gate.pcs s1 !! 0%nat = Some Gate.Rotating.
Proof.
  split; [exact Gate_contended_reachable|].
  split; [reflexivity|]. split; [reflexivity|].
  exact (proj1 (proj2 (proj2 (single_rotator_skip_on_contention 3 Gate.contended
                                Gate_contended_reachable)))
           1%nat 0%nat false eq_refl eq_refl).
Defined.
(** * The rest of the code *)

(** ** Signs of binary32 values *)

Lemma sign_clear_round_aux m e l :
  sign_clear (binary_round_aux F32.prec F32.emax false m e l) = true.
Proof.
  unfold binary_round_aux.
  destruct (shr_fexp F32.prec F32.emax m e l) as [mrs e'].
  destruct (shr_fexp _ _ _ _ _) as [mrs2 e2].
  destruct (shr_m mrs2); [reflexivity| |reflexivity].
  destruct (_ <=? _); reflexivity.
Qed.

Lemma sign_clear_of_Z n : 0 <= n -> sign_clear (F32.of_Z n) = true.
Proof.
  intros Hn. unfold F32.of_Z, binary_normalize.
  destruct n as [|m|m]; [reflexivity| |lia].
  unfold binary_round. destruct (shl_align _ _ _) as [mz ez].
  apply sign_clear_round_aux.
Qed.

Lemma sign_clear_div x y :
  sign_clear x = true -> sign_clear y = true ->
  sign_clear (F32.div x y) = true.
Proof.
  unfold F32.div, SFdiv.
  destruct x as [[|]|[|]| |[|] mx ex]; simpl; try discriminate;
    destruct y as [[|]|[|]| |[|] my ey]; simpl; try discriminate;
    try reflexivity.
  intros _ _. destruct (SFdiv_core_binary _ _ _ _ _ _) as [[mz ez] lz].
  apply sign_clear_round_aux.
Qed.

Lemma gtb_zero_sign_clear y :
  sign_clear y = true -> F32.gtb (S754_zero false) y = false.
Proof.
  unfold F32.gtb, SFltb.
  destruct y as [[|]|[|]| |[|] m e]; simpl; try discriminate; reflexivity.
Qed.

Lemma sign_clear_partialInterval W R :
  0 <= W -> 0 <= R -> sign_clear (RateCounter.partialInterval_of W R) = true.
Proof.
  intros HW HR. unfold RateCounter.partialInterval_of.
  apply sign_clear_div; apply sign_clear_of_Z; assumption.
Qed.

(** ** Calls at the clock reading of the last rotation *)

Lemma rotations_at_resetTime r now :
  0 <= RateCounter.interval r -> RateCounter.resetTime r = now ->
  rotations r now = O.
Proof.
  intros HW <-. unfold rotations. apply iterations_first.
  unfold RateCounter.timeDiff_of. rewrite Z.sub_diag.
  change (F32.of_Z (uint64 0)) with (S754_zero false).
  apply gtb_zero_sign_clear, sign_clear_partialInterval; lia.
Qed.

Lemma rotations_ext r r' now :
  length (RateCounter.partials r') = length (RateCounter.partials r) ->
  RateCounter.interval r' = RateCounter.interval r ->
  RateCounter.resetTime r' = RateCounter.resetTime r ->
  rotations r' now = rotations r now.
Proof. unfold rotations. intros -> -> ->. reflexivity. Qed.

(** Once a call has been made at [now], a further call at [now] finds no
    rotation to do. *)
Lemma rotations_settled r now r' :
  wf r -> 0 <= RateCounter.interval r ->
  length (RateCounter.partials r')
  = length (RateCounter.partials (rotated (rotations r now) now r)) ->
  RateCounter.interval r'
  = RateCounter.interval (rotated (rotations r now) now r) ->
  RateCounter.resetTime r'
  = RateCounter.resetTime (rotated (rotations r now) now r) ->
  rotations r' now = O.
Proof.
  intros Hwf HW Hl Hi Ht.
  assert (HR : 0 < Z.of_nat (length (RateCounter.partials r)))
    by (destruct Hwf as [Hc _ _]; lia).
  destruct (rotated_fields (rotations r now) now r HR (wf_current r Hwf))
    as (Hl' & Hi' & _ & Ht').
  destruct (rotations r now) as [|k] eqn:Hk.
  - rewrite <- Hk. apply rotations_ext; congruence.
  - apply rotations_at_resetTime; congruence.
Qed.

Lemma rotate_credit k R c tot (bs : list Counter.t) v :
  rotate k R c (Counter.Incr tot v) bs
  = ((rotate k R c tot bs).1.1,
     Counter.Incr (rotate k R c tot bs).1.2 v,
     (rotate k R c tot bs).2).
Proof.
  revert c tot bs. induction k as [|k IH]; intros c tot bs; [reflexivity|].
  cbn [rotate]. cbv zeta.
  set (pv := match bs !! Z.to_nat ((c + 1) mod R) with Some p => p | None => 0 end).
  replace (uint32 (Counter.Incr tot v - pv)) with (Counter.Incr (uint32 (tot - pv)) v).
  - apply IH.
  - rewrite !Counter_Incr_spec, uint32_add_l, uint32_sub_l. f_equal. lia.
Qed.

Lemma rotated_credit k now v r :
  rotated k now (credit v r) = credit v (rotated k now r).
Proof.
  destruct k as [|k]; [reflexivity|]. unfold rotated.
  cbn [credit RateCounter.partials RateCounter.current RateCounter.counter
       RateCounter.interval].
  rewrite rotate_credit.
  destruct (rotate (S k) _ _ _ _) as [[c tot] bs]. reflexivity.
Qed.

(** [Incr(v)] is the rotation of the call, then [v] added to the total and
    to the current bucket. *)
Lemma Incr_shape r v now :
  wf r ->
  RateCounter.Incr r v now
  = Ok (bump v (credit v (rotated (rotations r now) now r))).
Proof.
  intros Hwf. rewrite (Incr_rotated r v now Hwf), rotated_credit. reflexivity.
Qed.

Lemma wf_bump v r : wf r -> wf (bump v r).
Proof.
  intros [Hc Hl Hi]. split; cbn [bump RateCounter.partials RateCounter.current
                                  RateCounter.resetting];
    rewrite ?length_alter; assumption.
Qed.

Lemma bump_credit_twice a b r :
  bump b (credit b (bump a (credit a r))) = bump (a + b) (credit (a + b) r).
Proof.
  unfold bump, credit.
  cbn [RateCounter.counter RateCounter.partials RateCounter.resetTime
       RateCounter.current RateCounter.resetting RateCounter.interval].
  f_equal.
  - rewrite !Counter_Incr_spec, uint32_add_l. f_equal. lia.
  - rewrite list_alter_alter_eq. apply list_alter_ext; [|reflexivity].
    intros p _. cbn. rewrite !Counter_Incr_spec, uint32_add_l. f_equal. lia.
Qed.

Lemma wf_after_scenario : wf after_scenario.
Proof.
  split; [vm_compute; split; [discriminate|reflexivity]
         |vm_compute; discriminate|reflexivity].
Qed.

(** X1. A second [Rate()] at the clock reading of the first finds nothing to
    rotate, whatever the first one did: it returns the same value and
    leaves the state the first one left. *)
Theorem Rate_again_at_same_time :
  forall (r : RateCounter.t) (now : Z),
    wf r -> 0 <= RateCounter.interval r ->
    exists r' v,
      RateCounter.Rate r now = Ok (r', v) /\
      RateCounter.Rate r' now = Ok (r', v).
Proof.
  intros r now Hwf HW.
  exists (rotated (rotations r now) now r),
         (Counter.Value (RateCounter.counter (rotated (rotations r now) now r))).
  split; [exact (Rate_rotated r now Hwf)|].
  rewrite (Rate_rotated _ now (rotated_wf _ now r Hwf eq_refl)).
  rewrite (rotations_settled r now _ Hwf HW eq_refl eq_refl eq_refl).
  reflexivity.
Qed.

Lemma Rate_again_at_same_time_witness :
  wf after_scenario /\ 0 <= RateCounter.interval after_scenario /\
  exists r' v,
    RateCounter.Rate after_scenario 1234 = Ok (r', v) /\
    RateCounter.Rate r' 1234 = Ok (r', v).
Proof.
  assert (HW : 0 <= RateCounter.interval after_scenario) by (simpl; lia).
  split; [exact wf_after_scenario|]. split; [exact HW|].
  exact (Rate_again_at_same_time after_scenario 1234 wf_after_scenario HW).
Defined.

(** X2. [Incr(v)] does what [Rate()] does at the same clock reading and then
    adds [v] to the total and to the current bucket: that the source adds
    to the total before it rotates makes no difference. *)
Theorem Incr_is_rotation_then_add :
  forall (r : RateCounter.t) (v now : Z),
    wf r ->
    exists r' x,
      RateCounter.Rate r now = Ok (r', x) /\
      RateCounter.Incr r v now = Ok (bump v (credit v r')) /\
      Counter.Value (RateCounter.counter (bump v (credit v r')))
      = uint32 (x + v).
Proof.
  intros r v now Hwf.
  exists (rotated (rotations r now) now r),
         (Counter.Value (RateCounter.counter (rotated (rotations r now) now r))).
  split; [exact (Rate_rotated r now Hwf)|].
  split; [exact (Incr_shape r v now Hwf)|].
  cbn [bump credit RateCounter.counter]. unfold Counter.Value.
  apply Counter_Incr_spec.
Qed.

Lemma Incr_is_rotation_then_add_witness :
  wf after_scenario /\
  exists r' x,
    RateCounter.Rate after_scenario 1234 = Ok (r', x) /\
    RateCounter.Incr after_scenario 7 1234 = Ok (bump 7 (credit 7 r')) /\
    Counter.Value (RateCounter.counter (bump 7 (credit 7 r')))
    = uint32 (x + 7).
Proof.
  split; [exact wf_after_scenario|].
  exact (Incr_is_rotation_then_add after_scenario 7 1234 wf_after_scenario).
Defined.

(** X3. Two [Incr]s at one clock reading are one [Incr] of the sum of their
    deltas: the second finds nothing to rotate. *)
Theorem Incr_twice_at_same_time :
  forall (r : RateCounter.t) (a b now : Z),
    wf r -> 0 <= RateCounter.interval r ->
    exists r1 r2,
      RateCounter.Incr r a now = Ok r1 /\
      RateCounter.Incr r1 b now = Ok r2 /\
      RateCounter.Incr r (a + b) now = Ok r2.
Proof.
  intros r a b now Hwf HW.
  set (s := rotated (rotations r now) now r).
  assert (Hs : wf s) by exact (rotated_wf _ now r Hwf eq_refl).
  assert (H1 : wf (bump a (credit a s))) by (apply wf_bump, wf_credit, Hs).
  exists (bump a (credit a s)), (bump (a + b) (credit (a + b) s)).
  split; [exact (Incr_shape r a now Hwf)|].
  split; [|exact (Incr_shape r (a + b) now Hwf)].
  rewrite (Incr_shape _ b now H1).
  rewrite (rotations_settled r now (bump a (credit a s)) Hwf HW).
  - cbn [rotated]. rewrite bump_credit_twice. reflexivity.
  - cbn [bump credit RateCounter.partials]. apply length_alter.
  - reflexivity.
  - reflexivity.
Qed.

Lemma Incr_twice_at_same_time_witness :
  wf after_scenario /\ 0 <= RateCounter.interval after_scenario /\
  exists r1 r2,
    RateCounter.Incr after_scenario 5 1234 = Ok r1 /\
    RateCounter.Incr r1 (-5) 1234 = Ok r2 /\
    RateCounter.Incr after_scenario (5 + -5) 1234 = Ok r2.
Proof.
  assert (HW : 0 <= RateCounter.interval after_scenario) by (simpl; lia).
  split; [exact wf_after_scenario|]. split; [exact HW|].
  exact (Incr_twice_at_same_time after_scenario 5 (-5) 1234
           wf_after_scenario HW).
Defined.

(** X4. A [Rate()] at the clock reading of an [Incr(v)] returns what it would
    have returned without the [Incr], plus [v], modulo 2^32, and changes
    nothing. *)
Theorem Rate_reflects_Incr_at_once :
  forall (r : RateCounter.t) (v now : Z),
    wf r -> 0 <= RateCounter.interval r ->
    exists r' x r1,
      RateCounter.Rate r now = Ok (r', x) /\
      RateCounter.Incr r v now = Ok r1 /\
      RateCounter.Rate r1 now = Ok (r1, uint32 (x + v)).
Proof.
  intros r v now Hwf HW.
  set (s := rotated (rotations r now) now r).
  assert (Hs : wf s) by exact (rotated_wf _ now r Hwf eq_refl).
  assert (H1 : wf (bump v (credit v s))) by (apply wf_bump, wf_credit, Hs).
  exists s, (Counter.Value (RateCounter.counter s)), (bump v (credit v s)).
  split; [exact (Rate_rotated r now Hwf)|].
  split; [exact (Incr_shape r v now Hwf)|].
  rewrite (Rate_rotated _ now H1).
  rewrite (rotations_settled r now (bump v (credit v s)) Hwf HW).
  - cbn [rotated bump credit RateCounter.counter]. unfold Counter.Value.
    rewrite Counter_Incr_spec. reflexivity.
  - cbn [bump credit RateCounter.partials]. apply length_alter.
  - reflexivity.
  - reflexivity.
Qed.

Lemma Rate_reflects_Incr_at_once_witness :
  wf after_scenario /\ 0 <= RateCounter.interval after_scenario /\
  exists r' x r1,
    RateCounter.Rate after_scenario 1234 = Ok (r', x) /\
    RateCounter.Incr after_scenario 7 1234 = Ok r1 /\
    RateCounter.Rate r1 1234 = Ok (r1, uint32 (x + 7)).
Proof.
  assert (HW : 0 <= RateCounter.interval after_scenario) by (simpl; lia).
  split; [exact wf_after_scenario|]. split; [exact HW|].
  exact (Rate_reflects_Incr_at_once after_scenario 7 1234
           wf_after_scenario HW).
Defined.

(** ** What a rotation does to the ring *)

Lemma iterations_le fuel pI R i td :
  (iterations fuel pI R i td <= Z.to_nat (R - i))%nat.
Proof.
  revert i td. induction fuel as [|fuel IH]; intros i td; simpl; [lia|].
  destruct (F32.gtb td pI); simpl; [|lia].
  destruct (Z.ltb_spec i R); [|lia].
  specialize (IH (i + 1) (F32.sub td pI)). lia.
Qed.

Lemma rotations_le r now :
  (rotations r now <= length (RateCounter.partials r))%nat.
Proof.
  unfold rotations.
  pose proof (iterations_le (S (length (RateCounter.partials r)))
                (RateCounter.partialInterval_of (RateCounter.interval r)
                   (Z.of_nat (length (RateCounter.partials r))))
                (Z.of_nat (length (RateCounter.partials r))) 0
                (RateCounter.timeDiff_of now (RateCounter.resetTime r))) as H.
  lia.
Qed.

Lemma evicted_shift R c i s k :
  existsb (fun j => (c + Z.of_nat j) mod R =? Z.of_nat i) (seq (S s) k)
  = existsb (fun j => ((c + 1) mod R + Z.of_nat j) mod R =? Z.of_nat i)
      (seq s k).
Proof.
  revert s. induction k as [|k IH]; intros s; [reflexivity|].
  cbn [seq existsb]. rewrite IH. f_equal.
  rewrite Zplus_mod_idemp_l. do 2 f_equal. lia.
Qed.

Lemma evicted_S R c k i :
  evicted R c (S k) i
  = ((c + 1) mod R =? Z.of_nat i) || evicted R ((c + 1) mod R) k i.
Proof.
  unfold evicted. cbn [seq existsb]. rewrite evicted_shift. reflexivity.
Qed.

Lemma rotate_lookup k R c tot (bs : list Counter.t) i :
  0 < R -> R = Z.of_nat (length bs) -> (i < length bs)%nat ->
  (rotate k R c tot bs).2 !! i
  = if evicted R c k i then Some 0 else bs !! i.
Proof.
  intros HR. revert c tot bs.
  induction k as [|k IH]; intros c tot bs Hlen Hi; [reflexivity|].
  cbn [rotate]. cbv zeta. rewrite evicted_S.
  pose proof (Z.mod_pos_bound (c + 1) R HR) as Hn.
  rewrite IH by (rewrite ?length_insert; assumption).
  destruct (evicted R ((c + 1) mod R) k i); [rewrite orb_true_r; reflexivity|].
  rewrite orb_false_r.
  destruct (Z.eqb_spec ((c + 1) mod R) (Z.of_nat i)) as [He|He].
  - rewrite He, Nat2Z.id. apply list_lookup_insert_eq. exact Hi.
  - apply list_lookup_insert_ne. lia.
Qed.

Lemma uint32_opp z : uint32 z = 0 -> uint32 (- z) = 0.
Proof. unfold uint32. intros H. apply Z_mod_zero_opp_full. exact H. Qed.

(** X5. A [Rate()] that rotates [k] buckets moves the current index [k] places
    round the ring, sets the [k] buckets after the old index to zero and
    leaves the others; the total goes down by what the buckets lost, modulo
    2^32.  It never rotates more buckets than the ring has, and it moves
    the time of the last rotation to the clock reading exactly when it
    rotates. *)
Theorem Rate_evicts_following_buckets :
  forall (r : RateCounter.t) (now : Z),
    wf r ->
    exists r' v,
      RateCounter.Rate r now = Ok (r', v) /\
      v = Counter.Value (RateCounter.counter r') /\
      (rotations r now <= length (RateCounter.partials r))%nat /\
      RateCounter.current r'
      = (RateCounter.current r + Z.of_nat (rotations r now))
        mod Z.of_nat (length (RateCounter.partials r)) /\
      length (RateCounter.partials r') = length (RateCounter.partials r) /\
      RateCounter.interval r' = RateCounter.interval r /\
      RateCounter.resetTime r'
      = match rotations r now with
        | O => RateCounter.resetTime r
        | S _ => now
        end /\
      (rotations r now = O -> r' = r) /\
      (forall i, (i < length (RateCounter.partials r))%nat ->
         RateCounter.partials r' !! i
         = if evicted (Z.of_nat (length (RateCounter.partials r)))
                (RateCounter.current r) (rotations r now) i
           then Some 0 else RateCounter.partials r !! i) /\
      uint32 (RateCounter.counter r - RateCounter.counter r')
      = uint32 (sum_partials r - sum_partials r').
Proof.
  intros r now Hwf.
  assert (HR : 0 < Z.of_nat (length (RateCounter.partials r)))
    by (destruct Hwf as [Hc _ _]; lia).
  destruct (rotated_fields (rotations r now) now r HR (wf_current r Hwf))
    as (Hl & Hi & Hc & Ht).
  pose proof (updatePartials_rotated r 0 now Hwf) as Hu.
  pose proof (updatePartials_preserves _ _ _ _ _ Hu) as (Hd & _).
  exists (rotated (rotations r now) now r),
         (Counter.Value (RateCounter.counter (rotated (rotations r now) now r))).
  split; [exact (Rate_rotated r now Hwf)|]. split; [reflexivity|].
  split; [apply rotations_le|]. split; [exact Hc|]. split; [exact Hl|].
  split; [exact Hi|]. split; [exact Ht|].
  split; [intros ->; reflexivity|]. split.
  - intros i Hlt. unfold rotated.
    destruct (rotations r now) as [|k] eqn:Hk; [reflexivity|].
    pose proof (rotate_lookup (S k) (Z.of_nat (length (RateCounter.partials r)))
                  (RateCounter.current r) (RateCounter.counter r)
                  (RateCounter.partials r) i HR eq_refl Hlt) as H.
    destruct (rotate (S k) _ _ _ _) as [[c tot] bs]. exact H.
  - unfold drift in Hd. apply uint32_eq_iff in Hd.
    apply uint32_eq_iff. unfold sum_partials. rewrite !map_Value.
    apply uint32_opp in Hd. rewrite <- Hd. f_equal. lia.
Qed.

Lemma Rate_evicts_following_buckets_witness :
  wf after_scenario /\
  exists r' v,
    RateCounter.Rate after_scenario 1234 = Ok (r', v) /\
    v = Counter.Value (RateCounter.counter r') /\
    (rotations after_scenario 1234
     <= length (RateCounter.partials after_scenario))%nat /\
    RateCounter.current r'
    = (RateCounter.current after_scenario
       + Z.of_nat (rotations after_scenario 1234))
      mod Z.of_nat (length (RateCounter.partials after_scenario)) /\
    length (RateCounter.partials r')
    = length (RateCounter.partials after_scenario) /\
    RateCounter.interval r' = RateCounter.interval after_scenario /\
    RateCounter.resetTime r'
    = match rotations after_scenario 1234 with
      | O => RateCounter.resetTime after_scenario
      | S _ => 1234
      end /\
    (rotations after_scenario 1234 = O -> r' = after_scenario) /\
    (forall i, (i < length (RateCounter.partials after_scenario))%nat ->
       RateCounter.partials r' !! i
       = if evicted (Z.of_nat (length (RateCounter.partials after_scenario)))
              (RateCounter.current after_scenario)
              (rotations after_scenario 1234) i
         then Some 0 else RateCounter.partials after_scenario !! i) /\
    uint32 (RateCounter.counter after_scenario - RateCounter.counter r')
    = uint32 (sum_partials after_scenario - sum_partials r').
Proof.
  split; [exact wf_after_scenario|].
  exact (Rate_evicts_following_buckets after_scenario 1234 wf_after_scenario).
Defined.

(** ** Calls in any order *)

Lemma wf_NewRateCounter intrvl now : wf (RateCounter.NewRateCounter intrvl now).
Proof.
  split; [vm_compute; split; [discriminate|reflexivity]
         |vm_compute; discriminate|reflexivity].
Qed.

Lemma exec_wf r c :
  wf r -> indexable c = true -> exists r', exec r c = Ok r' /\ wf r'.
Proof.
  intros Hwf Hc. destruct c as [[v now|now]|n]; cbn [exec step].
  - rewrite (Incr_shape r v now Hwf). eexists. split; [reflexivity|].
    apply wf_bump, wf_credit. exact (rotated_wf _ now r Hwf eq_refl).
  - rewrite (Rate_rotated r now Hwf). cbn [bind fst]. eexists.
    split; [reflexivity|]. exact (rotated_wf _ now r Hwf eq_refl).
  - cbn [indexable] in Hc. apply andb_prop in Hc as [H1 H31].
    apply Z.leb_le in H1. apply Z.leb_le in H31.
    unfold RateCounter.WithResolution.
    destruct (Z.ltb_spec n 1) as [|_]; [lia|].
    rewrite make_Ok
      by (unfold RateCounter.maxAlloc;
          assert (4 * 2 ^ 31 <= 2 ^ 48) by (vm_compute; discriminate); lia).
    cbn [bind]. eexists. split; [reflexivity|].
    split; cbn [RateCounter.partials RateCounter.current RateCounter.resetting];
      rewrite ?length_replicate; [lia|lia|exact (wf_idle r Hwf)].
Qed.

Lemma exec_all_wf cs : forall r,
  wf r -> forallb indexable cs = true ->
  exists r', exec_all r cs = Ok r' /\ wf r'.
Proof.
  induction cs as [|c cs IH]; intros r Hwf Hcs; cbn [exec_all].
  - exists r. split; [reflexivity|exact Hwf].
  - cbn [forallb] in Hcs. apply andb_prop in Hcs as [Hc Hcs].
    destruct (exec_wf r c Hwf Hc) as (r1 & -> & Hwf1). cbn [bind].
    exact (IH r1 Hwf1 Hcs).
Qed.

Lemma exec_all_app cs cs' r :
  exec_all r (cs ++ cs') = let* r' := exec_all r cs in exec_all r' cs'.
Proof.
  revert r. induction cs as [|c cs IH]; intros r; cbn [exec_all app bind];
    [reflexivity|].
  destruct (exec r c) as [r1| |]; cbn [bind]; [apply IH|reflexivity|reflexivity].
Qed.

(** X6. From [NewRateCounter], calls of [Incr], [Rate] and [WithResolution(n)]
    with [1 <= n <= 2^31], in any order and at any clock readings, all
    return: no bucket index is ever out of range.  The one panic left is
    that of [WithResolution(n)] with [n < 1]. *)
Theorem calls_never_index_out_of_range :
  forall (intrvl t0 : Z) (cs : list call),
    forallb indexable cs = true ->
    (exists r,
       exec_all (RateCounter.NewRateCounter intrvl t0) cs = Ok r /\
       0 <= RateCounter.current r
         < Z.of_nat (length (RateCounter.partials r)) /\
       RateCounter.resetting r = false) /\
    (forall n rest, n < 1 ->
       exec_all (RateCounter.NewRateCounter intrvl t0)
         (cs ++ Reconfigure n :: rest)
       = Panic "RateCounter resolution cannot be less than 1").
Proof.
  intros intrvl t0 cs Hcs.
  destruct (exec_all_wf cs _ (wf_NewRateCounter intrvl t0) Hcs)
    as (r & Hr & Hwf).
  split.
  - exists r. split; [exact Hr|].
    split; [exact (wf_current r Hwf)|exact (wf_idle r Hwf)].
  - intros n rest Hn. rewrite exec_all_app, Hr. cbn [bind exec_all exec].
    unfold RateCounter.WithResolution.
    destruct (Z.ltb_spec n 1) as [_|]; [reflexivity|lia].
Qed.

Lemma calls_never_index_out_of_range_witness :
  forallb indexable
    [Call (OpIncr 1 0); Reconfigure 3; Call (OpIncr 2 5000);
     Call (OpRate 100000); Reconfigure 1; Call (OpIncr (-4) 7)] = true /\
  (exists r,
     exec_all (RateCounter.NewRateCounter second 0)
       [Call (OpIncr 1 0); Reconfigure 3; Call (OpIncr 2 5000);
        Call (OpRate 100000); Reconfigure 1; Call (OpIncr (-4) 7)] = Ok r /\
     0 <= RateCounter.current r
       < Z.of_nat (length (RateCounter.partials r)) /\
     RateCounter.resetting r = false) /\
  (forall n rest, n < 1 ->
     exec_all (RateCounter.NewRateCounter second 0)
       ([Call (OpIncr 1 0); Reconfigure 3; Call (OpIncr 2 5000);
         Call (OpRate 100000); Reconfigure 1; Call (OpIncr (-4) 7)]
        ++ Reconfigure n :: rest)
     = Panic "RateCounter resolution cannot be less than 1").
Proof.
  assert (H : forallb indexable
                [Call (OpIncr 1 0); Reconfigure 3; Call (OpIncr 2 5000);
                 Call (OpRate 100000); Reconfigure 1; Call (OpIncr (-4) 7)]
              = true) by reflexivity.
  split; [exact H|].
  exact (calls_never_index_out_of_range second 0 _ H).
Defined.

(** ** Counting without wrap-around *)

Lemma run_wf ops : forall r, wf r -> exists r', run r ops = Ok r' /\ wf r'.
Proof.
  induction ops as [|o ops IH]; intros r Hwf; cbn [run].
  - exists r. split; [reflexivity|exact Hwf].
  - destruct (exec_wf r (Call o) Hwf eq_refl) as (r1 & H1 & Hwf1).
    cbn [exec] in H1. rewrite H1. cbn [bind]. exact (IH r1 Hwf1).
Qed.

Lemma run_floor_le ops : forall r r' t0,
  run r ops = Ok r' ->
  0 <= t0 -> Forall (fun o => 0 <= delta o) ops ->
  RateCounter.counter r + deltas ops < 2 ^ 32 ->
  floor_inv t0 (RateCounter.counter r) (RateCounter.partials r) ->
  floor_inv t0 (RateCounter.counter r') (RateCounter.partials r') /\
  RateCounter.counter r' <= RateCounter.counter r + deltas ops.
Proof.
  induction ops as [|o ops IH]; intros r r' t0 H Ht0 Hd Hlt Hf; simpl in H.
  - injection H as <-. split; [exact Hf|]. unfold deltas. simpl. lia.
  - apply bind_Ok in H as (r1 & Hs & H).
    apply Forall_cons in Hd as [Hd0 Hd].
    unfold deltas in *. simpl in *. fold (deltas ops) in *.
    assert (Hds : 0 <= deltas ops).
    { unfold deltas. apply sumZ_nonneg. apply Forall_map. exact Hd. }
    apply (step_floor _ _ _ t0) in Hs as [Hf1 Hle]; try lia; [|exact Hf].
    destruct (IH r1 r' t0 H Ht0 Hd ltac:(unfold deltas in *; lia) Hf1)
      as [Hf' Hle'].
    split; [exact Hf'|]. unfold deltas in *. lia.
Qed.

Lemma Rate_floor r now t0 :
  wf r -> 0 <= t0 -> RateCounter.counter r < 2 ^ 32 ->
  floor_inv t0 (RateCounter.counter r) (RateCounter.partials r) ->
  exists r' v,
    RateCounter.Rate r now = Ok (r', v) /\ wf r' /\
    floor_inv t0 (RateCounter.counter r') (RateCounter.partials r') /\
    v = RateCounter.counter r' /\ v <= RateCounter.counter r.
Proof.
  intros Hwf Ht0 Hlt Hf.
  pose proof (updatePartials_rotated r 0 now Hwf) as Hu.
  destruct (updatePartials_floor _ _ _ _ _ t0 Hu Ht0 Hlt Hf) as [Hf' Hle].
  exists (rotated (rotations r now) now r),
         (Counter.Value (RateCounter.counter (rotated (rotations r now) now r))).
  split; [exact (Rate_rotated r now Hwf)|].
  split; [exact (rotated_wf _ now r Hwf eq_refl)|].
  split; [exact Hf'|]. split; [reflexivity|exact Hle].
Qed.

(** X7. From a fresh counter, while the deltas are non-negative and add up to
    less than 2^32, [Rate()] never returns more than has been recorded: it
    returns the sum of the buckets as integers, between 0 and the sum of all
    the deltas so far; and with no [Incr] in between, a further [Rate()]
    never returns more than the one before it, at whatever clock readings
    the two are made. *)
Theorem Rate_never_over_counts :
  forall (r0 : RateCounter.t) (ops : list op) (now later : Z),
    configured r0 ->
    Z.of_nat (length (RateCounter.partials r0)) <= 2 ^ 31 ->
    Forall (fun o => 0 <= delta o) ops ->
    deltas ops < 2 ^ 32 ->
    exists r r1 v r2 w,
      run r0 ops = Ok r /\
      RateCounter.Rate r now = Ok (r1, v) /\
      RateCounter.Rate r1 later = Ok (r2, w) /\
      v = sum_partials r1 /\ w = sum_partials r2 /\
      0 <= w /\ w <= v /\ v <= deltas ops.
Proof.
  intros r0 ops now later Hc H31 Hd Hlt.
  pose proof (proj1 (configured_wf r0 Hc) H31) as Hwf0.
  destruct (configured_all_zero r0 Hc) as [Hc0 Hz0].
  assert (Hf0 : floor_inv 0 (RateCounter.counter r0) (RateCounter.partials r0)).
  { split.
    - eapply Forall_impl; [exact Hz0|]. intros p ->. lia.
    - rewrite (sumZ_all_zero _ Hz0). lia. }
  destruct (run_wf ops r0 Hwf0) as (r & Hrun & Hwf).
  destruct (run_floor_le ops r0 r 0 Hrun ltac:(lia) Hd ltac:(lia) Hf0)
    as [Hf Hle].
  destruct (Rate_floor r now 0 Hwf ltac:(lia) ltac:(lia) Hf)
    as (r1 & v & Hr1 & Hwf1 & Hf1 & Hv & Hle1).
  destruct (Rate_floor r1 later 0 Hwf1 ltac:(lia) ltac:(lia) Hf1)
    as (r2 & w & Hr2 & _ & Hf2 & Hw & Hle2).
  exists r, r1, v, r2, w.
  split; [exact Hrun|]. split; [exact Hr1|]. split; [exact Hr2|].
  destruct Hf1 as [_ Hs1]. destruct Hf2 as [Hn2 Hs2].
  unfold sum_partials. rewrite !map_Value.
  split; [lia|]. split; [lia|].
  pose proof (sumZ_nonneg _ Hn2). lia.
Qed.

Lemma Rate_never_over_counts_witness :
  configured fresh_ten /\
  Z.of_nat (length (RateCounter.partials fresh_ten)) <= 2 ^ 31 /\
  Forall (fun o => 0 <= delta o)
    [OpIncr 3 0; OpRate 150; OpIncr 4 420; OpIncr 0 900] /\
  deltas [OpIncr 3 0; OpRate 150; OpIncr 4 420; OpIncr 0 900] < 2 ^ 32 /\
  exists r r1 v r2 w,
    run fresh_ten [OpIncr 3 0; OpRate 150; OpIncr 4 420; OpIncr 0 900]
    = Ok r /\
    RateCounter.Rate r 1100 = Ok (r1, v) /\
    RateCounter.Rate r1 1500 = Ok (r2, w) /\
    v = sum_partials r1 /\ w = sum_partials r2 /\
    0 <= w /\ w <= v /\
    v <= deltas [OpIncr 3 0; OpRate 150; OpIncr 4 420; OpIncr 0 900].
Proof.
  assert (H31 : Z.of_nat (length (RateCounter.partials fresh_ten)) <= 2 ^ 31)
    by (vm_compute; discriminate).
  assert (Hd : Forall (fun o => 0 <= delta o)
                 [OpIncr 3 0; OpRate 150; OpIncr 4 420; OpIncr 0 900])
    by (repeat constructor; simpl; lia).
  assert (Hlt : deltas [OpIncr 3 0; OpRate 150; OpIncr 4 420; OpIncr 0 900]
                < 2 ^ 32) by reflexivity.
  split; [exact fresh_ten_configured|]. split; [exact H31|].
  split; [exact Hd|]. split; [exact Hlt|].
  exact (Rate_never_over_counts fresh_ten _ 1100 1500
           fresh_ten_configured H31 Hd Hlt).
Defined.

(** ** A clock that goes back, a window of no millisecond *)

Lemma rotated_partials k now r :
  k <> O ->
  RateCounter.partials (rotated k now r)
  = (rotate k (Z.of_nat (length (RateCounter.partials r)))
       (RateCounter.current r) (RateCounter.counter r)
       (RateCounter.partials r)).2.
Proof.
  intros Hk. destruct k as [|k]; [congruence|]. unfold rotated.
  destruct (rotate (S k) _ _ _ _) as [[c tot] bs]. reflexivity.
Qed.

(** A call that rotates as many buckets as the ring has empties the
    counter. *)
Lemma rotated_all r now :
  wf r -> sum_inv r ->
  rotations r now = length (RateCounter.partials r) ->
  RateCounter.counter (rotated (rotations r now) now r) = 0 /\
  Forall (fun p => p = 0) (RateCounter.partials (rotated (rotations r now) now r)).
Proof.
  intros Hwf Hinv Hk.
  assert (HR : 0 < Z.of_nat (length (RateCounter.partials r)))
    by (destruct Hwf as [Hc _ _]; lia).
  pose proof (updatePartials_rotated r 0 now Hwf) as Hu.
  pose proof (updatePartials_preserves _ _ _ _ _ Hu) as (Hd & _ & _ & Hc & _).
  assert (Hz : Forall (fun p => p = 0)
                 (RateCounter.partials (rotated (rotations r now) now r))).
  { rewrite rotated_partials by lia. rewrite Hk.
    pose proof (rotate_full (Z.of_nat (length (RateCounter.partials r)))
                  (RateCounter.current r) (RateCounter.counter r)
                  (RateCounter.partials r) HR eq_refl (wf_current r Hwf)) as Hf.
    rewrite Nat2Z.id in Hf. exact Hf. }
  split; [|exact Hz].
  destruct Hinv as [Hd0 Hc0 _]. rewrite Hd0 in Hd. unfold drift in Hd.
  rewrite (sumZ_all_zero _ Hz), Z.sub_0_r in Hd.
  rewrite uint32_small in Hd by (apply Hc, Hc0). exact Hd.
Qed.

(** What [Rate()] and [Incr(v)] make of such a call. *)
Lemma calls_after_rotated_all r v now :
  wf r -> sum_inv r ->
  rotations r now = length (RateCounter.partials r) ->
  exists r' r1,
    RateCounter.Rate r now = Ok (r', 0) /\
    Forall (fun b => Counter.Value b = 0) (RateCounter.partials r') /\
    RateCounter.resetTime r' = now /\
    RateCounter.Incr r v now = Ok r1 /\
    Counter.Value (RateCounter.counter r1) = uint32 v.
Proof.
  intros Hwf Hinv Hk.
  assert (HR : 0 < Z.of_nat (length (RateCounter.partials r)))
    by (destruct Hwf as [Hc _ _]; lia).
  destruct (rotated_all r now Hwf Hinv Hk) as [Hc Hz].
  destruct (rotated_fields (rotations r now) now r HR (wf_current r Hwf))
    as (_ & _ & _ & Ht).
  exists (rotated (rotations r now) now r),
         (bump v (credit v (rotated (rotations r now) now r))).
  split; [|split; [exact Hz|split; [|split]]].
  - rewrite (Rate_rotated r now Hwf). unfold Counter.Value. rewrite Hc.
    reflexivity.
  - rewrite Ht. destruct (rotations r now); [lia|reflexivity].
  - exact (Incr_shape r v now Hwf).
  - cbn [bump credit RateCounter.counter]. unfold Counter.Value.
    rewrite Hc, Counter_Incr_spec. reflexivity.
Qed.

Lemma timeDiff_of_wrap now rt :
  RateCounter.timeDiff_of (now + 2 ^ 64) rt = RateCounter.timeDiff_of now rt.
Proof.
  unfold RateCounter.timeDiff_of, uint64. f_equal.
  replace (now + 2 ^ 64 - rt) with (now - rt + 1 * 2 ^ 64) by lia.
  apply Z_mod_plus_full.
Qed.

(** X8. A clock reading below the time of the last rotation is an elapsed time
    of nearly 2^64 ms: for a window of a whole number of milliseconds per
    bucket below 2^24 ms, the call rotates every bucket.  [Rate()] returns
    0, [Incr(v)] leaves [v] as the total, and the time of the last rotation
    goes back to the reading. *)
Theorem clock_set_back_empties_counter :
  forall (r : RateCounter.t) (p v now : Z),
    reachable r -> regime r p ->
    RateCounter.resetTime r + RateCounter.interval r - 2 ^ 64 < now
      < RateCounter.resetTime r ->
    exists r' r1,
      RateCounter.Rate r now = Ok (r', 0) /\
      Forall (fun b => Counter.Value b = 0) (RateCounter.partials r') /\
      RateCounter.resetTime r' = now /\
      RateCounter.Incr r v now = Ok r1 /\
      Counter.Value (RateCounter.counter r1) = uint32 v.
Proof.
  intros r p v now Hreach Hr Hnow.
  pose proof (regime_wf r p Hreach Hr) as Hwf.
  pose proof (reachable_sum_inv r Hreach) as Hinv.
  assert (HR : 0 < Z.of_nat (length (RateCounter.partials r)))
    by (destruct Hwf as [Hc _ _]; lia).
  assert (HW : 0 <= RateCounter.interval r)
    by (destruct Hr as [Hp -> _]; nia).
  apply (calls_after_rotated_all r v now Hwf Hinv).
  destruct (rotations_regime r p (now + 2 ^ 64) Hr HR ltac:(lia))
    as (_ & _ & Hfull & _).
  specialize (Hfull ltac:(lia)).
  unfold rotations in *. rewrite timeDiff_of_wrap in Hfull. lia.
Qed.

Lemma clock_set_back_empties_counter_witness :
  reachable after_scenario /\ regime after_scenario 100 /\
  RateCounter.resetTime after_scenario + RateCounter.interval after_scenario
    - 2 ^ 64 < 499 < RateCounter.resetTime after_scenario /\
  exists r' r1,
    RateCounter.Rate after_scenario 499 = Ok (r', 0) /\
    Forall (fun b => Counter.Value b = 0) (RateCounter.partials r') /\
    RateCounter.resetTime r' = 499 /\
    RateCounter.Incr after_scenario 7 499 = Ok r1 /\
    Counter.Value (RateCounter.counter r1) = uint32 7.
Proof.
  assert (Ht : RateCounter.resetTime after_scenario
                 + RateCounter.interval after_scenario - 2 ^ 64
               < 499 < RateCounter.resetTime after_scenario)
    by (split; reflexivity).
  split; [exact reachable_after_scenario|].
  split; [exact regime_after_scenario|]. split; [exact Ht|].
  exact (clock_set_back_empties_counter after_scenario 100 7 499
           reachable_after_scenario regime_after_scenario Ht).
Defined.

Lemma of_Z_finite n :
  0 < n < 2 ^ 64 -> exists m e, F32.of_Z n = S754_finite false m e.
Proof.
  intros Hn. destruct (holds_of_Z n ltac:(lia)) as (X & HX & Hs & Hb).
  assert (H0 : 0 < X).
  { destruct (Z_lt_le_dec n (2 ^ 24)) as [H|H]; [rewrite (Hs H); lia|].
    specialize (Hb H). lia. }
  destruct (holds_normal _ _ HX H0) as (m & e & -> & _). eauto.
Qed.

Lemma iterations_zero_interval fuel R i m e :
  0 <= i <= R -> (Z.to_nat (R - i) < fuel)%nat ->
  iterations fuel (S754_zero false) R i (S754_finite false m e)
  = Z.to_nat (R - i).
Proof.
  revert i. induction fuel as [|fuel IH]; intros i Hi Hf; [lia|].
  cbn [iterations]. change (F32.gtb (S754_finite false m e) (S754_zero false))
    with true. cbn [andb].
  destruct (Z.ltb_spec i R) as [Hlt|Hge].
  - change (F32.sub (S754_finite false m e) (S754_zero false))
      with (S754_finite false m e).
    rewrite IH by lia. lia.
  - lia.
Qed.

Lemma partialInterval_zero R :
  0 < R < 2 ^ 64 -> RateCounter.partialInterval_of 0 R = S754_zero false.
Proof.
  intros HR. unfold RateCounter.partialInterval_of.
  destruct (of_Z_finite R HR) as (m & e & ->). reflexivity.
Qed.

Lemma run_events_in_no_window :
  run (RateCounter.NewRateCounter 999999 0) [OpIncr 5 0]
  = Ok after_events_in_no_window.
Proof. vm_compute. reflexivity. Qed.

(** X9. With a window of no millisecond (a duration under 1 ms), a call at any
    clock reading other than that of the last rotation rotates every
    bucket: [Rate()] returns 0 and [Incr(v)] leaves [v] as the total. *)
Theorem no_window_forgets_at_next_reading :
  forall (r : RateCounter.t) (v now : Z),
    reachable r ->
    Z.of_nat (length (RateCounter.partials r)) <= 2 ^ 31 ->
    RateCounter.interval r = 0 ->
    now <> RateCounter.resetTime r ->
    - 2 ^ 64 < now - RateCounter.resetTime r < 2 ^ 64 ->
    exists r' r1,
      RateCounter.Rate r now = Ok (r', 0) /\
      Forall (fun b => Counter.Value b = 0) (RateCounter.partials r') /\
      RateCounter.resetTime r' = now /\
      RateCounter.Incr r v now = Ok r1 /\
      Counter.Value (RateCounter.counter r1) = uint32 v.
Proof.
  intros r v now Hreach H31 HW Hne Hnow.
  pose proof (reachable_wf r Hreach H31) as Hwf.
  pose proof (reachable_sum_inv r Hreach) as Hinv.
  assert (HR : 0 < Z.of_nat (length (RateCounter.partials r)))
    by (destruct Hwf as [Hc _ _]; lia).
  apply (calls_after_rotated_all r v now Hwf Hinv).
  unfold rotations. rewrite HW.
  rewrite partialInterval_zero
    by (split; [exact HR|]; assert (2 ^ 31 < 2 ^ 64) by reflexivity; lia).
  assert (Hu : 0 < uint64 (now - RateCounter.resetTime r) < 2 ^ 64).
  { unfold uint64.
    pose proof (Z.mod_pos_bound (now - RateCounter.resetTime r) (2 ^ 64)
                  ltac:(lia)) as Hb.
    assert ((now - RateCounter.resetTime r) mod 2 ^ 64 <> 0); [|lia].
    intros H0. apply Z.mod_divide in H0; [|lia]. destruct H0 as [q Hq].
    assert (q = 0) by nia. lia. }
  unfold RateCounter.timeDiff_of.
  destruct (of_Z_finite _ Hu) as (m & e & ->).
  rewrite iterations_zero_interval by lia. lia.
Qed.

Lemma no_window_forgets_at_next_reading_witness :
  reachable after_events_in_no_window /\
  Z.of_nat (length (RateCounter.partials after_events_in_no_window))
    <= 2 ^ 31 /\
  RateCounter.interval after_events_in_no_window = 0 /\
  1 <> RateCounter.resetTime after_events_in_no_window /\
  - 2 ^ 64 < 1 - RateCounter.resetTime after_events_in_no_window < 2 ^ 64 /\
  exists r' r1,
    RateCounter.Rate after_events_in_no_window 1 = Ok (r', 0) /\
    Forall (fun b => Counter.Value b = 0) (RateCounter.partials r') /\
    RateCounter.resetTime r' = 1 /\
    RateCounter.Incr after_events_in_no_window 2 1 = Ok r1 /\
    Counter.Value (RateCounter.counter r1) = uint32 2.
Proof.
  assert (Hreach : reachable after_events_in_no_window)
    by exact (reachable_from_new _ _ _ _ run_events_in_no_window).
  assert (H31 : Z.of_nat (length (RateCounter.partials
                                    after_events_in_no_window)) <= 2 ^ 31)
    by (vm_compute; discriminate).
  assert (Hne : 1 <> RateCounter.resetTime after_events_in_no_window)
    by discriminate.
  assert (Ht : - 2 ^ 64
               < 1 - RateCounter.resetTime after_events_in_no_window
               < 2 ^ 64) by (split; reflexivity).
  split; [exact Hreach|]. split; [exact H31|]. split; [reflexivity|].
  split; [exact Hne|]. split; [exact Ht|].
  exact (no_window_forgets_at_next_reading after_events_in_no_window 2 1
           Hreach H31 eq_refl Hne Ht).
Defined.

(** ** Durations and clock readings *)

(** X10. [NewRateCounter(d)] keeps the whole milliseconds of [d]: a duration of
    less than 1 ms is a window of 0 ms, and since the window is a uint32 a
    duration of 2^32 ms or more is cut to its remainder modulo 2^32 ms.
    The counter it returns has twenty buckets, the default resolution, and
    a [Rate()] called at the clock reading of its creation returns 0 and
    changes nothing. *)
Theorem NewRateCounter_window_in_whole_milliseconds :
  forall (d now : Z),
    let r := RateCounter.NewRateCounter d now in
    0 <= RateCounter.interval r < 2 ^ 32 /\
    (0 <= d < 2 ^ 32 * 1000000 ->
     RateCounter.interval r * 1000000 <= d
       < (RateCounter.interval r + 1) * 1000000) /\
    (- 1000000 < d < 1000000 -> RateCounter.interval r = 0) /\
    (forall k, 0 <= d -> 0 <= k ->
       RateCounter.interval
         (RateCounter.NewRateCounter (d + k * (2 ^ 32 * 1000000)) now)
       = RateCounter.interval r) /\
    RateCounter.WithResolution r 20 = Ok r /\
    RateCounter.Rate r now = Ok (r, 0).
Proof.
  intros d now r. subst r.
  cbn [RateCounter.NewRateCounter RateCounter.interval].
  split; [apply uint32_range|]. split; [|split; [|split; [|split]]].
  - intros Hd. rewrite Z.quot_div_nonneg by lia.
    pose proof (Z.div_mod d 1000000 ltac:(lia)) as Hdm.
    pose proof (Z.mod_pos_bound d 1000000 ltac:(lia)) as Hm.
    assert (0 <= d / 1000000 < 2 ^ 32).
    { split; [apply Z.div_pos; lia|]. apply Z.div_lt_upper_bound; lia. }
    rewrite uint32_small by lia. lia.
  - intros Hd.
    replace (Z.quot d 1000000) with 0
      by (symmetry; apply Z.quot_small_iff; lia).
    reflexivity.
  - intros k Hd Hk. rewrite !Z.quot_div_nonneg by nia.
    replace (d + k * (2 ^ 32 * 1000000)) with (d + k * 2 ^ 32 * 1000000) by lia.
    rewrite Z.div_add by lia. unfold uint32. apply Z_mod_plus_full.
  - reflexivity.
  - rewrite (Rate_rotated _ now (wf_NewRateCounter d now)).
    rewrite rotations_at_resetTime; [reflexivity| |reflexivity].
    cbn [RateCounter.NewRateCounter RateCounter.interval].
    apply uint32_range.
Qed.

(** X11. For a clock that reads a time after the Unix epoch and does not go
    back, the readings of [UnixMilli()] do not go back either, fit 44 bits,
    are the whole milliseconds of the clock, and the elapsed time between
    two of them is their difference, with no wrap-around, within a
    millisecond of the time elapsed on the clock.  Before the epoch the
    division truncates toward zero and the conversion to uint64 wraps: the
    last millisecond before the epoch reads 0, and any earlier time reads
    above 2^64 - 2^44. *)
Theorem UnixMilli_elapsed_does_not_wrap :
  forall (n1 n2 : Z),
    0 <= n1 <= n2 -> n2 < 2 ^ 63 ->
    UnixMilli n1 <= UnixMilli n2 < 2 ^ 44 /\
    UnixMilli n1 * 1000000 <= n1 < (UnixMilli n1 + 1) * 1000000 /\
    uint64 (UnixMilli n2 - UnixMilli n1) = UnixMilli n2 - UnixMilli n1 /\
    n2 - n1 - 1000000 < (UnixMilli n2 - UnixMilli n1) * 1000000
      < n2 - n1 + 1000000 /\
    (forall n, - 1000000 < n < 0 -> UnixMilli n = 0) /\
    (forall n, - 2 ^ 63 <= n <= - 1000000 ->
       2 ^ 64 - 2 ^ 44 < UnixMilli n < 2 ^ 64).
Proof.
  intros n1 n2 Hn Hn2.
  assert (Hq : forall n, 0 <= n < 2 ^ 63 ->
                 UnixMilli n = n / 1000000 /\
                 0 <= n / 1000000 < 2 ^ 44 /\
                 (n / 1000000) * 1000000 <= n < (n / 1000000 + 1) * 1000000).
  { intros n H. unfold UnixMilli. rewrite Z.quot_div_nonneg by lia.
    pose proof (Z.div_mod n 1000000 ltac:(lia)) as Hdm.
    pose proof (Z.mod_pos_bound n 1000000 ltac:(lia)) as Hm.
    assert (Hb : 0 <= n / 1000000 < 2 ^ 44).
    { split; [apply Z.div_pos; lia|]. apply Z.div_lt_upper_bound; lia. }
    split; [|split; [exact Hb|lia]].
    unfold uint64. apply Z.mod_small. lia. }
  destruct (Hq n1 ltac:(lia)) as (-> & Hb1 & Hr1).
  destruct (Hq n2 ltac:(lia)) as (-> & Hb2 & Hr2).
  assert (Hle : n1 / 1000000 <= n2 / 1000000) by (apply Z.div_le_mono; lia).
  split; [lia|]. split; [lia|]. split; [|split; [lia|split]].
  - unfold uint64. apply Z.mod_small. lia.
  - intros n H. unfold UnixMilli.
    replace (Z.quot n 1000000) with 0
      by (symmetry; apply Z.quot_small_iff; lia).
    reflexivity.
  - intros n H. unfold UnixMilli.
    replace n with (- (- n)) by lia. rewrite Z.quot_opp_l by lia.
    rewrite Z.quot_div_nonneg by lia.
    assert (Hb : 1 <= (- n) / 1000000 < 2 ^ 44).
    { split; [apply Z.div_le_lower_bound; lia|].
      apply Z.div_lt_upper_bound; lia. }
    unfold uint64.
    replace (- (- n / 1000000)) with (2 ^ 64 - (- n) / 1000000 + (-1) * 2 ^ 64)
      by lia.
    rewrite Z_mod_plus_full, Z.mod_small; lia.
Qed.

Lemma UnixMilli_elapsed_does_not_wrap_witness :
  0 <= 1700000000123456789 <= 1700000001000000000 /\
  1700000001000000000 < 2 ^ 63 /\
  UnixMilli 1700000000123456789 <= UnixMilli 1700000001000000000 < 2 ^ 44 /\
  UnixMilli 1700000000123456789 * 1000000 <= 1700000000123456789
    < (UnixMilli 1700000000123456789 + 1) * 1000000 /\
  uint64 (UnixMilli 1700000001000000000 - UnixMilli 1700000000123456789)
  = UnixMilli 1700000001000000000 - UnixMilli 1700000000123456789 /\
  1700000001000000000 - 1700000000123456789 - 1000000
    < (UnixMilli 1700000001000000000 - UnixMilli 1700000000123456789)
      * 1000000
    < 1700000001000000000 - 1700000000123456789 + 1000000 /\
  (forall n, - 1000000 < n < 0 -> UnixMilli n = 0) /\
  (forall n, - 2 ^ 63 <= n <= - 1000000 ->
     2 ^ 64 - 2 ^ 44 < UnixMilli n < 2 ^ 64).
Proof.
  assert (H : 0 <= 1700000000123456789 <= 1700000001000000000)
    by (split; discriminate).
  assert (H63 : 1700000001000000000 < 2 ^ 63) by reflexivity.
  split; [exact H|]. split; [exact H63|].
  exact (UnixMilli_elapsed_does_not_wrap _ _ H H63).
Defined.

(** ** The text form *)

Lemma FormatInt_value i : strconv.value (strconv.FormatInt i) = Some i.
Proof.
  unfold strconv.value, strconv.FormatInt.
  rewrite DecimalString.NilZero.isi.
  - rewrite DecimalZ.of_to. reflexivity.
  - destruct i as [|p|p]; cbn [Z.to_int]; try discriminate.
    intros H. injection H as H. exact (DecimalPos.Unsigned.to_uint_nonnil p H).
  - destruct i as [|p|p]; cbn [Z.to_int]; try discriminate.
    intros H. injection H as H. exact (DecimalPos.Unsigned.to_uint_nonnil p H).
Qed.

Lemma digits_only_string_of_uint d :
  digits_only (DecimalString.NilEmpty.string_of_uint d) = true.
Proof.
  unfold digits_only. induction d as [|d IH|d IH|d IH|d IH|d IH|d IH|d IH|d IH|d IH|d IH];
    [reflexivity|exact IH..].
Qed.

Lemma FormatInt_digits_only i :
  0 <= i -> digits_only (strconv.FormatInt i) = true.
Proof.
  intros Hi. unfold strconv.FormatInt.
  destruct i as [|p|p]; [reflexivity| |lia].
  cbn [Z.to_int DecimalString.NilZero.string_of_int].
  unfold DecimalString.NilZero.string_of_uint.
  destruct (Pos.to_uint p) eqn:Hp; [reflexivity|..];
    rewrite <- Hp; apply digits_only_string_of_uint.
Qed.

(** X12. [String()] is not a plain read: it rotates the buckets as [Rate()]
    does, and prints the value [Rate()] returns, which is never negative,
    as decimal digits with no sign; read back as a decimal numeral the text
    is that value. *)
Theorem String_prints_what_Rate_returns :
  forall (r : RateCounter.t) (now : Z),
    wf r -> word (RateCounter.counter r) ->
    exists r' v s,
      RateCounter.Rate r now = Ok (r', v) /\
      Stringer.String r now = Ok (r', s) /\
      0 <= v < 2 ^ 32 /\
      s = strconv.FormatInt v /\
      strconv.value s = Some v /\
      digits_only s = true.
Proof.
  intros r now Hwf Hword.
  pose proof (updatePartials_rotated r 0 now Hwf) as Hu.
  pose proof (updatePartials_preserves _ _ _ _ _ Hu) as (_ & _ & _ & Hc & _).
  specialize (Hc Hword).
  set (r' := rotated (rotations r now) now r) in *.
  exists r', (Counter.Value (RateCounter.counter r')),
         (strconv.FormatInt (Counter.Value (RateCounter.counter r'))).
  split; [exact (Rate_rotated r now Hwf)|]. split.
  - unfold Stringer.String. rewrite (Rate_rotated r now Hwf). reflexivity.
  - split; [exact Hc|]. split; [reflexivity|].
    split; [apply FormatInt_value|].
    apply FormatInt_digits_only. apply Hc.
Qed.

Lemma String_prints_what_Rate_returns_witness :
  wf after_scenario /\ word (RateCounter.counter after_scenario) /\
  exists r' v s,
    RateCounter.Rate after_scenario 600 = Ok (r', v) /\
    Stringer.String after_scenario 600 = Ok (r', s) /\
    0 <= v < 2 ^ 32 /\
    s = strconv.FormatInt v /\
    strconv.value s = Some v /\
    digits_only s = true.
Proof.
  assert (Hw : word (RateCounter.counter after_scenario))
    by (split; [discriminate|reflexivity]).
  split; [exact wf_after_scenario|]. split; [exact Hw|].
  exact (String_prints_what_Rate_returns after_scenario 600
           wf_after_scenario Hw).
Defined.

(** ** The scalar counter *)

(** X13. On any counter, [Incr(v)] then [Incr(-v)] gives back the value there
    was; only the low 32 bits of a delta count, so a delta of 2^32 changes
    nothing; and after [Reset()] the counter reads 0 and counts as a new
    one, whatever it held. *)
Theorem Counter_Incr_undone_and_Reset_forgets :
  forall (c : Counter.t) (v : Z) (ds : list Z),
    word c ->
    Counter.Value (Counter.Incr (Counter.Incr c v) (- v)) = Counter.Value c /\
    (forall k, Counter.Incr c (v + k * 2 ^ 32) = Counter.Incr c v) /\
    Counter.Value (Counter.Reset c) = 0 /\
    Counter.Value (apply_incrs (Counter.Reset c) ds)
    = Counter.Value (apply_incrs Counter.NewCounter ds) /\
    Counter.Value (apply_incrs (Counter.Reset c) ds) = sumZ ds mod 2 ^ 32.
Proof.
  intros c v ds Hc. split; [|split; [|split; [|split]]].
  - unfold Counter.Value. rewrite !Counter_Incr_spec, uint32_add_l.
    replace (c + v + - v) with c by lia. apply uint32_small. exact Hc.
  - intros k. rewrite !Counter_Incr_spec. unfold uint32.
    replace (c + (v + k * 2 ^ 32)) with (c + v + k * 2 ^ 32) by lia.
    apply Z_mod_plus_full.
  - reflexivity.
  - reflexivity.
  - apply apply_incrs_fresh.
Qed.

Lemma Counter_Incr_undone_and_Reset_forgets_witness :
  word 4294967290 /\
  Counter.Value (Counter.Incr (Counter.Incr 4294967290 10) (- 10))
  = Counter.Value 4294967290 /\
  (forall k, Counter.Incr 4294967290 (10 + k * 2 ^ 32)
             = Counter.Incr 4294967290 10) /\
  Counter.Value (Counter.Reset 4294967290) = 0 /\
  Counter.Value (apply_incrs (Counter.Reset 4294967290) [3; -1])
  = Counter.Value (apply_incrs Counter.NewCounter [3; -1]) /\
  Counter.Value (apply_incrs (Counter.Reset 4294967290) [3; -1])
  = sumZ [3; -1] mod 2 ^ 32.
Proof.
  assert (Hw : word 4294967290) by (split; [discriminate|reflexivity]).
  split; [exact Hw|].
  exact (Counter_Incr_undone_and_Reset_forgets 4294967290 10 [3; -1] Hw).
Defined.

(** ** The gate, from outside *)

Lemma Gate_length_step s i more s' :
  Gate.thread_step i more s = Some s' ->
  length (Gate.pcs s') = length (Gate.pcs s).
Proof.
  unfold Gate.thread_step.
  destruct (Gate.pcs s !! i) as [p|]; [|discriminate].
  destruct p;
    repeat match goal with
    | |- context [match Gate.mutex s with _ => _ end] =>
        destruct (Gate.mutex s)
    | |- context [if Gate.resetting s then _ else _] =>
        destruct (Gate.resetting s)
    | |- context [if more then _ else _] => destruct more
    end;
    intros H; try discriminate; injection H as <-; simpl;
    rewrite ?length_insert; reflexivity.
Qed.

Lemma Gate_reachable_length n s :
  Gate.reachable n s -> length (Gate.pcs s) = n.
Proof.
  induction 1 as [|s i more s' _ IH Hs].
  - apply length_replicate.
  - rewrite (Gate_length_step _ _ _ _ Hs). exact IH.
Qed.

(** The flag is set only while some goroutine has set it and not cleared
    it yet. *)
Lemma Gate_owned_step s i more s' :
  (Gate.resetting s = true ->
   exists j p, Gate.pcs s !! j = Some p /\ Gate.owner p = true) ->
  Gate.thread_step i more s = Some s' ->
  Gate.resetting s' = true ->
  exists j p, Gate.pcs s' !! j = Some p /\ Gate.owner p = true.
Proof.
  intros IH. unfold Gate.thread_step.
  destruct (Gate.pcs s !! i) as [p|] eqn:Hi; [|discriminate].
  assert (Hlt : (i < length (Gate.pcs s))%nat)
    by (apply lookup_lt_Some in Hi; exact Hi).
  destruct p;
    repeat match goal with
    | |- context [match Gate.mutex s with _ => _ end] =>
        destruct (Gate.mutex s) eqn:?
    | |- context [if Gate.resetting s then _ else _] =>
        destruct (Gate.resetting s) eqn:?
    | |- context [if more then _ else _] => destruct more
    end;
    intros H; try discriminate; injection H as <-; simpl; intros Hres;
    try discriminate;
    try (exists i; eexists; split;
         [apply list_lookup_insert_eq; exact Hlt|reflexivity]);
    try (destruct (IH ltac:(congruence)) as (j & q & Hj & Hq);
         destruct (decide (j = i)) as [->|Hne];
         [rewrite Hi in Hj; injection Hj as <-; discriminate Hq
         |exists j, q; split; [|exact Hq];
          rewrite list_lookup_insert_ne by (intros Heq; apply Hne; symmetry; exact Heq);
          exact Hj]);
    try (apply IH; congruence).
Qed.

Lemma Gate_reachable_owned n s :
  Gate.reachable n s ->
  Gate.resetting s = true ->
  exists j p, Gate.pcs s !! j = Some p /\ Gate.owner p = true.
Proof.
  induction 1 as [|s i more s' _ IH Hs];
    [discriminate|exact (Gate_owned_step _ _ _ _ IH Hs)].
Qed.

Lemma forallb_lookup {A} (f : A -> bool) (l : list A) i x :
  forallb f l = true -> l !! i = Some x -> f x = true.
Proof.
  revert i. induction l as [|a l IH]; intros [|i] H Hl; simpl in *;
    try discriminate; apply andb_prop in H as [H1 H2].
  - injection Hl as <-. exact H1.
  - exact (IH i H2 Hl).
Qed.

Lemma quiescent_Idle s i p :
  quiescent s = true -> Gate.pcs s !! i = Some p -> p = Gate.Idle.
Proof.
  unfold quiescent. intros H Hp.
  pose proof (forallb_lookup _ _ _ _ H Hp) as Hq. cbv beta in Hq.
  destruct p; try discriminate. reflexivity.
Qed.

Lemma Gate_quiescent_init n s :
  Gate.reachable n s -> quiescent s = true -> s = Gate.init n.
Proof.
  intros Hr Hq.
  assert (Hm : Gate.mutex s = None).
  { destruct (Gate.mutex s) as [h|] eqn:Hm; [|reflexivity].
    destruct (Gate_reachable_held n s Hr h Hm) as (p & Hp & Hh).
    rewrite (quiescent_Idle s h p Hq Hp) in Hh. discriminate. }
  assert (Hf : Gate.resetting s = false).
  { destruct (Gate.resetting s) eqn:Hf; [|reflexivity].
    destruct (Gate_reachable_owned n s Hr Hf) as (j & p & Hp & Ho).
    rewrite (quiescent_Idle s j p Hq Hp) in Ho. discriminate. }
  assert (Hp : Gate.pcs s = replicate n Gate.Idle).
  { rewrite <- (Gate_reachable_length n s Hr).
    symmetry. apply replicate_as_Forall_2; [reflexivity|]. apply Forall_lookup.
    intros i p Hi. symmetry. exact (quiescent_Idle s i p Hq Hi). }
  destruct s as [m f l]. simpl in *. subst. reflexivity.
Qed.

(** X14. Whatever the interleaving, the flag is set only while a goroutine is
    between setting it and clearing it, and the mutex is held only by a
    goroutine between a [Lock] and its [Unlock]; so once every call has
    returned the mutex is free and the flag is clear: the gate is as at the
    start, open to the next call. *)
Theorem Gate_open_when_quiescent :
  forall (n : nat) (s : Gate.state),
    Gate.reachable n s ->
    length (Gate.pcs s) = n /\
    (Gate.resetting s = true ->
     exists j p, Gate.pcs s !! j = Some p /\ Gate.owner p = true) /\
    (forall h, Gate.mutex s = Some h ->
       exists p, Gate.pcs s !! h = Some p /\ Gate.holding p = true) /\
    (quiescent s = true -> s = Gate.init n).
Proof.
  intros n s Hr.
  split; [exact (Gate_reachable_length n s Hr)|].
  split; [exact (Gate_reachable_owned n s Hr)|].
  split; [exact (Gate_reachable_held n s Hr)|].
  exact (Gate_quiescent_init n s Hr).
Qed.

Lemma Gate_open_when_quiescent_witness :
  Gate.reachable 3 Gate.contended /\
  length (Gate.pcs Gate.contended) = 3%nat /\
  (Gate.resetting Gate.contended = true ->
   exists j p, Gate.pcs Gate.contended !! j = Some p /\ Gate.owner p = true) /\
  (forall h, Gate.mutex Gate.contended = Some h ->
     exists p, Gate.pcs Gate.contended !! h = Some p /\
               Gate.holding p = true) /\
  (quiescent Gate.contended = true -> Gate.contended = Gate.init 3).
Proof.
  split; [exact Gate_contended_reachable|].
  exact (Gate_open_when_quiescent 3 Gate.contended Gate_contended_reachable).
Defined.

Lemma steps_left_insert (l : list Gate.pc) i p q :
  l !! i = Some p -> (steps_left q < steps_left p)%nat ->
  (sum_list (map steps_left (<[i := q]> l)) < sum_list (map steps_left l))%nat.
Proof.
  revert i. induction l as [|a l IH]; intros [|i] Hl Hlt; simpl in *;
    try discriminate.
  - injection Hl as ->. lia.
  - specialize (IH i Hl Hlt). lia.
Qed.

(** A goroutine that is in a call and is not waiting for a mutex another
    one holds takes a step toward its return. *)
Lemma Gate_step_decreases s i p :
  Gate.pcs s !! i = Some p -> p <> Gate.Idle ->
  Gate.mutex s = None \/ Gate.holding p = true ->
  exists s', Gate.thread_step i false s = Some s' /\ (work s' < work s)%nat.
Proof.
  intros Hp Hne Hfree. unfold Gate.thread_step. rewrite Hp.
  destruct p; try congruence;
    repeat match goal with
    | |- context [match Gate.mutex s with _ => _ end] =>
        destruct (Gate.mutex s) eqn:?
    | |- context [if Gate.resetting s then _ else _] =>
        destruct (Gate.resetting s) eqn:?
    end;
    try (destruct Hfree as [Hfree|Hfree]; discriminate Hfree);
    (eexists; split; [reflexivity|]; unfold work; simpl;
     apply (steps_left_insert _ _ _ _ Hp); simpl; lia).
Qed.

Lemma work_positive (l : list Gate.pc) :
  sum_list (map steps_left l) <> O ->
  exists i p, l !! i = Some p /\ p <> Gate.Idle.
Proof.
  induction l as [|a l IH]; simpl; intros H; [congruence|].
  destruct (decide (steps_left a = O)) as [Ha|Ha].
  - destruct IH as (i & p & Hi & Hp); [lia|]. exists (S i), p. auto.
  - exists O, a. split; [reflexivity|]. intros ->. apply Ha. reflexivity.
Qed.

Lemma work_zero_quiescent s : work s = O -> quiescent s = true.
Proof.
  unfold work, quiescent. induction (Gate.pcs s) as [|a l IH]; simpl;
    intros H; [reflexivity|].
  rewrite IH by lia. destruct a; simpl in *; first [reflexivity|lia].
Qed.

Lemma Gate_progress n s :
  Gate.reachable n s -> work s <> O ->
  exists i s', Gate.thread_step i false s = Some s' /\ (work s' < work s)%nat.
Proof.
  intros Hr Hw. destruct (Gate.mutex s) as [h|] eqn:Hm.
  - destruct (Gate_reachable_held n s Hr h Hm) as (p & Hp & Hh).
    exists h. apply (Gate_step_decreases s h p Hp); [|right; exact Hh].
    intros ->. discriminate.
  - destruct (work_positive _ Hw) as (i & p & Hp & Hne).
    exists i. apply (Gate_step_decreases s i p Hp Hne). left. exact Hm.
Qed.

Lemma Gate_drains k : forall n s,
  Gate.reachable n s -> (work s <= k)%nat ->
  exists steps,
    Gate.schedule steps s = Some (Gate.init n) /\
    (length steps <= work s)%nat.
Proof.
  induction k as [|k IH]; intros n s Hr Hk.
  - exists []. split; [|simpl; lia]. simpl. f_equal.
    apply (Gate_quiescent_init n s Hr). apply work_zero_quiescent. lia.
  - destruct (decide (work s = O)) as [H0|H0].
    + exists []. split; [|simpl; lia]. simpl. f_equal.
      apply (Gate_quiescent_init n s Hr). apply work_zero_quiescent. exact H0.
    + destruct (Gate_progress n s Hr H0) as (i & s' & Hs & Hlt).
      destruct (IH n s' (Gate.reachable_step n s i false s' Hr Hs) ltac:(lia))
        as (steps & Hsch & Hlen).
      exists ((i, false) :: steps). split; [|simpl; lia].
      simpl. rewrite Hs. exact Hsch.
Qed.

(** X15. No interleaving leaves the callers stuck: from every state they can
    reach, there is a way on, of at most eight steps for each goroutine,
    that lets every call in progress return once its loop is over and
    leaves the mutex free and the flag clear.  A goroutine in a call can
    always take its next step unless it waits at a [Lock] for the holder of
    the mutex, and the holder can always take its own. *)
Theorem Gate_every_call_can_return :
  forall (n : nat) (s : Gate.state),
    Gate.reachable n s ->
    (exists steps,
       Gate.schedule steps s = Some (Gate.init n) /\
       (length steps <= work s)%nat) /\
    (work s <= 8 * n)%nat /\
    (forall i p,
       Gate.pcs s !! i = Some p -> p <> Gate.Idle ->
       Gate.mutex s = None \/ Gate.holding p = true ->
       exists s', Gate.thread_step i false s = Some s' /\
                  (work s' < work s)%nat).
Proof.
  intros n s Hr.
  split; [exact (Gate_drains (work s) n s Hr (le_n _))|].
  split; [|exact (Gate_step_decreases s)].
  rewrite <- (Gate_reachable_length n s Hr). unfold work.
  induction (Gate.pcs s) as [|a l IH]; simpl; [lia|].
  destruct a; simpl; lia.
Qed.

Lemma Gate_every_call_can_return_witness :
  Gate.reachable 3 Gate.contended /\
  (exists steps,
     Gate.schedule steps Gate.contended = Some (Gate.init 3) /\
     (length steps <= work Gate.contended)%nat) /\
  (work Gate.contended <= 8 * 3)%nat /\
  (forall i p,
     Gate.pcs Gate.contended !! i = Some p -> p <> Gate.Idle ->
     Gate.mutex Gate.contended = None \/ Gate.holding p = true ->
     exists s', Gate.thread_step i false Gate.contended = Some s' /\
                (work s' < work Gate.contended)%nat).
Proof.
  split; [exact Gate_contended_reachable|].
  exact (Gate_every_call_can_return 3 Gate.contended Gate_contended_reachable).
Defined.

(** ** How many buckets a call rotates *)

Lemma iterations_count fuel p R : forall i x X,
  0 < p < 2 ^ 24 -> R * p < 2 ^ 24 -> 0 <= i <= R -> holds x X ->
  X < 2 ^ 24 -> (Z.to_nat (R - i) < fuel)%nat ->
  Z.of_nat (iterations fuel (F32.of_Z p) R i x)
  = Z.min (R - i) (Z.max 0 ((X - 1) / p)).
Proof.
  induction fuel as [|fuel IH]; intros i x X Hp HW Hi Hx H24 Hf; [lia|].
  assert (H0 : 0 <= X) by (destruct Hx as [[? _]|[? _]]; lia).
  cbn [iterations]. rewrite (holds_gtb x X p Hp Hx).
  destruct (Z.ltb_spec p X) as [HpX|HpX]; cbn [andb].
  - destruct (Z.ltb_spec i R) as [HiR|HiR].
    + destruct (holds_sub x X p Hp Hx HpX) as (X' & Hx' & Hsmall & _).
      specialize (Hsmall ltac:(lia)). subst X'.
      rewrite Nat2Z.inj_succ.
      rewrite (IH (i + 1) _ (X - p) Hp HW ltac:(lia) Hx' ltac:(lia) ltac:(lia)).
      replace (X - p - 1) with (X - 1 + (-1) * p) by lia.
      rewrite Z.div_add by lia.
      assert (1 <= (X - 1) / p) by (apply Z.div_le_lower_bound; lia).
      lia.
    + simpl. lia.
  - simpl. assert ((X - 1) / p <= 0); [|lia].
    destruct (Z.eq_dec X 0) as [->|Hne].
    + apply Z.lt_succ_r. apply Z.div_lt_upper_bound; lia.
    + rewrite Z.div_small by lia. lia.
Qed.

Lemma rotations_count r p now :
  regime r p -> 0 < Z.of_nat (length (RateCounter.partials r)) ->
  RateCounter.resetTime r <= now < RateCounter.resetTime r + 2 ^ 64 ->
  Z.of_nat (rotations r now)
  = Z.min (Z.of_nat (length (RateCounter.partials r)))
      (Z.max 0 ((now - RateCounter.resetTime r - 1) / p)).
Proof.
  intros Hr HR Hnow.
  destruct (regime_length r p Hr HR) as [Hp HR24].
  pose proof (regime_window r p Hr) as HW.
  pose proof (regime_small r p Hr) as Hs.
  destruct (Z_lt_le_dec (now - RateCounter.resetTime r) (2 ^ 24)) as [Hc|Hc].
  - unfold rotations. rewrite (partialInterval_regime r p Hr HR).
    unfold RateCounter.timeDiff_of. rewrite uint64_small by lia.
    rewrite (iterations_count _ p _ 0 _ (now - RateCounter.resetTime r));
      try lia.
    left. split; [lia|reflexivity].
  - destruct (rotations_regime r p now Hr HR Hnow) as (_ & _ & Hfull & _).
    rewrite Hfull by lia.
    assert (Z.of_nat (length (RateCounter.partials r))
            <= (now - RateCounter.resetTime r - 1) / p).
    { apply Z.div_le_lower_bound; lia. }
    lia.
Qed.

(** X16. For a window of a whole number [p] of milliseconds per bucket below
    2^24 ms, a call made [e] ms after the last rotation rotates one bucket
    for every whole sub-interval that has gone by before the current one,
    [(e - 1) / p] of them, and no more than the ring has; the current index
    moves by as many places, and the time of the last rotation moves to the
    clock reading, not to the end of the last whole sub-interval. *)
Theorem Rate_rotates_elapsed_sub_intervals :
  forall (r : RateCounter.t) (p now : Z),
    reachable r -> regime r p ->
    RateCounter.resetTime r <= now < RateCounter.resetTime r + 2 ^ 64 ->
    let k := Z.min (Z.of_nat (length (RateCounter.partials r)))
               (Z.max 0 ((now - RateCounter.resetTime r - 1) / p)) in
    Z.of_nat (rotations r now) = k /\
    exists r' v,
      RateCounter.Rate r now = Ok (r', v) /\
      RateCounter.current r'
      = (RateCounter.current r + k)
        mod Z.of_nat (length (RateCounter.partials r)) /\
      RateCounter.resetTime r'
      = (if k =? 0 then RateCounter.resetTime r else now) /\
      (k = 0 -> r' = r).
Proof.
  intros r p now Hreach Hr Hnow. cbv zeta.
  pose proof (regime_wf r p Hreach Hr) as Hwf.
  assert (HR : 0 < Z.of_nat (length (RateCounter.partials r)))
    by (destruct Hwf as [Hc _ _]; lia).
  pose proof (rotations_count r p now Hr HR Hnow) as Hk.
  rewrite <- Hk. split; [reflexivity|].
  destruct (rotated_fields (rotations r now) now r HR (wf_current r Hwf))
    as (_ & _ & Hc & Ht).
  exists (rotated (rotations r now) now r),
         (Counter.Value (RateCounter.counter (rotated (rotations r now) now r))).
  split; [exact (Rate_rotated r now Hwf)|]. split; [exact Hc|]. split.
  - rewrite Ht. destruct (rotations r now); reflexivity.
  - intros H0. assert (rotations r now = O) as -> by lia. reflexivity.
Qed.

Lemma Rate_rotates_elapsed_sub_intervals_witness :
  reachable after_scenario /\ regime after_scenario 100 /\
  RateCounter.resetTime after_scenario <= 850
    < RateCounter.resetTime after_scenario + 2 ^ 64 /\
  Z.of_nat (rotations after_scenario 850)
  = Z.min (Z.of_nat (length (RateCounter.partials after_scenario)))
      (Z.max 0 ((850 - RateCounter.resetTime after_scenario - 1) / 100)) /\
  exists r' v,
    RateCounter.Rate after_scenario 850 = Ok (r', v) /\
    RateCounter.current r'
    = (RateCounter.current after_scenario
       + Z.min (Z.of_nat (length (RateCounter.partials after_scenario)))
           (Z.max 0 ((850 - RateCounter.resetTime after_scenario - 1) / 100)))
      mod Z.of_nat (length (RateCounter.partials after_scenario)) /\
    RateCounter.resetTime r'
    = (if Z.min (Z.of_nat (length (RateCounter.partials after_scenario)))
            (Z.max 0 ((850 - RateCounter.resetTime after_scenario - 1) / 100))
          =? 0
       then RateCounter.resetTime after_scenario else 850) /\
    (Z.min (Z.of_nat (length (RateCounter.partials after_scenario)))
       (Z.max 0 ((850 - RateCounter.resetTime after_scenario - 1) / 100)) = 0 ->
     r' = after_scenario).
Proof.
  assert (Ht : RateCounter.resetTime after_scenario <= 850
               < RateCounter.resetTime after_scenario + 2 ^ 64)
    by (split; [discriminate|reflexivity]).
  split; [exact reachable_after_scenario|].
  split; [exact regime_after_scenario|]. split; [exact Ht|].
  exact (Rate_rotates_elapsed_sub_intervals after_scenario 100 850
           reachable_after_scenario regime_after_scenario Ht).
Defined.

(** ** Only elapsed times count *)

(** X17. Moving every clock reading of a run by the same amount, that of the
    creation of the counter included, changes nothing but the time of the
    last rotation it holds: the calls return the same values. *)
Theorem calls_depend_on_elapsed_times_only :
  forall (s d t0 : Z) (ops : list op) (now : Z),
    run (RateCounter.NewRateCounter d (t0 + s)) (map (shift_op s) ops)
    = rmap (shift s) (run (RateCounter.NewRateCounter d t0) ops) /\
    (let* r := run (RateCounter.NewRateCounter d (t0 + s))
                 (map (shift_op s) ops) in
     rate_at r (now + s))
    = (let* r := run (RateCounter.NewRateCounter d t0) ops in rate_at r now).
Proof.
  intros s d t0 ops now.
  change (RateCounter.NewRateCounter d (t0 + s))
    with (shift s (RateCounter.NewRateCounter d t0)).
  rewrite run_shift. split; [reflexivity|].
  destruct (run (RateCounter.NewRateCounter d t0) ops) as [r| |];
    cbn [rmap bind]; [apply rate_at_shift|reflexivity|reflexivity].
Qed.

(** ** An [Incr] of nothing *)

Lemma sum_inv_after_scenario : sum_inv after_scenario.
Proof. exact (reachable_sum_inv _ reachable_after_scenario). Qed.

(** X18. On a counter whose total and buckets are 32-bit words, as they are in
    the code, [Incr(0)] is [Rate()] with the value dropped: the two leave
    the same state. *)
Theorem Incr_of_zero_is_Rate :
  forall (r : RateCounter.t) (now : Z),
    wf r -> word (RateCounter.counter r) ->
    Forall word (RateCounter.partials r) ->
    exists r' v,
      RateCounter.Rate r now = Ok (r', v) /\
      RateCounter.Incr r 0 now = Ok r'.
Proof.
  intros r now Hwf Hc Hb.
  pose proof (updatePartials_rotated r 0 now Hwf) as Hu.
  pose proof (updatePartials_preserves _ _ _ _ _ Hu) as (_ & _ & _ & Hc' & Hb').
  specialize (Hc' Hc). specialize (Hb' Hb).
  set (r' := rotated (rotations r now) now r) in *.
  exists r', (Counter.Value (RateCounter.counter r')).
  split; [exact (Rate_rotated r now Hwf)|].
  rewrite (Incr_shape r 0 now Hwf). fold r'. f_equal.
  destruct r' as [c bs rt cur rs iv]. unfold bump, credit.
  cbn [RateCounter.counter RateCounter.partials RateCounter.resetTime
       RateCounter.current RateCounter.resetting RateCounter.interval] in *.
  f_equal.
  - rewrite Counter_Incr_spec, Z.add_0_r. apply uint32_small. exact Hc'.
  - transitivity (alter id (Z.to_nat cur) bs);
      [|apply list_alter_id; reflexivity].
    apply list_alter_ext; [|reflexivity].
    intros p Hp. rewrite Counter_Incr_spec, Z.add_0_r. apply uint32_small.
    exact (proj1 (Forall_lookup _ _) Hb' _ _ Hp).
Qed.

Lemma Incr_of_zero_is_Rate_witness :
  wf after_scenario /\ word (RateCounter.counter after_scenario) /\
  Forall word (RateCounter.partials after_scenario) /\
  exists r' v,
    RateCounter.Rate after_scenario 1234 = Ok (r', v) /\
    RateCounter.Incr after_scenario 0 1234 = Ok r'.
Proof.
  split; [exact wf_after_scenario|].
  split; [exact (sum_inv_counter _ sum_inv_after_scenario)|].
  split; [exact (sum_inv_partials _ sum_inv_after_scenario)|].
  exact (Incr_of_zero_is_Rate after_scenario 1234 wf_after_scenario
           (sum_inv_counter _ sum_inv_after_scenario)
           (sum_inv_partials _ sum_inv_after_scenario)).
Defined.

(** ** What no call repairs *)

Lemma step_drift r o r' :
  step r o = Ok r' ->
  drift (RateCounter.counter r') (RateCounter.partials r')
  = drift (RateCounter.counter r) (RateCounter.partials r).
Proof.
  destruct o as [v now|now]; cbn [step]; intros H.
  - exact (proj1 (Incr_preserves _ _ _ _ H)).
  - apply bind_Ok in H as ([r1 x] & Hr & Hk). cbn [fst] in Hk.
    injection Hk as <-. exact (proj1 (Rate_preserves _ _ _ _ Hr)).
Qed.

Lemma run_drift ops : forall r r',
  run r ops = Ok r' ->
  drift (RateCounter.counter r') (RateCounter.partials r')
  = drift (RateCounter.counter r) (RateCounter.partials r).
Proof.
  induction ops as [|o ops IH]; intros r r' H; cbn [run] in H.
  - injection H as <-. reflexivity.
  - apply bind_Ok in H as (r1 & Hs & H).
    rewrite (IH _ _ H). exact (step_drift _ _ _ Hs).
Qed.

Lemma wf_late_resolution : wf late_resolution.
Proof.
  split; [vm_compute; split; [discriminate|reflexivity]
         |vm_compute; discriminate|reflexivity].
Qed.

(** X19. Whatever the total and the buckets hold to begin with, no sequence of
    [Incr] and [Rate] calls changes the difference between the total and
    the sum of the buckets, modulo 2^32: a difference there is, as after a
    late [WithResolution], is carried through every later call, and is
    what every [Rate()] made after a full turn of the ring returns. *)
Theorem total_stays_off_by_the_same :
  forall (r : RateCounter.t) (ops : list op),
    wf r ->
    exists r',
      run r ops = Ok r' /\
      uint32 (Counter.Value (RateCounter.counter r') - sum_partials r')
      = uint32 (Counter.Value (RateCounter.counter r) - sum_partials r) /\
      (forall now r'' v,
         RateCounter.Rate r' now = Ok (r'', v) ->
         rotations r' now = length (RateCounter.partials r') ->
         word (RateCounter.counter r') ->
         v = uint32 (Counter.Value (RateCounter.counter r) - sum_partials r)).
Proof.
  intros r ops Hwf. destruct (run_wf ops r Hwf) as (r' & Hrun & Hwf').
  exists r'. split; [exact Hrun|].
  pose proof (run_drift ops r r' Hrun) as Hd. unfold drift in Hd.
  unfold sum_partials, Counter.Value. rewrite !map_Value.
  split; [exact Hd|].
  intros now r'' v Hr Hk Hw. rewrite <- Hd.
  rewrite (Rate_rotated r' now Hwf') in Hr. injection Hr as <- <-.
  assert (HR : 0 < Z.of_nat (length (RateCounter.partials r')))
    by (destruct Hwf' as [Hc _ _]; lia).
  pose proof (updatePartials_rotated r' 0 now Hwf') as Hu.
  pose proof (updatePartials_preserves _ _ _ _ _ Hu) as (Hd' & _ & _ & Hc & _).
  unfold drift in Hd'. rewrite <- Hd'.
  assert (Hz : Forall (fun p => p = 0)
                 (RateCounter.partials (rotated (rotations r' now) now r'))).
  { rewrite rotated_partials by lia. rewrite Hk.
    pose proof (rotate_full (Z.of_nat (length (RateCounter.partials r')))
                  (RateCounter.current r') (RateCounter.counter r')
                  (RateCounter.partials r') HR eq_refl (wf_current r' Hwf'))
      as Hf.
    rewrite Nat2Z.id in Hf. exact Hf. }
  rewrite (sumZ_all_zero _ Hz), Z.sub_0_r.
  unfold Counter.Value. symmetry. apply uint32_small. exact (Hc Hw).
Qed.

Lemma total_stays_off_by_the_same_witness :
  wf late_resolution /\
  exists r',
    run late_resolution [OpIncr 2 10; OpRate 5000] = Ok r' /\
    uint32 (Counter.Value (RateCounter.counter r') - sum_partials r')
    = uint32 (Counter.Value (RateCounter.counter late_resolution)
              - sum_partials late_resolution) /\
    (forall now r'' v,
       RateCounter.Rate r' now = Ok (r'', v) ->
       rotations r' now = length (RateCounter.partials r') ->
       word (RateCounter.counter r') ->
       v = uint32 (Counter.Value (RateCounter.counter late_resolution)
                   - sum_partials late_resolution)).
Proof.
  split; [exact wf_late_resolution|].
  exact (total_stays_off_by_the_same late_resolution
           [OpIncr 2 10; OpRate 5000] wf_late_resolution).
Defined.
(** ** Calls that overlap *)

Lemma Overlap_with_same r :
  Overlap.with_partials (RateCounter.partials r)
    (Overlap.with_counter (RateCounter.counter r) r) = r.
Proof. destruct r. reflexivity. Qed.

Lemma Overlap_with_again tot tot' bs bs' r :
  Overlap.with_partials bs' (Overlap.with_counter tot'
    (Overlap.with_partials bs (Overlap.with_counter tot r)))
  = Overlap.with_partials bs' (Overlap.with_counter tot' r).
Proof. reflexivity. Qed.

Lemma Overlap_acts_app a b i k now : forall p r m,
  Overlap.acts (a + b) i k now p r m
  = Overlap.acts b i k now (Overlap.acts a i k now p r m).2
      (Overlap.acts a i k now p r m).1.1 (Overlap.acts a i k now p r m).1.2.
Proof.
  induction a as [|a IH]; intros p r m; [reflexivity|].
  cbn [Nat.add Overlap.acts].
  destruct (Overlap.act i k now p r m) as [[[r' m'] p']|] eqn:Ha.
  - apply IH.
  - cbn [fst snd]. destruct b as [|b]; [reflexivity|].
    cbn [Overlap.acts]. rewrite Ha. reflexivity.
Qed.

(** The loop of a call that runs on its own is the loop of the sequential
    call. *)
Lemma Overlap_acts_loop i k now m pI fuel : forall td ii cur r st',
  RateCounter.rotation_loop fuel pI (Z.of_nat (length (RateCounter.partials r)))
    {| RateCounter.ii := ii; RateCounter.timeDiff := td;
       RateCounter.cur := cur; RateCounter.total := RateCounter.counter r;
       RateCounter.buckets := RateCounter.partials r |} = Ok st' ->
  exists n,
    Overlap.acts n i k now
      (Overlap.loop_head td pI ii cur (Z.of_nat (length (RateCounter.partials r))))
      r m
    = (Overlap.with_partials (RateCounter.buckets st')
         (Overlap.with_counter (RateCounter.total st') r),
       m, Overlap.AtStoreCurrent (RateCounter.cur st')).
Proof.
  induction fuel as [|fuel IH]; intros td ii cur r st' H; [discriminate|].
  cbn [RateCounter.rotation_loop] in H. unfold Overlap.loop_head.
  unfold RateCounter.loop_guard in H.
  cbn [RateCounter.timeDiff RateCounter.ii] in H.
  destruct (F32.gtb td pI && (ii <? Z.of_nat (length (RateCounter.partials r))))
    eqn:Hg.
  - apply bind_Ok in H as (st1 & Hb & Hl).
    apply loop_body_Ok in Hb as (next & p & Hn & Hr & Hp & ->).
    cbn [RateCounter.cur RateCounter.buckets RateCounter.total
         RateCounter.timeDiff RateCounter.ii] in *.
    set (r1 := Overlap.with_partials
                 (<[Z.to_nat next := 0]> (RateCounter.partials r))
                 (Overlap.with_counter
                    (uint32 (RateCounter.counter r - p)) r)).
    assert (Hlen : length (RateCounter.partials r1)
                   = length (RateCounter.partials r))
      by (unfold r1; cbn; apply length_insert).
    destruct (IH (F32.sub td pI) (ii + 1) (int32 next) r1 st') as [n Hn'].
    { rewrite Hlen. exact Hl. }
    exists (3 + n)%nat. rewrite Overlap_acts_app.
    assert (H3 : Overlap.acts 3 i k now
                   (Overlap.AtValue (F32.sub td pI) pI ii
                      (Z.rem (cur + 1) (Z.of_nat (length (RateCounter.partials r)))))
                   r m
                 = (r1, m,
                    Overlap.loop_head (F32.sub td pI) pI (ii + 1) (int32 next)
                      (Z.of_nat (length (RateCounter.partials r))))).
    { cbn [Overlap.acts Overlap.act]. rewrite <- Hn.
      destruct (Z.leb_spec 0 next) as [_|]; [|lia].
      destruct (Z.ltb_spec next (Z.of_nat (length (RateCounter.partials r))))
        as [_|]; [|lia].
      cbn [andb]. rewrite Hp.
      cbn [Overlap.acts Overlap.act Overlap.with_counter RateCounter.partials
           RateCounter.counter].
      unfold r1, Overlap.with_partials, Overlap.with_counter, Counter.Value.
      cbn [RateCounter.counter RateCounter.partials RateCounter.resetTime
           RateCounter.current RateCounter.resetting RateCounter.interval].
      rewrite Counter_Incr_spec.
      replace (RateCounter.counter r + -1 * p)
        with (RateCounter.counter r - p) by lia.
      reflexivity. }
    rewrite H3. cbn [fst snd]. rewrite Hlen in Hn'. rewrite Hn'. reflexivity.
  - injection H as <-. exists O. cbn [Overlap.acts RateCounter.total
                                       RateCounter.buckets RateCounter.cur].
    rewrite Overlap_with_same. reflexivity.
Qed.

Lemma Overlap_acts_updatePartials i k now r val r2 :
  RateCounter.updatePartials r (RateCounter.interval r) val now = Ok r2 ->
  exists n,
    Overlap.acts n i k now Overlap.AtLoadResetTime r None
    = (r2, None, Overlap.AtReturn).
Proof.
  unfold RateCounter.updatePartials. intros H.
  set (td := RateCounter.timeDiff_of now (RateCounter.resetTime r)) in *.
  set (pI := RateCounter.partialInterval_of (RateCounter.interval r)
               (Z.of_nat (length (RateCounter.partials r)))) in *.
  destruct (F32.gtb td pI) eqn:Hg.
  - destruct (RateCounter.resetting r) eqn:Hres; cbn [negb] in H.
    + injection H as <-. exists 4%nat.
      cbn [Overlap.acts Overlap.act]. fold td pI. rewrite Hg.
      cbn [Overlap.acts Overlap.act]. rewrite Hres. reflexivity.
    + apply bind_Ok in H as (st & Hloop & H). injection H as <-.
      destruct (Overlap_acts_loop i k now None pI _ td 0
                  (RateCounter.current r) (Overlap.with_resetting true r) st Hloop)
        as [n Hn].
      exists (6 + (n + 5))%nat. rewrite Overlap_acts_app.
      assert (H6 : Overlap.acts 6 i k now Overlap.AtLoadResetTime r None
                   = (Overlap.with_resetting true r, None,
                      Overlap.loop_head td pI 0 (RateCounter.current r)
                        (Z.of_nat (length (RateCounter.partials r))))).
      { cbn [Overlap.acts Overlap.act]. fold td pI. rewrite Hg.
        cbn [Overlap.acts Overlap.act]. rewrite Hres. reflexivity. }
      rewrite H6. cbn [fst snd]. rewrite Overlap_acts_app.
      change (length (RateCounter.partials r))
        with (length (RateCounter.partials (Overlap.with_resetting true r))).
      rewrite Hn. reflexivity.
  - injection H as <-. exists 1%nat. cbn [Overlap.acts Overlap.act].
    fold td pI. rewrite Hg. reflexivity.
Qed.

Lemma Overlap_run_alone_placed i k now gs n : forall x,
  (i < length gs)%nat ->
  Overlap.run_alone n i (Overlap.placed i k now gs x)
  = Overlap.placed i k now gs (Overlap.acts n i k now x.2 x.1.1 x.1.2).
Proof.
  induction n as [|n IH]; intros [[r m] p] Hi; [reflexivity|].
  cbn [Overlap.run_alone Overlap.acts fst snd]. unfold Overlap.step.
  cbn [Overlap.placed Overlap.goroutines Overlap.shared Overlap.mutex fst snd].
  rewrite list_lookup_insert_eq by exact Hi.
  cbn [Overlap.does Overlap.now Overlap.at_].
  destruct (Overlap.act i k now p r m) as [[[r' m'] p']|]; [|reflexivity].
  rewrite list_insert_insert_eq.
  exact (IH (r', m', p') Hi).
Qed.

Lemma Overlap_init_placed i k now gs r :
  gs !! i = Some (Overlap.call k now) ->
  Overlap.init r gs = Overlap.placed i k now gs (r, None, Overlap.start k).
Proof.
  intros H. unfold Overlap.init, Overlap.placed. cbn [fst snd].
  f_equal. symmetry. apply list_insert_id. exact H.
Qed.

(** X20. A call that no other call overlaps does what the sequential call does:
    run on its own from its first step, a goroutine that calls [Incr(val)]
    or [Rate()] on a counter with the mutex free returns after finitely
    many steps, leaves the mutex free, and leaves the counter, and for
    [Rate()] returns the value, that [Incr] and [Rate] give. *)
Theorem call_alone_is_the_sequential_call :
  forall (i : nat) (k : Overlap.kind) (now : Z)
         (gs : list Overlap.goroutine) (r : RateCounter.t),
    wf r ->
    gs !! i = Some (Overlap.call k now) ->
    exists n r' v,
      Overlap.run_alone n i (Overlap.init r gs)
      = {| Overlap.shared := r'; Overlap.mutex := None;
           Overlap.goroutines :=
             <[i := {| Overlap.does := k; Overlap.now := now;
                       Overlap.at_ := Overlap.Returned v |}]> gs |} /\
      match k with
      | Overlap.DoIncr val => RateCounter.Incr r val now = Ok r' /\ v = None
      | Overlap.DoRate =>
          exists x, v = Some x /\ RateCounter.Rate r now = Ok (r', x)
      end.
Proof.
  intros i k now gs r Hwf Hg.
  assert (Hi : (i < length gs)%nat) by (apply lookup_lt_Some in Hg; exact Hg).
  rewrite (Overlap_init_placed i k now gs r Hg).
  destruct k as [val|].
  - pose proof (Incr_rotated r val now Hwf) as HI.
    pose proof (updatePartials_rotated (credit val r) val now
                  (wf_credit val r Hwf)) as Hu.
    change (rotations (credit val r) now) with (rotations r now) in Hu.
    set (r2 := rotated (rotations r now) now (credit val r)) in *.
    pose proof (rotated_wf (rotations r now) now (credit val r)
                  (wf_credit val r Hwf) eq_refl) as [Hc _ _].
    fold r2 in Hc.
    destruct (lookup_lt_is_Some_2 (RateCounter.partials r2)
                (Z.to_nat (RateCounter.current r2))) as [pv Hpv]; [lia|].
    destruct (Overlap_acts_updatePartials i (Overlap.DoIncr val) now
                (credit val r) val r2 Hu) as [n Hn].
    exists (1 + (n + 2))%nat, (bump val r2), None.
    split; [|split; [exact HI|reflexivity]].
    rewrite Overlap_run_alone_placed by exact Hi.
    cbn [fst snd Overlap.start]. rewrite Overlap_acts_app.
    change (Overlap.acts 1 i (Overlap.DoIncr val) now Overlap.AtCounterIncr
              r None)
      with (credit val r, @None nat, Overlap.AtLoadResetTime).
    cbn [fst snd]. rewrite Overlap_acts_app, Hn. cbn [fst snd].
    cbn [Overlap.acts Overlap.act].
    destruct (Z.leb_spec 0 (RateCounter.current r2)) as [_|]; [|lia].
    destruct (Z.ltb_spec (RateCounter.current r2)
                (Z.of_nat (length (RateCounter.partials r2)))) as [_|]; [|lia].
    cbn [andb]. rewrite Hpv. unfold Overlap.placed. cbn [fst snd].
    f_equal. unfold bump, Overlap.with_partials.
    rewrite (insert_as_alter (fun p => Counter.Incr p val) _ _ _ Hpv).
    reflexivity.
  - pose proof (Rate_rotated r now Hwf) as HR.
    pose proof (updatePartials_rotated r 0 now Hwf) as Hu.
    set (r2 := rotated (rotations r now) now r) in *.
    destruct (Overlap_acts_updatePartials i Overlap.DoRate now r 0 r2 Hu)
      as [n Hn].
    exists (n + 1)%nat, r2, (Some (Counter.Value (RateCounter.counter r2))).
    split; [|eexists; split; [reflexivity|exact HR]].
    rewrite Overlap_run_alone_placed by exact Hi.
    cbn [fst snd Overlap.start]. rewrite Overlap_acts_app, Hn.
    reflexivity.
Qed.

Lemma call_alone_is_the_sequential_call_witness :
  wf one_event /\
  Overlap.goroutines racing !! 1%nat
  = Some (Overlap.call (Overlap.DoIncr 1) 5000) /\
  exists n r' v,
    Overlap.run_alone n 1 (Overlap.init one_event (Overlap.goroutines racing))
    = {| Overlap.shared := r'; Overlap.mutex := None;
         Overlap.goroutines :=
           <[1%nat := {| Overlap.does := Overlap.DoIncr 1; Overlap.now := 5000;
                         Overlap.at_ := Overlap.Returned v |}]>
             (Overlap.goroutines racing) |} /\
    (RateCounter.Incr one_event 1 5000 = Ok r' /\ v = None).
Proof.
  assert (Hwf : wf one_event).
  { split; [vm_compute; split; [discriminate|reflexivity]
           |vm_compute; discriminate|reflexivity]. }
  split; [exact Hwf|]. split; [reflexivity|].
  exact (call_alone_is_the_sequential_call 1 (Overlap.DoIncr 1) 5000
           (Overlap.goroutines racing) one_event Hwf eq_refl).
Defined.

(** *** Indices under any interleaving *)

Lemma Overlap_loop_head_in_ring td pI ii cur R :
  0 <= cur < R -> Overlap.in_ring R (Overlap.loop_head td pI ii cur R) = true.
Proof.
  intros Hc. unfold Overlap.loop_head.
  destruct (_ && _); cbn [Overlap.in_ring].
  - pose proof (Z.rem_bound_pos (cur + 1) R ltac:(lia) ltac:(lia)) as Hb.
    destruct (Z.leb_spec 0 (Z.rem (cur + 1) R)); [|lia].
    destruct (Z.ltb_spec (Z.rem (cur + 1) R) R); [reflexivity|lia].
  - destruct (Z.leb_spec 0 cur); [|lia].
    destruct (Z.ltb_spec cur R); [reflexivity|lia].
Qed.

Lemma Overlap_in_ring_bounds a R :
  (0 <=? a) && (a <? R) = true -> 0 <= a < R.
Proof.
  intros H. apply andb_prop in H as [H1 H2].
  apply Z.leb_le in H1. apply Z.ltb_lt in H2. lia.
Qed.

Lemma Overlap_act_in_ring i k now p r m r' m' p' :
  Overlap.act i k now p r m = Some (r', m', p') ->
  Overlap.in_ring (Z.of_nat (length (RateCounter.partials r))) p = true ->
  0 <= RateCounter.current r < Z.of_nat (length (RateCounter.partials r)) ->
  Z.of_nat (length (RateCounter.partials r)) <= 2 ^ 31 ->
  Overlap.in_ring (Z.of_nat (length (RateCounter.partials r))) p' = true /\
  length (RateCounter.partials r') = length (RateCounter.partials r) /\
  0 <= RateCounter.current r' < Z.of_nat (length (RateCounter.partials r)) /\
  RateCounter.interval r' = RateCounter.interval r.
Proof.
  intros H Hp Hc H31.
  destruct p; cbn [Overlap.act Overlap.in_ring] in H, Hp;
    try discriminate;
    repeat match type of H with
    | context [match k with _ => _ end] => destruct k
    | context [match m with _ => _ end] => destruct m
    | context [if F32.gtb ?a ?b then _ else _] => destruct (F32.gtb a b)
    | context [if RateCounter.resetting r then _ else _] =>
        destruct (RateCounter.resetting r)
    end;
    try discriminate.
  all: try (injection H as <- <- <-;
            cbn [Overlap.in_ring Overlap.with_counter Overlap.with_partials
                 Overlap.with_resetTime Overlap.with_current
                 Overlap.with_resetting RateCounter.partials
                 RateCounter.current RateCounter.interval];
            rewrite ?length_insert;
            first [ split; [reflexivity|split; [reflexivity|split; [exact Hc|reflexivity]]]
                  | split; [apply Overlap_loop_head_in_ring; exact Hc
                           |split; [reflexivity|split; [exact Hc|reflexivity]]]
                  | split; [exact Hp|split; [reflexivity|split; [exact Hc|reflexivity]]]
                  | split; [reflexivity
                           |split; [reflexivity
                                   |split; [apply Overlap_in_ring_bounds; exact Hp
                                           |reflexivity]]] ]).
  - (* AtValue *)
    rewrite Hp in H. apply Overlap_in_ring_bounds in Hp as Hb.
    destruct (lookup_lt_is_Some_2 (RateCounter.partials r) (Z.to_nat next))
      as [pv Hpv]; [lia|].
    rewrite Hpv in H. injection H as <- <- <-. cbn [Overlap.in_ring].
    rewrite Hp. split; [reflexivity|]. split; [reflexivity|].
    split; [exact Hc|reflexivity].
  - (* AtReset *)
    injection H as <- <- <-. apply Overlap_in_ring_bounds in Hp as Hb.
    cbn [Overlap.with_partials RateCounter.partials RateCounter.current
         RateCounter.interval].
    rewrite length_insert. split; [|split; [reflexivity|split; [exact Hc|reflexivity]]].
    apply Overlap_loop_head_in_ring. rewrite int32_small; lia.
  - (* AtReturn *)
    injection H as <- <- <-. cbn [Overlap.in_ring].
    destruct (Z.leb_spec 0 (RateCounter.current r)); [|lia].
    destruct (Z.ltb_spec (RateCounter.current r)
                (Z.of_nat (length (RateCounter.partials r)))); [|lia].
    split; [reflexivity|]. split; [reflexivity|].
    split; [exact Hc|reflexivity].
  - (* AtBump *)
    rewrite Hp in H. apply Overlap_in_ring_bounds in Hp as Hb.
    destruct (lookup_lt_is_Some_2 (RateCounter.partials r) (Z.to_nat current))
      as [pv Hpv]; [lia|].
    rewrite Hpv in H. injection H as <- <- <-.
    cbn [Overlap.in_ring Overlap.with_partials RateCounter.partials
         RateCounter.current RateCounter.interval].
    rewrite length_insert. split; [reflexivity|]. split; [reflexivity|].
    split; [exact Hc|reflexivity].
Qed.

Lemma Overlap_step_in_ring s i s' :
  Overlap.step i s = Some s' ->
  0 <= RateCounter.current (Overlap.shared s)
    < Z.of_nat (length (RateCounter.partials (Overlap.shared s))) ->
  Z.of_nat (length (RateCounter.partials (Overlap.shared s))) <= 2 ^ 31 ->
  Forall (fun g =>
            Overlap.in_ring
              (Z.of_nat (length (RateCounter.partials (Overlap.shared s))))
              (Overlap.at_ g) = true) (Overlap.goroutines s) ->
  length (RateCounter.partials (Overlap.shared s'))
  = length (RateCounter.partials (Overlap.shared s)) /\
  RateCounter.interval (Overlap.shared s')
  = RateCounter.interval (Overlap.shared s) /\
  length (Overlap.goroutines s') = length (Overlap.goroutines s) /\
  0 <= RateCounter.current (Overlap.shared s')
    < Z.of_nat (length (RateCounter.partials (Overlap.shared s))) /\
  Forall (fun g =>
            Overlap.in_ring
              (Z.of_nat (length (RateCounter.partials (Overlap.shared s))))
              (Overlap.at_ g) = true) (Overlap.goroutines s').
Proof.
  unfold Overlap.step. intros H Hc H31 Hg.
  destruct (Overlap.goroutines s !! i) as [g|] eqn:Hi; [|discriminate].
  destruct (Overlap.act i (Overlap.does g) (Overlap.now g) (Overlap.at_ g)
              (Overlap.shared s) (Overlap.mutex s))
    as [[[r' m'] p']|] eqn:Ha; [|discriminate].
  injection H as <-. cbn [Overlap.shared Overlap.goroutines].
  pose proof (proj1 (Forall_lookup _ _) Hg _ _ Hi) as Hp. cbv beta in Hp.
  destruct (Overlap_act_in_ring _ _ _ _ _ _ _ _ _ Ha Hp Hc H31)
    as (Hp' & Hl & Hc' & Hw).
  split; [exact Hl|]. split; [exact Hw|]. split; [apply length_insert|].
  split; [exact Hc'|].
  apply Forall_insert; [exact Hg|exact Hp'].
Qed.

Lemma Overlap_schedule_reachable s0 order : forall s s',
  Overlap.reachable s0 s -> Overlap.schedule order s = Some s' ->
  Overlap.reachable s0 s'.
Proof.
  induction order as [|i order IH]; intros s s' Hr H; cbn [Overlap.schedule] in H.
  - injection H as <-. exact Hr.
  - destruct (Overlap.step i s) as [s1|] eqn:Hs; [|discriminate].
    exact (IH _ _ (Overlap.reachable_step s0 s i s1 Hr Hs) H).
Qed.

Lemma race_schedule :
  Overlap.schedule incr_inside_last_eviction racing = Some after_race.
Proof. vm_compute. reflexivity. Qed.

Lemma wf_one_event : wf one_event.
Proof.
  split; [vm_compute; split; [discriminate|reflexivity]
         |vm_compute; discriminate|reflexivity].
Qed.

(** X21. Whatever the interleaving of any number of calls of [Incr] and [Rate]
    made on a counter whose ring has at most 2^31 buckets, no goroutine
    panics: the current index and every index a goroutine holds stay
    inside the ring, which keeps its length, and the window is not
    changed. *)
Theorem overlapping_calls_never_panic :
  forall (r : RateCounter.t) (gs : list Overlap.goroutine) (s : Overlap.state),
    wf r ->
    Forall (fun g => Overlap.at_ g = Overlap.start (Overlap.does g)) gs ->
    Overlap.reachable (Overlap.init r gs) s ->
    Forall (fun g => Overlap.at_ g <> Overlap.Panicked) (Overlap.goroutines s) /\
    length (Overlap.goroutines s) = length gs /\
    length (RateCounter.partials (Overlap.shared s))
    = length (RateCounter.partials r) /\
    0 <= RateCounter.current (Overlap.shared s)
      < Z.of_nat (length (RateCounter.partials r)) /\
    RateCounter.interval (Overlap.shared s) = RateCounter.interval r.
Proof.
  intros r gs s Hwf Hgs Hr.
  assert (H : length (RateCounter.partials (Overlap.shared s))
              = length (RateCounter.partials r) /\
              RateCounter.interval (Overlap.shared s) = RateCounter.interval r /\
              length (Overlap.goroutines s) = length gs /\
              0 <= RateCounter.current (Overlap.shared s)
                < Z.of_nat (length (RateCounter.partials r)) /\
              Forall (fun g =>
                        Overlap.in_ring
                          (Z.of_nat (length (RateCounter.partials r)))
                          (Overlap.at_ g) = true) (Overlap.goroutines s)).
  { induction Hr as [|s i s' _ IH Hs].
    - cbn [Overlap.init Overlap.shared Overlap.goroutines].
      split; [reflexivity|]. split; [reflexivity|]. split; [reflexivity|].
      split; [exact (wf_current r Hwf)|].
      eapply Forall_impl; [exact Hgs|]. intros g ->.
      destruct (Overlap.does g); reflexivity.
    - destruct IH as (Hl & Hw & Hn & Hc & Hg).
      pose proof (wf_length r Hwf) as H31.
      rewrite <- Hl in Hc, Hg, H31.
      destruct (Overlap_step_in_ring s i s' Hs Hc H31 Hg)
        as (Hl' & Hw' & Hn' & Hc' & Hg').
      rewrite Hl in Hc', Hg'.
      split; [congruence|]. split; [congruence|]. split; [congruence|].
      split; [exact Hc'|exact Hg']. }
  destruct H as (Hl & Hw & Hn & Hc & Hg).
  split; [|split; [exact Hn|split; [exact Hl|split; [exact Hc|exact Hw]]]].
  eapply Forall_impl; [exact Hg|]. intros g Hin Heq. cbv beta in Hin.
  rewrite Heq in Hin. discriminate Hin.
Qed.

Lemma overlapping_calls_never_panic_witness :
  wf one_event /\
  Forall (fun g => Overlap.at_ g = Overlap.start (Overlap.does g))
    (Overlap.goroutines racing) /\
  Overlap.reachable (Overlap.init one_event (Overlap.goroutines racing))
    after_race /\
  Forall (fun g => Overlap.at_ g <> Overlap.Panicked)
    (Overlap.goroutines after_race) /\
  length (Overlap.goroutines after_race)
  = length (Overlap.goroutines racing) /\
  length (RateCounter.partials (Overlap.shared after_race))
  = length (RateCounter.partials one_event) /\
  0 <= RateCounter.current (Overlap.shared after_race)
    < Z.of_nat (length (RateCounter.partials one_event)) /\
  RateCounter.interval (Overlap.shared after_race)
  = RateCounter.interval one_event.
Proof.
  assert (Hgs : Forall (fun g => Overlap.at_ g = Overlap.start (Overlap.does g))
                  (Overlap.goroutines racing))
    by (repeat constructor).
  assert (Hr : Overlap.reachable
                 (Overlap.init one_event (Overlap.goroutines racing)) after_race)
    by exact (Overlap_schedule_reachable _ _ _ _
                (Overlap.reachable_init _) race_schedule).
  split; [exact wf_one_event|]. split; [exact Hgs|]. split; [exact Hr|].
  exact (overlapping_calls_never_panic one_event (Overlap.goroutines racing)
           after_race wf_one_event Hgs Hr).
Defined.

(** *** An [Incr] inside an eviction *)

Lemma run_Rate_then_Incr :
  run one_event [OpRate 5000; OpIncr 1 5000] = Ok after_both.
Proof. vm_compute. reflexivity. Qed.

Lemma run_Incr_then_Rate :
  run one_event [OpIncr 1 5000; OpRate 5000] = Ok after_both.
Proof. vm_compute. reflexivity. Qed.

Lemma run_one_event :
  run (RateCounter.NewRateCounter second 0) [OpIncr 1 0] = Ok one_event.
Proof. vm_compute. reflexivity. Qed.

Lemma wf_lost_update : wf lost_update.
Proof.
  split; [vm_compute; split; [discriminate|reflexivity]
         |vm_compute; discriminate|reflexivity].
Qed.

(** X22. Calls that overlap can lose an event from its bucket for good.  On the
    default counter with one event recorded, a [Rate()] that evicts the
    whole ring and an [Incr(1)] are called at the same clock reading.  One
    after the other, in either order, they leave a total of 1 with the new
    event in the current bucket.  When the [Incr(1)] runs between the read
    of that bucket by the last turn of the loop and its reset, both calls
    return, [Rate()] with 1, and the total is 1 with every bucket at 0: the
    new event is in no bucket.  It is then never evicted: whatever calls
    follow, the total stays one above the sum of the buckets modulo 2^32,
    and with no further [Incr], [Rate()] returns 1 at every clock
    reading. *)
Theorem overlapping_Incr_is_counted_for_ever :
  run (RateCounter.NewRateCounter second 0) [OpIncr 1 0] = Ok one_event /\
  run one_event [OpRate 5000; OpIncr 1 5000] = Ok after_both /\
  run one_event [OpIncr 1 5000; OpRate 5000] = Ok after_both /\
  Counter.Value (RateCounter.counter after_both) = sum_partials after_both /\
  Overlap.schedule incr_inside_last_eviction racing = Some after_race /\
  Overlap.shared after_race = lost_update /\
  Counter.Value (RateCounter.counter lost_update) = 1 /\
  sum_partials lost_update = 0 /\
  (forall ops, exists r',
     run lost_update ops = Ok r' /\
     uint32 (Counter.Value (RateCounter.counter r') - sum_partials r') = 1) /\
  (forall nows, exists r',
     run lost_update (map OpRate nows) = Ok r' /\
     forall now, rate_at r' now = Ok 1).
Proof.
  split; [exact run_one_event|]. split; [exact run_Rate_then_Incr|].
  split; [exact run_Incr_then_Rate|]. split; [reflexivity|].
  split; [exact race_schedule|]. split; [reflexivity|].
  split; [reflexivity|]. split; [reflexivity|]. split.
  - intros ops. destruct (run_wf ops lost_update wf_lost_update)
      as (r' & Hrun & _).
    exists r'. split; [exact Hrun|].
    pose proof (run_drift ops _ _ Hrun) as Hd. unfold drift in Hd.
    unfold sum_partials, Counter.Value. rewrite map_Value, Hd. reflexivity.
  - intros nows.
    destruct (run_wf (map OpRate nows) lost_update wf_lost_update)
      as (r' & Hrun & Hwf').
    exists r'. split; [exact Hrun|].
    assert (Hf0 : floor_inv 1 (RateCounter.counter lost_update)
                    (RateCounter.partials lost_update)).
    { split; [apply Forall_replicate; lia|reflexivity]. }
    assert (Hd : Forall (fun o => 0 <= delta o) (map OpRate nows)).
    { apply Forall_map. apply Forall_true. intros now. simpl. lia. }
    pose proof (deltas_of_Rates nows) as Hs.
    destruct (run_floor_le (map OpRate nows) lost_update r' 1 Hrun
                ltac:(lia) Hd ltac:(rewrite Hs; reflexivity) Hf0)
      as [Hf Hle].
    rewrite Hs in Hle. cbn [lost_update RateCounter.counter] in Hle.
    intros now.
    destruct (Rate_floor r' now 1 Hwf' ltac:(lia) ltac:(lia) Hf)
      as (r2 & v & Hr2 & _ & [Hn2 Hv2] & Hv & Hle2).
    unfold rate_at. rewrite Hr2. cbn [bind snd]. f_equal.
    pose proof (sumZ_nonneg _ Hn2). lia.
Qed.
